(** * dictionary_graph: the trie, the layout tree and the Buchheim walker

    A shallow embedding of [dict_graph/utils.py], [dict_graph/layout.py]
    and [dict_graph/buchheim.py].

    Conventions of the embedding.
    - A Python float is a rational ([Q]), and [+], [-], [*], [/] and the
      comparisons on [Q] stand for the float operations of the code, with
      the operands in the order of the code.  Rounding is not modelled.
      The spacing and centring invariants of the first walk, and the part
      named [With exact arithmetic], use the laws of arithmetic: they hold
      for exact rationals.  The other theorems on coordinates repeat
      operations of the code one at a time, compare values, or bound their
      inputs (an integer up to [2 ^ 53] in size is a float).
    - The fuel of a recursive function is the size of the store, which is
      enough for every walk; the recursion limit of the interpreter is not
      modelled.  The identifier function [key] is a total function.
    - A [LayoutTree] object lives in a store ([gmap ref LayoutTree]).  Its
      address is the list of sibling indices that leads from the object up
      to the layout root: the head is its own [sibling_index], the tail is
      the address of its parent, and the layout root sits at [[]].
    - An exception of the interpreter is a value of [exn]; functions that
      may raise return a [result]. *)

From Stdlib Require Import ZArith QArith Qabs Qminmax Lia Lqa String Ascii List.
From stdpp Require Import base option list gmap sorting.

Set Warnings "-register-all,-clear-no-such-hyp".

Local Open Scope Z_scope.

(** ** The source tree ([utils.py]) *)

(** [class Tree]: [value], the insertion-ordered dict [children] and the
    end-of-word flag [is_leaf]. *)
Inductive Tree : Type :=
  mkTree (value : string) (children : list (ascii * Tree)) (is_leaf : bool).

Definition value (t : Tree) : string := let 'mkTree v _ _ := t in v.
Definition tchildren (t : Tree) : list (ascii * Tree) :=
  let 'mkTree _ cs _ := t in cs.
Definition is_leaf_flag (t : Tree) : bool := let 'mkTree _ _ lf := t in lf.

(** [Tree(c)] *)
Definition Tree_new (v : string) : Tree := mkTree v [] false.

Definition set_is_leaf (t : Tree) : Tree :=
  let 'mkTree v cs _ := t in mkTree v cs true.

(** One word of [build_tree]: walk down with [setdefault], creating the
    missing nodes at the end of the dict, then flag the last node. *)
Fixpoint insert_word (w : string) (t : Tree) {struct w} : Tree :=
  match w with
  | EmptyString => set_is_leaf t
  | String c w' =>
      let 'mkTree v cs lf := t in
      let fix upd (cs : list (ascii * Tree)) : list (ascii * Tree) :=
        match cs with
        | [] => [(c, insert_word w' (Tree_new (String c EmptyString)))]
        | (k, sub) :: rest =>
            if Ascii.eqb k c then (k, insert_word w' sub) :: rest
            else (k, sub) :: upd rest
        end in
      mkTree v (upd cs) lf
  end.

Definition build_tree (words : list string) : Tree :=
  fold_left (fun root w => insert_word w root) words (Tree_new EmptyString).

(** ** Layout objects ([layout.py]) *)

(** Addresses of [LayoutTree] objects. *)
Abbreviation ref := (list nat).

Record LayoutTree : Type := mkLayoutTree {
  _tree : Tree;
  children : list ref;
  sibling_index : nat;
  level : Z;
  _parent : option ref;
  _thread : option ref;
  _ancestor : ref;
  x : Q;
  y : Q;
  mod_ : Q;
  change : Q;
  shift : Q
}.

Abbreviation heap := (gmap ref LayoutTree).

#[global] Instance LayoutTree_inhabited : Inhabited LayoutTree :=
  populate (mkLayoutTree (Tree_new EmptyString) [] 0 0 None None [] 0 0 0 0 0).

(** The list comprehension of [__init__]: the children of the object at
    [self] are built left to right, child [i] at address [i :: self]. *)
Definition build_children {A : Type} (init : A -> nat -> heap -> heap)
    (self : ref) : list (ascii * A) -> nat -> heap -> list ref * heap :=
  fix build (cs : list (ascii * A)) (i : nat) (h : heap) : list ref * heap :=
    match cs with
    | [] => ([], h)
    | (_, c) :: rest =>
        let '(rs, h2) := build rest (S i) (init c i h) in
        ((i :: self) :: rs, h2)
    end.

(** [LayoutTree.__init__], for the object allocated at address [self]. *)
Fixpoint LayoutTree_init (tree : Tree) (parent : option ref)
    (sibling_index : nat) (level level_limit : Z) (self : ref) (h : heap)
    {struct tree} : heap :=
  let 'mkTree _ cs _ := tree in
  let '(kids, h1) :=
    if Z.ltb level (level_limit - 1)
    then build_children
           (fun c i h =>
              LayoutTree_init c (Some self) i (level + 1) level_limit
                (i :: self) h)
           self cs 0%nat h
    else ([], h) in
  <[ self := mkLayoutTree tree kids sibling_index level parent None self
               0 (inject_Z level) 0 0 0 ]> h1.

(** ** Exceptions *)

Inductive exn : Type :=
  | AttributeError      (* an attribute of [None] *)
  | ZeroDivisionError
  | IndexError
  | ValueError
  | RecursionError.     (* the fuel of the embedding ran out *)

Inductive result (A : Type) : Type :=
  | Ok (a : A)
  | Raise (e : exn).
Arguments Ok {A} a.
Arguments Raise {A} e.

#[global] Instance result_ret : MRet result := fun A a => Ok a.
#[global] Instance result_bind : MBind result := fun A B f m =>
  match m with Ok a => f a | Raise e => Raise e end.

(** [o.attr] where [o] may be [None] *)
Definition deref {A} (o : option A) : result A :=
  match o with Some a => Ok a | None => Raise AttributeError end.

(** ** Field updates *)

Definition with_x (v : Q) (n : LayoutTree) : LayoutTree :=
  mkLayoutTree (_tree n) (children n) (sibling_index n) (level n) (_parent n)
    (_thread n) (_ancestor n) v (y n) (mod_ n) (change n) (shift n).
Definition with_y (v : Q) (n : LayoutTree) : LayoutTree :=
  mkLayoutTree (_tree n) (children n) (sibling_index n) (level n) (_parent n)
    (_thread n) (_ancestor n) (x n) v (mod_ n) (change n) (shift n).
Definition with_mod (v : Q) (n : LayoutTree) : LayoutTree :=
  mkLayoutTree (_tree n) (children n) (sibling_index n) (level n) (_parent n)
    (_thread n) (_ancestor n) (x n) (y n) v (change n) (shift n).
Definition with_change (v : Q) (n : LayoutTree) : LayoutTree :=
  mkLayoutTree (_tree n) (children n) (sibling_index n) (level n) (_parent n)
    (_thread n) (_ancestor n) (x n) (y n) (mod_ n) v (shift n).
Definition with_shift (v : Q) (n : LayoutTree) : LayoutTree :=
  mkLayoutTree (_tree n) (children n) (sibling_index n) (level n) (_parent n)
    (_thread n) (_ancestor n) (x n) (y n) (mod_ n) (change n) v.
Definition with_thread (t : ref) (n : LayoutTree) : LayoutTree :=
  mkLayoutTree (_tree n) (children n) (sibling_index n) (level n) (_parent n)
    (Some t) (_ancestor n) (x n) (y n) (mod_ n) (change n) (shift n).
Definition with_ancestor (a : ref) (n : LayoutTree) : LayoutTree :=
  mkLayoutTree (_tree n) (children n) (sibling_index n) (level n) (_parent n)
    (_thread n) a (x n) (y n) (mod_ n) (change n) (shift n).

(** [o.x = v], [o.x += v], ... on the object at address [r] *)
Definition set_x (r : ref) (v : Q) (h : heap) : heap := alter (with_x v) r h.
Definition set_y (r : ref) (v : Q) (h : heap) : heap := alter (with_y v) r h.
Definition set_mod (r : ref) (v : Q) (h : heap) : heap := alter (with_mod v) r h.
Definition set_change (r : ref) (v : Q) (h : heap) : heap :=
  alter (with_change v) r h.
Definition set_shift (r : ref) (v : Q) (h : heap) : heap :=
  alter (with_shift v) r h.
Definition set_thread (r t : ref) (h : heap) : heap := alter (with_thread t) r h.
Definition set_ancestor (r a : ref) (h : heap) : heap :=
  alter (with_ancestor a) r h.

(** ** Properties of [LayoutTree] *)

Section Properties.
Variable h : heap.

Definition parent (r : ref) : option ref := _parent (h !!! r).
Definition ancestor (r : ref) : ref := _ancestor (h !!! r).
Definition thread (r : ref) : option ref := _thread (h !!! r).

Definition left_sibling (r : ref) : option ref :=
  match parent r with
  | Some p =>
      if Nat.ltb 0 (sibling_index (h !!! r))
      then children (h !!! p) !! (sibling_index (h !!! r) - 1)%nat
      else None
  | None => None
  end.

Definition leftmost_sibling (r : ref) : option ref :=
  match parent r with
  | Some p => head (children (h !!! p))
  | None => None
  end.

Definition is_leftmost_sibling (r : ref) : bool :=
  match left_sibling r with None => true | Some _ => false end.

Definition is_leaf (r : ref) : bool :=
  match children (h !!! r) with [] => true | _ => false end.

Definition next_left (r : ref) : option ref :=
  if is_leaf r then thread r else head (children (h !!! r)).

Definition next_right (r : ref) : option ref :=
  if is_leaf r then thread r else last (children (h !!! r)).
End Properties.

(** ** The walker ([buchheim.py]) *)

Fixpoint foldM {A B : Type} (f : A -> B -> result A) (l : list B) (a : A)
    : result A :=
  match l with
  | [] => Ok a
  | b :: l' => a' ← f a b; foldM f l' a'
  end.

(** [a > b] on floats *)
Definition Qgtb (a b : Q) : bool := negb (Qle_bool a b).

Definition _shift_subtrees (wl wr : ref) (shift_amount : Q) (h : heap)
    : result heap :=
  let subtrees :=
    Z.of_nat (sibling_index (h !!! wr)) - Z.of_nat (sibling_index (h !!! wl)) in
  let h := set_shift wr (shift (h !!! wr) + shift_amount)%Q h in
  if Z.eqb subtrees 0 then Raise ZeroDivisionError else
  let h := set_change wr
             (change (h !!! wr) - shift_amount / inject_Z subtrees)%Q h in
  let h := set_change wl
             (change (h !!! wl) + shift_amount / inject_Z subtrees)%Q h in
  let h := set_x wr (x (h !!! wr) + shift_amount)%Q h in
  let h := set_mod wr (mod_ (h !!! wr) + shift_amount)%Q h in
  Ok h.

(** One turn of the loop of [_shift_tree], on child [w]. *)
Definition shift_step (st : Q * Q * heap) (w : ref) : Q * Q * heap :=
  let '(shift_, change_, h) := st in
  let h := set_x w (x (h !!! w) + shift_)%Q h in
  let h := set_mod w (mod_ (h !!! w) + shift_)%Q h in
  let change_ := (change_ + change (h !!! w))%Q in
  let shift_ := (shift_ + (shift (h !!! w) + change_))%Q in
  (shift_, change_, h).

Definition _shift_tree (root : ref) (h : heap) : heap :=
  snd (fold_left shift_step (rev (children (h !!! root))) (0%Q, 0%Q, h)).

(** [_ancestor] of [buchheim.py]; the quote tells it from the slot
    [_ancestor] of the object. *)
Definition _ancestor' (vil v default_ancestor : ref) (h : heap) : result ref :=
  p ← deref (parent h v);
  if bool_decide (ancestor h vil ∈ children (h !!! p))
  then Ok (ancestor h vil)
  else Ok default_ancestor.

(** The four contour pointers and the four modifier sums of [_apportion]. *)
Record contour : Type := mkContour {
  vil : ref; vir : ref; vol : ref; vor : ref;
  sil : Q; sir : Q; sol : Q; sor : Q
}.

(** The [while] loop of [_apportion]; one unit of fuel per level. *)
Fixpoint apportion_loop (fuel : nat) (v default_ancestor : ref) (dx : Q)
    (c : contour) (h : heap) : result (contour * heap) :=
  match next_right h (vil c), next_left h (vir c) with
  | Some vil', Some vir' =>
      match fuel with
      | O => Raise RecursionError
      | S fuel =>
          vol' ← deref (next_left h (vol c));
          vor' ← deref (next_right h (vor c));
          let h := set_ancestor vor' v h in
          let shift_ := ((x (h !!! vil') + sil c) - (x (h !!! vir') + sir c) + dx)%Q in
          '(sir1, sor1, h) ←
            (if Qgtb shift_ 0 then
               ancestor_ ← _ancestor' vil' v default_ancestor h;
               h ← _shift_subtrees ancestor_ v shift_ h;
               Ok ((sir c + shift_)%Q, (sor c + shift_)%Q, h)
             else Ok (sir c, sor c, h));
          apportion_loop fuel v default_ancestor dx
            (mkContour vil' vir' vol' vor'
               (sil c + mod_ (h !!! vil'))%Q (sir1 + mod_ (h !!! vir'))%Q
               (sol c + mod_ (h !!! vol'))%Q (sor1 + mod_ (h !!! vor'))%Q) h
      end
  | _, _ => Ok (c, h)
  end.

Definition is_some {A} (o : option A) : bool :=
  match o with Some _ => true | None => false end.

Definition _apportion (fuel : nat) (v default_ancestor : ref) (dx : Q)
    (h : heap) : result (ref * heap) :=
  match left_sibling h v with
  | Some v_ =>
      vol0 ← deref (leftmost_sibling h v);
      '(c, h) ← apportion_loop fuel v default_ancestor dx
                  (mkContour v_ v vol0 v
                     (mod_ (h !!! v_)) (mod_ (h !!! v))
                     (mod_ (h !!! vol0)) (mod_ (h !!! v))) h;
      if is_some (next_right h (vil c)) && negb (is_some (next_right h (vor c)))
      then
        nr ← deref (next_right h (vil c));
        let h := set_thread (vor c) nr h in
        let h := set_mod (vor c) (mod_ (h !!! vor c) + (sil c - sor c))%Q h in
        Ok (default_ancestor, h)
      else
        let h :=
          if is_some (next_left h (vir c)) && negb (is_some (next_left h (vol c)))
          then
            match next_left h (vir c) with
            | Some nl =>
                let h := set_thread (vol c) nl h in
                set_mod (vol c) (mod_ (h !!! vol c) + (sir c - sol c))%Q h
            | None => h
            end
          else h in
        Ok (v, h)
  | None => Ok (default_ancestor, h)
  end.

(** [_first_walk]; the recursive call on a child takes the default [dx]. *)
Fixpoint _first_walk (fuel : nat) (dx : Q) (root : ref) (h : heap)
    : result heap :=
  match fuel with
  | O => Raise RecursionError
  | S fuel =>
      if is_leaf h root then
        match left_sibling h root with
        | None => Ok (set_x root 0%Q h)
        | Some w => Ok (set_x root (x (h !!! w) + dx)%Q h)
        end
      else
        match head (children (h !!! root)) with
        | None => Raise IndexError
        | Some c0 =>
            '(_, h) ← foldM (fun '(default_ancestor, h) w =>
                               h ← _first_walk fuel 1%Q w h;
                               _apportion (size h) w default_ancestor dx h)
                            (children (h !!! root)) (c0, h);
            let h := _shift_tree root h in
            match head (children (h !!! root)), last (children (h !!! root)) with
            | Some c0, Some cl =>
                let midpoint := ((x (h !!! c0) + x (h !!! cl)) * (1 # 2))%Q in
                match left_sibling h root with
                | Some w =>
                    let h := set_x root (x (h !!! w) + dx)%Q h in
                    Ok (set_mod root (x (h !!! root) - midpoint)%Q h)
                | None => Ok (set_x root midpoint h)
                end
            | _, _ => Raise IndexError
            end
        end
  end.

(** [_second_walk]; returns the smallest x met so far and the store. *)
Fixpoint _second_walk (fuel : nat) (root : ref) (shift_ : Q)
    (start_y : option Q) (dy : Q) (min_x : option Q) (h : heap)
    : result (Q * heap) :=
  match fuel with
  | O => Raise RecursionError
  | S fuel =>
      let h := set_x root (x (h !!! root) + shift_)%Q h in
      let '(start_y, h) :=
        match start_y with
        | Some sy => (sy, set_y root sy h)
        | None => (y (h !!! root), h)
        end in
      let min_x :=
        match min_x with
        | None => x (h !!! root)
        | Some m => if Qgtb m (x (h !!! root)) then x (h !!! root) else m
        end in
      foldM (fun '(min_x, h) w =>
               _second_walk fuel w (shift_ + mod_ (h !!! root))%Q
                 (Some (start_y + dy)%Q) dy (Some min_x) h)
            (children (h !!! root)) (min_x, h)
  end.

(** [LayoutTree.boundary_box]: [(x_min, x_max, y_min, y_max)] *)
Fixpoint boundary_box (fuel : nat) (h : heap) (r : ref) : result (Q * Q * Q * Q) :=
  match fuel with
  | O => Raise RecursionError
  | S fuel =>
      if is_leaf h r then Ok (x (h !!! r), x (h !!! r), y (h !!! r), y (h !!! r))
      else
        foldM (fun '(x0, x1, y0, y1) child =>
                 '(cx0, cx1, cy0, cy1) ← boundary_box fuel h child;
                 Ok (Qmin x0 cx0, Qmax x1 cx1, Qmin y0 cy0, Qmax y1 cy1))
              (children (h !!! r))
              (x (h !!! r), x (h !!! r), y (h !!! r), y (h !!! r))
  end.

(** [buchheim]: both walks, then the boundary box. *)
Definition buchheim (layout_tree : ref) (h : heap)
    : result (Q * Q * Q * Q * heap) :=
  h1 ← _first_walk (size h) 1%Q layout_tree h;
  '(_, h2) ← _second_walk (size h) layout_tree 0%Q None 1%Q None h1;
  bbox ← boundary_box (size h) h2 layout_tree;
  Ok (bbox, h2).

(** ** Extraction and axis transform ([layout.py]) *)

Section Render.
Context {UID : Type} `{Countable UID}.

(** The identifier function receives the object, hence the store too. *)
Variable key : heap -> ref -> UID.

Record layout : Type := mkLayout {
  branches : gmap UID string;
  leaves : gmap UID string;
  edges : list (UID * UID);
  positions : gmap UID (Q * Q)
}.

(** The body of [for l_tree in q]. *)
Definition visit (h : heap) (st : layout * list ref) (l_tree : ref)
    : layout * list ref :=
  let '(out, next_q) := st in
  let curr_key := key h l_tree in
  let t := _tree (h !!! l_tree) in
  let out :=
    if is_leaf_flag t
    then mkLayout (branches out) (<[curr_key := value t]> (leaves out))
           (edges out) (positions out)
    else mkLayout (<[curr_key := value t]> (branches out)) (leaves out)
           (edges out) (positions out) in
  let out :=
    mkLayout (branches out) (leaves out) (edges out)
      (<[curr_key := (x (h !!! l_tree), y (h !!! l_tree))]> (positions out)) in
  fold_left (fun '(out, next_q) child =>
               (mkLayout (branches out) (leaves out)
                  (edges out ++ [(curr_key, key h child)]) (positions out),
                next_q ++ [child]))
            (children (h !!! l_tree)) (out, next_q).

(** [while q: ...]; one unit of fuel per level. *)
Fixpoint extract_loop (fuel : nat) (h : heap) (q : list ref) (out : layout)
    : result layout :=
  match q with
  | [] => Ok out
  | _ :: _ =>
      match fuel with
      | O => Raise RecursionError
      | S fuel =>
          let '(out, next_q) := fold_left (visit h) q (out, []) in
          extract_loop fuel h next_q out
      end
  end.

(** [extract_tree_layout] on a list of layout trees (a single tree is the
    one-element list). *)
Definition extract_tree_layout (h : heap) (layout_tree : list ref)
    : result layout :=
  extract_loop (S (size h)) h layout_tree (mkLayout ∅ ∅ [] ∅).

(** The RADIAL branch of [_transform_axes] goes through [numpy]'s [cos],
    [sin] and [pi]; it is kept abstract. *)
Variable radial : gmap UID (Q * Q) -> gmap UID (Q * Q).

(** [_transform_axes]: [numpy] refuses the column access, the product and
    the reductions on the array of an empty dict. *)
Definition _transform_axes (positions : gmap UID (Q * Q)) (rankdir : string)
    : result (gmap UID (Q * Q)) :=
  if String.eqb rankdir "TB" then
    if bool_decide (positions = ∅) then Raise IndexError
    else Ok ((fun p : Q * Q => (p.1, p.2 * -1)%Q) <$> positions)
  else if String.eqb rankdir "LR" then
    if bool_decide (positions = ∅) then Raise ValueError
    else Ok ((fun p : Q * Q => (p.1 * 0 + p.2 * 1, p.1 * -1 + p.2 * 0)%Q)
               <$> positions)
  else if String.eqb rankdir "RL" then
    if bool_decide (positions = ∅) then Raise ValueError
    else Ok ((fun p : Q * Q => (p.1 * 0 + p.2 * -1, p.1 * -1 + p.2 * 0)%Q)
               <$> positions)
  else if String.eqb rankdir "RADIAL" then
    if bool_decide (positions = ∅) then Raise ValueError
    else Ok (radial positions)
  else Ok positions.

(** [render_tree] *)
Definition render_tree (tree : Tree) (keep_root : bool) (depth_limit : Z)
    (rankdir : string) : result layout :=
  let h := LayoutTree_init tree None 0 (if keep_root then 0 else -1)
             depth_limit [] ∅ in
  '(_, h) ← buchheim [] h;
  out ← extract_tree_layout h
          (if keep_root then [[]] else children (h !!! []));
  if negb (String.eqb rankdir "BT") then
    pos ← _transform_axes (positions out) rankdir;
    Ok (mkLayout (branches out) (leaves out) (edges out) pos)
  else Ok out.
End Render.


(** * Verification *)

(** ** The shape of a freshly built layout tree *)

(** Induction on [Tree] through the list of children. *)
Fixpoint Tree_ind' (P : Tree -> Prop)
    (H : forall v cs lf, Forall (fun kc => P kc.2) cs -> P (mkTree v cs lf))
    (t : Tree) {struct t} : P t :=
  match t with
  | mkTree v cs lf =>
      H v cs lf
        ((fix go (cs : list (ascii * Tree)) : Forall (fun kc => P kc.2) cs :=
            match cs with
            | [] => Forall_nil_2 _
            | (k, c) :: rest => Forall_cons_2 _ (k, c) rest (Tree_ind' P H c) (go rest)
            end) cs)
  end.

(** The source node reached from [t] through the child indices [path]. *)
Fixpoint subtree (t : Tree) (path : list nat) : option Tree :=
  match path with
  | [] => Some t
  | i :: path' =>
      match tchildren t !! i with
      | Some (_, c) => subtree c path'
      | None => None
      end
  end.

Definition parent_of (q : ref) : option ref :=
  match q with [] => None | _ :: p => Some p end.

(** The object that [LayoutTree(t0, level=lvl0, level_limit=lim)] puts at
    address [q], if any. *)
Definition node_of (t0 : Tree) (lvl0 lim : Z) (q : ref) : option LayoutTree :=
  match subtree t0 (rev q) with
  | Some t =>
      let l := lvl0 + Z.of_nat (length q) in
      if bool_decide (q = [] \/ l <= lim - 1) then
        Some (mkLayoutTree t
                (if Z.ltb l (lim - 1)
                 then (fun i => i :: q) <$> seq 0 (length (tchildren t))
                 else [])
                (hd 0%nat q) l (parent_of q) None q 0 (inject_Z l) 0 0 0)
      else None
  | None => None
  end.

Lemma subtree_app t p1 p2 :
  subtree t (p1 ++ p2) = subtree t p1 ≫= fun t' => subtree t' p2.
Proof.
  revert t. induction p1 as [|i p1 IH]; intros t; simpl; [done|].
  destruct (tchildren t !! i) as [[k c]|]; [apply IH|done].
Qed.

Lemma suffix_drop_eq (l q : ref) :
  l `suffix_of` q -> l = drop (length q - length l) q.
Proof.
  intros [k ->]. rewrite length_app.
  replace (length k + length l - length l)%nat with (length k) by lia.
  by rewrite drop_app_length.
Qed.

Lemma suffix_same_length (l1 l2 q : ref) :
  l1 `suffix_of` q -> l2 `suffix_of` q -> length l1 = length l2 -> l1 = l2.
Proof.
  intros H1 H2 Hl. rewrite (suffix_drop_eq _ _ H1), (suffix_drop_eq _ _ H2).
  by rewrite Hl.
Qed.

Lemma region_disjoint (i j : nat) (self q : ref) :
  (i :: self) `suffix_of` q -> (j :: self) `suffix_of` q -> i = j.
Proof.
  intros H1 H2.
  assert (i :: self = j :: self) as E by (eapply suffix_same_length; eauto).
  by injection E.
Qed.

Lemma region_child (self q : ref) :
  self `suffix_of` q -> q ≠ self -> exists j, (j :: self) `suffix_of` q.
Proof.
  intros [k ->] Hne.
  destruct k as [|j k' _] using rev_ind; [done|].
  exists j, k'. by rewrite <- app_assoc.
Qed.

Lemma region_step (j : nat) (self q : ref) :
  (j :: self) `suffix_of` q -> self `suffix_of` q /\ q ≠ self.
Proof.
  intros [k ->]. split.
  - exists (k ++ [j]). by rewrite <- app_assoc.
  - intros E. apply (f_equal length) in E. rewrite length_app in E. simpl in E. lia.
Qed.

Section Init.
Variables (t0 : Tree) (lvl0 lim : Z).

(** What a store holds at [q] once the objects of a region are built. *)
Definition filled (h : heap) (q : ref) : option LayoutTree :=
  match node_of t0 lvl0 lim q with Some n => Some n | None => h !! q end.

Definition init_ok (t : Tree) : Prop :=
  forall self par idx lvl h,
    subtree t0 (rev self) = Some t ->
    par = parent_of self -> idx = hd 0%nat self ->
    lvl = lvl0 + Z.of_nat (length self) ->
    (self = [] \/ lvl <= lim - 1) ->
    forall q,
      LayoutTree_init t par idx lvl lim self h !! q =
      if bool_decide (self `suffix_of` q) then filled h q else h !! q.

Lemma build_children_lookup (self : ref) (t : Tree) (lvl : Z) :
  subtree t0 (rev self) = Some t ->
  lvl = lvl0 + Z.of_nat (length self) ->
  lvl < lim - 1 ->
  forall cs i h kids h2,
    (forall m, cs !! m = tchildren t !! (i + m)%nat) ->
    Forall (fun kc => init_ok kc.2) cs ->
    build_children
      (fun c i h => LayoutTree_init c (Some self) i (lvl + 1) lim (i :: self) h)
      self cs i h = (kids, h2) ->
    kids = (fun j => j :: self) <$> seq i (length cs) /\
    (forall q, (forall j, (i <= j < i + length cs)%nat ->
                     ~ (j :: self) `suffix_of` q) -> h2 !! q = h !! q) /\
    (forall q j, (i <= j < i + length cs)%nat -> (j :: self) `suffix_of` q ->
                 h2 !! q = filled h q).
Proof.
  intros Hsub Hlvl Hlt cs.
  induction cs as [|[k c] rest IH]; intros i h kids h2 Hcs Hall Hb; simpl in Hb.
  - injection Hb as <- <-. split; [done|]. split; [done|].
    intros q j Hj. simpl in Hj. lia.
  - match type of Hb with
    | context [build_children ?f self rest (S i) ?hh] =>
        destruct (build_children f self rest (S i) hh) as [rs h3] eqn:Hrest
    end.
    injection Hb as <- <-.
    apply Forall_cons in Hall as [Hc Hall].
    edestruct (IH (S i)) as (Hk & Hout & Hin); [|exact Hall|exact Hrest|].
    { intros m. specialize (Hcs (S m)). simpl in Hcs. rewrite Hcs.
      f_equal. lia. }
    assert (Hci : forall q,
      LayoutTree_init c (Some self) i (lvl + 1) lim (i :: self) h !! q =
      if bool_decide ((i :: self) `suffix_of` q) then filled h q else h !! q).
    { apply Hc; [|done|done| |].
      - simpl. rewrite subtree_app, Hsub. simpl.
        specialize (Hcs 0%nat). simpl in Hcs. rewrite Nat.add_0_r in Hcs.
        by rewrite <- Hcs.
      - simpl length. lia.
      - right. lia. }
    split; [by rewrite Hk|]. split.
    + intros q Hq. rewrite Hout.
      * rewrite Hci. rewrite bool_decide_eq_false_2; [done|].
        apply Hq. simpl. lia.
      * intros j Hj. apply Hq. simpl. lia.
    + intros q j Hj Hs. simpl in Hj.
      destruct (decide (j = i)) as [->|Hne].
      * rewrite Hout; [by rewrite Hci, bool_decide_eq_true_2|].
        intros j' Hj' Hs'. pose proof (region_disjoint _ _ _ _ Hs Hs'). lia.
      * rewrite (Hin q j); [|lia|done].
        unfold filled. destruct (node_of t0 lvl0 lim q); [done|].
        rewrite Hci, bool_decide_eq_false_2; [done|].
        intros Hs'. pose proof (region_disjoint _ _ _ _ Hs Hs'). done.
Qed.

Lemma node_of_below (self q : ref) (t : Tree) (j : nat) :
  subtree t0 (rev self) = Some t ->
  (j :: self) `suffix_of` q ->
  (tchildren t !! j = None \/ ~ lvl0 + Z.of_nat (length self) < lim - 1) ->
  node_of t0 lvl0 lim q = None.
Proof.
  intros Hsub [k ->] Hcase. unfold node_of.
  rewrite rev_app_distr. simpl. rewrite <- app_assoc, subtree_app, Hsub. simpl.
  destruct Hcase as [Hn|Hl]; [by rewrite Hn|].
  destruct (tchildren t !! j) as [[? c]|]; [|done].
  destruct (subtree c (rev k)); [|done].
  rewrite bool_decide_eq_false_2; [done|].
  intros [E|Hle]; [by destruct k|].
  rewrite length_app in Hle. simpl in Hle. lia.
Qed.

Lemma init_ok_all (t : Tree) : init_ok t.
Proof.
  induction t as [v cs lf IH] using Tree_ind'.
  intros self par idx lvl h Hsub -> -> Hlvl Hex q. simpl.
  destruct (Z.ltb_spec lvl (lim - 1)) as [Hlt|Hge].
  - match goal with
    | |- context [build_children ?f self cs 0%nat h] =>
        destruct (build_children f self cs 0%nat h) as [kids h1] eqn:Hb
    end.
    eapply build_children_lookup in Hb as (Hk & Hout & Hin); eauto.
    destruct (decide (q = self)) as [->|Hne].
    + rewrite lookup_insert_eq, bool_decide_eq_true_2 by done.
      unfold filled, node_of. rewrite Hsub. simpl tchildren.
      rewrite <- Hlvl. rewrite bool_decide_eq_true_2 by done.
      destruct (Z.ltb_spec lvl (lim - 1)); [|lia]. by rewrite Hk.
    + rewrite lookup_insert_ne by done.
      case_bool_decide as Hs.
      * destruct (region_child _ _ Hs Hne) as [j Hj].
        destruct (decide (j < length cs)%nat) as [Hjl|Hjl].
        -- apply (Hin q j); [lia|done].
        -- rewrite Hout.
           ++ unfold filled. erewrite node_of_below; eauto.
              left. simpl. apply lookup_ge_None. lia.
           ++ intros j' Hj' Hs'. pose proof (region_disjoint _ _ _ _ Hj Hs'). lia.
      * apply Hout. intros j Hj Hs'. apply Hs. by apply region_step in Hs' as [? ?].
  - destruct (decide (q = self)) as [->|Hne].
    + rewrite lookup_insert_eq, bool_decide_eq_true_2 by done.
      unfold filled, node_of. rewrite Hsub.
      rewrite <- Hlvl. rewrite bool_decide_eq_true_2 by done.
      destruct (Z.ltb_spec lvl (lim - 1)); [lia|]. done.
    + rewrite lookup_insert_ne by done.
      case_bool_decide as Hs; [|done].
      destruct (region_child _ _ Hs Hne) as [j Hj].
      unfold filled. erewrite node_of_below; eauto. right. lia.
Qed.

(** The layout tree that [render_tree] builds, address by address. *)
Lemma LayoutTree_init_lookup (q : ref) :
  LayoutTree_init t0 None 0 lvl0 lim [] ∅ !! q = node_of t0 lvl0 lim q.
Proof.
  rewrite (init_ok_all t0 [] None 0%nat lvl0 ∅); try done.
  - rewrite bool_decide_eq_true_2 by apply suffix_nil.
    unfold filled. by destruct (node_of t0 lvl0 lim q).
  - simpl. lia.
  - by left.
Qed.
End Init.

(** ** Stores: reading a field after an update *)

(** [f] leaves the field [F] alone. *)
Definition preserves {B : Type} (F : LayoutTree -> B)
    (f : LayoutTree -> LayoutTree) : Prop :=
  forall n, F (f n) = F n.

Lemma alter_preserved {B : Type} (F : LayoutTree -> B)
    (f : LayoutTree -> LayoutTree) (r q : ref) (h : heap) :
  preserves F f -> F (alter f r h !!! q) = F (h !!! q).
Proof.
  intros HF. rewrite lookup_total_alter.
  destruct (decide (r = q)) as [->|]; [|done].
  rewrite lookup_total_alt. destruct (h !! q); simpl; [apply HF|done].
Qed.

Lemma alter_hit {B : Type} (F : LayoutTree -> B)
    (f : LayoutTree -> LayoutTree) (r : ref) (h : heap) (b : B) :
  (forall n, F (f n) = b) -> is_Some (h !! r) -> F (alter f r h !!! r) = b.
Proof.
  intros HF [n Hn]. rewrite lookup_total_alter_eq, Hn. simpl. apply HF.
Qed.

Lemma alter_miss {B : Type} (F : LayoutTree -> B)
    (f : LayoutTree -> LayoutTree) (r q : ref) (h : heap) :
  q ≠ r -> F (alter f r h !!! q) = F (h !!! q).
Proof. intros Hne. by rewrite lookup_total_alter_ne. Qed.

Lemma alter_is_Some (f : LayoutTree -> LayoutTree) (r q : ref) (h : heap) :
  is_Some (alter f r h !! q) <-> is_Some (h !! q).
Proof. by rewrite <- !not_eq_None_Some, lookup_alter_None. Qed.

Ltac unfold_set :=
  unfold set_x, set_y, set_mod, set_change, set_shift, set_thread, set_ancestor.

(** Fields that an update does not name are read through it. *)
Ltac skip_alter F :=
  rewrite (alter_preserved F) by (intros []; reflexivity).

Ltac heap_simpl :=
  unfold_set;
  repeat first
    [ skip_alter _tree | skip_alter children | skip_alter sibling_index
    | skip_alter level | skip_alter _parent | skip_alter _thread
    | skip_alter _ancestor | skip_alter x | skip_alter y | skip_alter mod_
    | skip_alter change | skip_alter shift
    | rewrite alter_is_Some ].

Lemma set_x_hit r v h : is_Some (h !! r) -> x (set_x r v h !!! r) = v.
Proof. apply alter_hit. by intros []. Qed.
Lemma set_mod_hit r v h : is_Some (h !! r) -> mod_ (set_mod r v h !!! r) = v.
Proof. apply alter_hit. by intros []. Qed.
Lemma set_change_hit r v h : is_Some (h !! r) -> change (set_change r v h !!! r) = v.
Proof. apply alter_hit. by intros []. Qed.
Lemma set_shift_hit r v h : is_Some (h !! r) -> shift (set_shift r v h !!! r) = v.
Proof. apply alter_hit. by intros []. Qed.
Lemma set_thread_hit r t h : is_Some (h !! r) -> _thread (set_thread r t h !!! r) = Some t.
Proof. apply alter_hit. by intros []. Qed.
Lemma set_ancestor_hit r a h :
  is_Some (h !! r) -> _ancestor (set_ancestor r a h !!! r) = a.
Proof. apply alter_hit. by intros []. Qed.
Lemma set_y_hit r v h : is_Some (h !! r) -> y (set_y r v h !!! r) = v.
Proof. apply alter_hit. by intros []. Qed.

Lemma set_x_miss r q v h : q ≠ r -> x (set_x r v h !!! q) = x (h !!! q).
Proof. apply alter_miss. Qed.
Lemma set_mod_miss r q v h : q ≠ r -> mod_ (set_mod r v h !!! q) = mod_ (h !!! q).
Proof. apply alter_miss. Qed.
Lemma set_change_miss r q v h :
  q ≠ r -> change (set_change r v h !!! q) = change (h !!! q).
Proof. apply alter_miss. Qed.
Lemma set_shift_miss r q v h : q ≠ r -> shift (set_shift r v h !!! q) = shift (h !!! q).
Proof. apply alter_miss. Qed.
Lemma set_thread_miss r q t h :
  q ≠ r -> _thread (set_thread r t h !!! q) = _thread (h !!! q).
Proof. apply alter_miss. Qed.
Lemma set_ancestor_miss r q a h :
  q ≠ r -> _ancestor (set_ancestor r a h !!! q) = _ancestor (h !!! q).
Proof. apply alter_miss. Qed.
Lemma set_y_miss r q v h : q ≠ r -> y (set_y r v h !!! q) = y (h !!! q).
Proof. apply alter_miss. Qed.

(** ** Well-formed stores *)

(** What the constructor guarantees about the links that never change. *)
Record wf (h : heap) : Prop := {
  wf_root : is_Some (h !! []);
  wf_children : forall r n, h !! r = Some n ->
    children n = (fun i => i :: r) <$> seq 0 (length (children n));
  wf_parent : forall r n, h !! r = Some n ->
    _parent n = parent_of r /\ sibling_index n = hd 0%nat r;
  wf_up : forall i p, is_Some (h !! (i :: p)) ->
    exists np, h !! p = Some np /\ (i < length (children np))%nat;
  wf_down : forall r n i, h !! r = Some n -> (i < length (children n))%nat ->
    is_Some (h !! (i :: r))
}.

(** The immutable part of an object. *)
Definition skel (n : LayoutTree) : Tree * list ref * nat * Z * option ref :=
  (_tree n, children n, sibling_index n, level n, _parent n).

Definition same_shape (h h' : heap) : Prop :=
  forall r, skel <$> h' !! r = skel <$> h !! r.

Lemma same_shape_refl h : same_shape h h.
Proof. done. Qed.

Lemma same_shape_trans h1 h2 h3 :
  same_shape h1 h2 -> same_shape h2 h3 -> same_shape h1 h3.
Proof. intros H1 H2 r. by rewrite H2, H1. Qed.

Lemma same_shape_alter (f : LayoutTree -> LayoutTree) (r : ref) (h : heap) :
  preserves skel f -> same_shape h (alter f r h).
Proof.
  intros Hf q. rewrite lookup_alter. destruct (decide (r = q)) as [->|]; [|done].
  destruct (h !! q); simpl; [|done]. by rewrite Hf.
Qed.

Lemma same_shape_Some h h' r n' :
  same_shape h h' -> h' !! r = Some n' ->
  exists n, h !! r = Some n /\ skel n = skel n'.
Proof.
  intros Hs Hn. specialize (Hs r). rewrite Hn in Hs. simpl in Hs.
  destruct (h !! r) as [n|]; [|done]. exists n. split; [done|].
  simpl in Hs. congruence.
Qed.

Lemma same_shape_is_Some h h' r :
  same_shape h h' -> is_Some (h' !! r) <-> is_Some (h !! r).
Proof.
  intros Hs. specialize (Hs r). split; intros [n Hn]; rewrite Hn in Hs; simpl in Hs.
  - destruct (h !! r); [eauto|done].
  - destruct (h' !! r); [eauto|done].
Qed.

Lemma same_shape_total h h' r :
  same_shape h h' -> skel (h' !!! r) = skel (h !!! r).
Proof.
  intros Hs. specialize (Hs r). rewrite !lookup_total_alt.
  destruct (h' !! r), (h !! r); simpl in *; try done. congruence.
Qed.

Lemma same_shape_children h h' r :
  same_shape h h' -> children (h' !!! r) = children (h !!! r).
Proof. intros Hs. pose proof (same_shape_total _ _ r Hs) as E. by injection E. Qed.

Lemma same_shape_sibling_index h h' r :
  same_shape h h' -> sibling_index (h' !!! r) = sibling_index (h !!! r).
Proof. intros Hs. pose proof (same_shape_total _ _ r Hs) as E. by injection E. Qed.

Lemma same_shape_parent h h' r :
  same_shape h h' -> _parent (h' !!! r) = _parent (h !!! r).
Proof. intros Hs. pose proof (same_shape_total _ _ r Hs) as E. by injection E. Qed.

Lemma same_shape_tree h h' r :
  same_shape h h' -> _tree (h' !!! r) = _tree (h !!! r).
Proof. intros Hs. pose proof (same_shape_total _ _ r Hs) as E. by injection E. Qed.

Lemma same_shape_level h h' r :
  same_shape h h' -> level (h' !!! r) = level (h !!! r).
Proof. intros Hs. pose proof (same_shape_total _ _ r Hs) as E. by injection E. Qed.

Lemma same_shape_wf h h' : same_shape h h' -> wf h -> wf h'.
Proof.
  intros Hs [Hr Hc Hp Hu Hd]. split.
  - by apply (same_shape_is_Some _ _ _ Hs).
  - intros r n' Hn'. destruct (same_shape_Some _ _ _ _ Hs Hn') as (n & Hn & E).
    injection E as _ Ec _ _ _. rewrite <- Ec. by apply Hc.
  - intros r n' Hn'. destruct (same_shape_Some _ _ _ _ Hs Hn') as (n & Hn & E).
    injection E as _ _ Ei _ Ep. rewrite <- Ei, <- Ep. by apply Hp.
  - intros i p Hip. apply (same_shape_is_Some _ _ _ Hs) in Hip.
    destruct (Hu i p Hip) as (np & Hnp & Hl).
    pose proof (Hs p) as E. rewrite Hnp in E. simpl in E.
    destruct (h' !! p) as [np'|]; [|done]. exists np'. split; [done|].
    injection E as _ Ec _ _ _. by rewrite Ec.
  - intros r n' i Hn' Hi. destruct (same_shape_Some _ _ _ _ Hs Hn') as (n & Hn & E).
    injection E as _ Ec _ _ _. apply (same_shape_is_Some _ _ _ Hs).
    apply (Hd r n i Hn). by rewrite Ec.
Qed.

Lemma same_shape_size h h' : same_shape h h' -> size h' = size h.
Proof.
  intros Hs. rewrite <- !size_dom. f_equal. apply set_eq. intros r.
  rewrite !elem_of_dom. by apply same_shape_is_Some.
Qed.

(** ** The links of a well-formed store *)

Definition arity (h : heap) (r : ref) : nat := length (children (h !!! r)).

Section Links.
Variable h : heap.
Hypothesis Hwf : wf h.

Lemma wf_children_total (r : ref) :
  is_Some (h !! r) ->
  children (h !!! r) = (fun i => i :: r) <$> seq 0 (arity h r).
Proof.
  intros [n Hn]. unfold arity. rewrite (lookup_total_correct _ _ _ Hn).
  by apply (wf_children h Hwf).
Qed.

Lemma children_lookup (r : ref) (i : nat) :
  is_Some (h !! r) ->
  children (h !!! r) !! i = if decide (i < arity h r)%nat then Some (i :: r) else None.
Proof.
  intros Hr. rewrite (wf_children_total r Hr) at 1.
  rewrite list_lookup_fmap. case_decide as Hi.
  - by rewrite lookup_seq_lt.
  - by rewrite lookup_seq_ge by lia.
Qed.

Lemma children_elem (r c : ref) :
  is_Some (h !! r) ->
  c ∈ children (h !!! r) <-> exists i, (i < arity h r)%nat /\ c = i :: r.
Proof.
  intros Hr. rewrite (wf_children_total r Hr) at 1.
  rewrite list_elem_of_fmap. setoid_rewrite elem_of_seq. split.
  - intros (i & -> & Hi). exists i. split; [lia|done].
  - intros (i & Hi & ->). exists i. split; [done|lia].
Qed.

Lemma head_children (r : ref) :
  is_Some (h !! r) ->
  head (children (h !!! r)) = if decide (0 < arity h r)%nat then Some (0%nat :: r) else None.
Proof. intros Hr. rewrite head_lookup. by apply children_lookup. Qed.

Lemma last_children (r : ref) :
  is_Some (h !! r) ->
  last (children (h !!! r)) =
  if decide (0 < arity h r)%nat then Some (pred (arity h r) :: r) else None.
Proof.
  intros Hr. rewrite last_lookup, children_lookup by done. fold (arity h r).
  repeat case_decide; try done; lia.
Qed.

Lemma is_leaf_arity (r : ref) : is_leaf h r = bool_decide (arity h r = 0%nat).
Proof. unfold is_leaf, arity. by destruct (children (h !!! r)). Qed.

Lemma parent_wf (r : ref) : is_Some (h !! r) -> parent h r = parent_of r.
Proof.
  intros [n Hn]. unfold parent. rewrite (lookup_total_correct _ _ _ Hn).
  by apply (wf_parent h Hwf).
Qed.

Lemma sibling_index_wf (r : ref) :
  is_Some (h !! r) -> sibling_index (h !!! r) = hd 0%nat r.
Proof.
  intros [n Hn]. rewrite (lookup_total_correct _ _ _ Hn).
  by apply (wf_parent h Hwf).
Qed.

Lemma wf_up_total (i : nat) (p : ref) :
  is_Some (h !! (i :: p)) -> is_Some (h !! p) /\ (i < arity h p)%nat.
Proof.
  intros Hip. destruct (wf_up h Hwf i p Hip) as (np & Hnp & Hi).
  unfold arity. rewrite (lookup_total_correct _ _ _ Hnp). eauto.
Qed.

Lemma wf_down_total (i : nat) (r : ref) :
  is_Some (h !! r) -> (i < arity h r)%nat -> is_Some (h !! (i :: r)).
Proof.
  intros [n Hn] Hi. apply (wf_down h Hwf r n i Hn).
  unfold arity in Hi. by rewrite (lookup_total_correct _ _ _ Hn) in Hi.
Qed.

Lemma wf_left (i : nat) (p : ref) :
  is_Some (h !! (S i :: p)) -> is_Some (h !! (i :: p)).
Proof.
  intros Hs. destruct (wf_up_total _ _ Hs) as [Hp Hi].
  apply wf_down_total; [done|lia].
Qed.

Lemma wf_lower (i j : nat) (p : ref) :
  is_Some (h !! (j :: p)) -> (i <= j)%nat -> is_Some (h !! (i :: p)).
Proof.
  intros Hs Hle. destruct (wf_up_total _ _ Hs) as [Hp Hi].
  apply wf_down_total; [done|lia].
Qed.

Lemma left_sibling_wf (r : ref) :
  is_Some (h !! r) ->
  left_sibling h r =
  match r with
  | S i :: p => Some (i :: p)
  | _ => None
  end.
Proof.
  intros Hr. unfold left_sibling. rewrite parent_wf, sibling_index_wf by done.
  destruct r as [|[|i] p]; simpl; try done.
  destruct (wf_up_total _ _ Hr) as [Hp Hi].
  rewrite Nat.sub_0_r, children_lookup by done. case_decide; [done|lia].
Qed.

Lemma leftmost_sibling_wf (i : nat) (p : ref) :
  is_Some (h !! (i :: p)) -> leftmost_sibling h (i :: p) = Some (0%nat :: p).
Proof.
  intros Hr. unfold leftmost_sibling. rewrite parent_wf by done. simpl.
  destruct (wf_up_total _ _ Hr) as [Hp Hi].
  rewrite head_children by done. case_decide; [done|lia].
Qed.

Lemma wf_suffix (l q : ref) :
  l `suffix_of` q -> is_Some (h !! q) -> is_Some (h !! l).
Proof.
  intros [k ->]. induction k as [|i k IH]; [done|].
  intros Hs. apply IH. simpl in Hs. by apply wf_up_total in Hs as [? ?].
Qed.

(** An address is shorter than the number of objects. *)
Lemma depth_bound (q : ref) : is_Some (h !! q) -> (length q < size h)%nat.
Proof.
  intros Hq.
  assert (forall k, (k <= length q)%nat ->
            exists X : gset ref, X ⊆ dom h /\ size X = k /\
              forall l, l ∈ X -> (length q - k < length l)%nat) as HX.
  { induction k as [|k IH]; intros Hk.
    - exists ∅. split; [set_solver|]. split; [done|]. set_solver.
    - destruct IH as (X & Hsub & Hsz & Hlen); [lia|].
      set (l := drop k q).
      assert (length l = length q - k)%nat as Hl by (unfold l; apply length_drop).
      exists ({[ l ]} ∪ X). split; [|split].
      + apply union_subseteq. split; [|done].
        apply singleton_subseteq_l, elem_of_dom.
        apply (wf_suffix l q); [|done]. apply suffix_drop.
      + rewrite size_union, size_singleton; [lia|].
        apply disjoint_singleton_l. intros Hin. apply Hlen in Hin. lia.
      + intros l' [->%elem_of_singleton|Hin]%elem_of_union; [lia|].
        apply Hlen in Hin. lia. }
  destruct (HX (length q)) as (X & Hsub & Hsz & Hlen); [done|].
  assert (({[ [] ]} ∪ X) ⊆ dom h) as Hsub'.
  { apply union_subseteq. split; [|done].
    apply singleton_subseteq_l, elem_of_dom, (wf_root h Hwf). }
  apply subseteq_size in Hsub'. rewrite size_dom in Hsub'.
  rewrite size_union, size_singleton in Hsub'; [lia|].
  apply disjoint_singleton_l. intros Hin. apply Hlen in Hin. simpl in Hin. lia.
Qed.
End Links.

(** ** The constructor builds a well-formed store *)

Section InitWf.
Variables (t0 : Tree) (lvl0 lim : Z).

Lemma node_of_Some (q : ref) (n : LayoutTree) :
  node_of t0 lvl0 lim q = Some n ->
  exists t, subtree t0 (rev q) = Some t /\
    (q = [] \/ lvl0 + Z.of_nat (length q) <= lim - 1) /\
    n = mkLayoutTree t
          (if Z.ltb (lvl0 + Z.of_nat (length q)) (lim - 1)
           then (fun i => i :: q) <$> seq 0 (length (tchildren t))
           else [])
          (hd 0%nat q) (lvl0 + Z.of_nat (length q)) (parent_of q) None q 0
          (inject_Z (lvl0 + Z.of_nat (length q))) 0 0 0.
Proof.
  unfold node_of. destruct (subtree t0 (rev q)) as [t|]; [|done].
  case_bool_decide; [|done]. intros [= <-]. by exists t.
Qed.

Lemma node_of_is_Some (q : ref) (t : Tree) :
  subtree t0 (rev q) = Some t ->
  (q = [] \/ lvl0 + Z.of_nat (length q) <= lim - 1) ->
  is_Some (node_of t0 lvl0 lim q).
Proof.
  intros Hs Hc. unfold node_of. rewrite Hs, bool_decide_eq_true_2 by done. eauto.
Qed.

Lemma subtree_snoc (p : list nat) (i : nat) (t : Tree) :
  subtree t0 (p ++ [i]) = Some t <->
  exists tp k, subtree t0 p = Some tp /\ tchildren tp !! i = Some (k, t).
Proof.
  rewrite subtree_app. destruct (subtree t0 p) as [tp|]; simpl.
  - destruct (tchildren tp !! i) as [[k c]|] eqn:E.
    + split; [intros [= ->]; eauto|]. intros (? & ? & [= <-] & ?). congruence.
    + split; [done|]. intros (? & ? & [= <-] & ?). congruence.
  - split; [done|]. by intros (? & ? & ? & ?).
Qed.

Lemma init_wf : wf (LayoutTree_init t0 None 0 lvl0 lim [] ∅).
Proof.
  split.
  - rewrite LayoutTree_init_lookup. by apply (node_of_is_Some [] t0); [|left].
  - intros r n. rewrite LayoutTree_init_lookup.
    intros (t & _ & _ & ->)%node_of_Some. simpl.
    destruct (Z.ltb _ _); [|done]. by rewrite length_fmap, length_seq.
  - intros r n. rewrite LayoutTree_init_lookup.
    intros (t & _ & _ & ->)%node_of_Some. done.
  - intros i p. rewrite !LayoutTree_init_lookup. intros [n Hn].
    apply node_of_Some in Hn as (t & Hs & Hc & ->). simpl in Hs.
    apply subtree_snoc in Hs as (tp & k & Hs & Hk).
    destruct Hc as [?|Hc]; [done|]. simpl length in Hc.
    unfold node_of. rewrite Hs.
    rewrite bool_decide_eq_true_2 by (right; lia). eexists. split; [done|]. simpl.
    destruct (Z.ltb_spec (lvl0 + Z.of_nat (length p)) (lim - 1)); [|lia].
    rewrite length_fmap, length_seq. by apply lookup_lt_Some in Hk.
  - intros r n i. rewrite !LayoutTree_init_lookup.
    intros (t & Hs & Hc & ->)%node_of_Some. simpl.
    destruct (Z.ltb_spec (lvl0 + Z.of_nat (length r)) (lim - 1)) as [Hlt|];
      [|simpl; lia].
    rewrite length_fmap, length_seq. intros Hi.
    destruct (lookup_lt_is_Some_2 _ _ Hi) as [[k c] Hk].
    apply (node_of_is_Some _ c).
    + simpl. apply subtree_snoc. eauto.
    + right. simpl length. lia.
Qed.
End InitWf.

(** ** Axis transform *)

Section Transform.
Context {UID : Type} `{Countable UID}.
Variable radial : gmap UID (Q * Q) -> gmap UID (Q * Q).

Lemma transform_nonempty (positions : gmap UID (Q * Q)) k p :
  positions !! k = Some p -> bool_decide (positions = ∅) = false.
Proof. intros Hk. apply bool_decide_eq_false_2. intros ->. by rewrite lookup_empty in Hk. Qed.

(** C5, as the code has it: TB negates y, BT is the identity, LR sends
    (x, y) to (y, -x) and RL sends it to (-y, -x). *)
Theorem transform_axes_spec (positions : gmap UID (Q * Q)) (k : UID) (px py : Q) :
  positions !! k = Some (px, py) ->
  (exists m qx qy, _transform_axes radial positions "TB" = Ok m /\
      m !! k = Some (qx, qy) /\ qx == px /\ qy == - py)%Q /\
  _transform_axes radial positions "BT" = Ok positions /\
  (exists m qx qy, _transform_axes radial positions "LR" = Ok m /\
      m !! k = Some (qx, qy) /\ qx == py /\ qy == - px)%Q /\
  (exists m qx qy, _transform_axes radial positions "RL" = Ok m /\
      m !! k = Some (qx, qy) /\ qx == - py /\ qy == - px)%Q.
Proof.
  intros Hk. pose proof (transform_nonempty _ _ _ Hk) as Hne.
  unfold _transform_axes. simpl String.eqb. rewrite Hne.
  repeat split.
  - eexists _, _, _. split; [done|]. rewrite lookup_fmap, Hk. simpl.
    split; [done|]. split; [reflexivity|ring].
  - eexists _, _, _. split; [done|]. rewrite lookup_fmap, Hk. simpl.
    split; [done|]. split; ring.
  - eexists _, _, _. split; [done|]. rewrite lookup_fmap, Hk. simpl.
    split; [done|]. split; ring.
Qed.

End Transform.

Lemma transform_axes_spec_witness :
  ({[ 7%nat := (1 # 2, 1)%Q ]} : gmap nat (Q * Q)) !! 7%nat = Some (1 # 2, 1)%Q /\
  _transform_axes (fun m => m) ({[ 7%nat := (1 # 2, 1)%Q ]} : gmap nat (Q * Q)) "BT"
    = Ok {[ 7%nat := (1 # 2, 1)%Q ]}.
Proof.
  split; [apply lookup_singleton_eq|].
  apply (transform_axes_spec (fun m => m) {[ 7%nat := (1 # 2, 1)%Q ]} 7%nat (1 # 2) 1).
  apply lookup_singleton_eq.
Defined.

(** Against C5 as stated: LR does not send (1/2, 1) to (-1, 1/2). *)
Lemma transform_axes_LR_counterexample :
  ~ (forall (positions : gmap nat (Q * Q)) (k : nat) (px py : Q),
       positions !! k = Some (px, py) ->
       exists m qx qy, _transform_axes (fun m => m) positions "LR" = Ok m /\
         m !! k = Some (qx, qy) /\ qx == - py /\ qy == px)%Q.
Proof.
  intros Hall.
  assert (({[ 7%nat := (1 # 2, 1)%Q ]} : gmap nat (Q * Q)) !! 7%nat
          = Some (1 # 2, 1)%Q) as Hlk by apply lookup_singleton_eq.
  destruct (Hall _ _ _ _ Hlk) as (m & qx & qy & Hm & Hk & Hx & Hy).
  unfold _transform_axes in Hm. simpl String.eqb in Hm.
  rewrite (transform_nonempty _ _ _ Hlk) in Hm. injection Hm as <-.
  rewrite lookup_fmap, Hlk in Hk. simpl in Hk. injection Hk as <- <-.
  vm_compute in Hx. discriminate.
Qed.

(** ** Scenarios of the test suite *)

(** The default identifier of an object is its [hash], its identity. *)
Definition id_key (h : heap) (r : ref) : ref := r.

Definition no_radial {UID : Type} `{Countable UID}
    (m : gmap UID (Q * Q)) : gmap UID (Q * Q) := m.

Definition words1 : list string := ["ab"; "ac"; "abcd"; "abce"]%string.
Definition words2 : list string :=
  ["aba"; "abb"; "abc"; "aca"; "acb"; "acc"]%string.

(** The position that a result gives to [k], in lowest terms. *)
Definition position_in {UID : Type} `{Countable UID}
    (r : result (@layout UID _ _)) (k : UID) : option (Q * Q) :=
  match r with
  | Ok out => (fun p : Q * Q => (Qred p.1, Qred p.2)) <$> positions out !! k
  | Raise _ => None
  end.

(** ** Depth limit *)

Section DepthLimit.
Variables (t0 : Tree) (lvl0 lim : Z).

(** C6, as the code has it: besides the root, a source node gets a layout
    object exactly when its level is at most [lim - 1]; an object at level
    [lim - 1] or deeper has no children and is a leaf for the layout, an
    object above that level has one child per child of its source node. *)
Theorem depth_limit_pruning (q : ref) :
  let h := LayoutTree_init t0 None 0 lvl0 lim [] ∅ in
  (is_Some (h !! q) <->
   is_Some (subtree t0 (rev q)) /\
   (q = [] \/ lvl0 + Z.of_nat (length q) <= lim - 1)) /\
  forall n, h !! q = Some n ->
    subtree t0 (rev q) = Some (_tree n) /\
    level n = lvl0 + Z.of_nat (length q) /\
    (lim - 1 <= level n -> children n = [] /\ is_leaf h q = true) /\
    (level n < lim - 1 ->
     children n = (fun i => i :: q) <$> seq 0 (length (tchildren (_tree n)))).
Proof.
  intros h. split.
  - unfold h. rewrite LayoutTree_init_lookup. unfold node_of.
    destruct (subtree t0 (rev q)) as [t|]; [|split; [by intros []|by intros [[] _]]].
    case_bool_decide as Hc; split.
    + by intros _.
    + by intros _.
    + by intros [].
    + by intros [_ ?].
  - intros n Hn. pose proof Hn as Hn'. unfold h in Hn'.
    rewrite LayoutTree_init_lookup in Hn'. unfold node_of in Hn'.
    destruct (subtree t0 (rev q)) as [t|]; [|done].
    case_bool_decide as Hc; [|done]. injection Hn' as <-. simpl.
    repeat split; try done.
    + destruct (Z.ltb_spec (lvl0 + Z.of_nat (length q)) (lim - 1)); [lia|done].
    + unfold is_leaf. rewrite (lookup_total_correct _ _ _ Hn). simpl.
      destruct (Z.ltb_spec (lvl0 + Z.of_nat (length q)) (lim - 1)); [lia|done].
    + intros Hlt.
      destruct (Z.ltb_spec (lvl0 + Z.of_nat (length q)) (lim - 1)); [done|lia].
Qed.
End DepthLimit.

Lemma depth_limit_pruning_witness :
  is_Some (LayoutTree_init (build_tree words1) None 0 0 3 [] ∅ !! [0; 0]%nat).
Proof.
  apply (proj1 (depth_limit_pruning (build_tree words1) 0 3 [0; 0]%nat)).
  split; [vm_compute; eauto|right; simpl; lia].
Defined.

(** Against C6 as stated: with [depth_limit = 3] and the root kept, the node
    "b" of the four-word trie is at level [2 = depth_limit - 1]; it has a
    layout object and a position in the result. *)
Lemma depth_limit_pruning_counterexample :
  (exists n, LayoutTree_init (build_tree words1) None 0 0 3 [] ∅ !! [0; 0]%nat = Some n /\
             3 - 1 <= level n) /\
  position_in (render_tree id_key no_radial (build_tree words1) true 3 "BT")
    [0; 0]%nat = Some (0%Q, 2%Q).
Proof.
  split.
  - rewrite LayoutTree_init_lookup. vm_compute. eexists. split; [reflexivity|].
    discriminate.
  - vm_compute. reflexivity.
Qed.

(** ** The four-word scenario *)

(** C1, the scenario: the trie of ab, ac, abcd, abce, rendered TB without its
    root, has "a" at (1, 0) and its children "b" and "c" at (1/2, -1) and
    (3/2, -1). *)
Theorem render_four_words :
  let r := render_tree id_key no_radial (build_tree words1) false 10 "TB" in
  (exists out, r = Ok out /\
     branches out !! [0]%nat = Some "a"%string /\
     leaves out !! [0; 0]%nat = Some "b"%string /\
     leaves out !! [1; 0]%nat = Some "c"%string) /\
  position_in r [0]%nat = Some (1%Q, 0%Q) /\
  position_in r [0; 0]%nat = Some (1 # 2, (-1)%Q) /\
  position_in r [1; 0]%nat = Some (3 # 2, (-1)%Q).
Proof.
  intros r. split; [|by vm_compute].
  unfold r. vm_compute. eexists. split; [reflexivity|]. by vm_compute.
Qed.

(** Against the general half of C1: in the trie of aba, abb, abc, aca, acb,
    acc the branch "a" has the two children "b" and "c", and they sit at
    1.5 on either side of it. *)
Lemma two_children_offset_counterexample :
  let r := render_tree id_key no_radial (build_tree words2) false 10 "BT" in
  (exists n, LayoutTree_init (build_tree words2) None 0 (-1) 10 [] ∅ !! [0]%nat = Some n /\
             children n = [[0; 0]; [1; 0]]%nat) /\
  position_in r [0]%nat = Some (5 # 2, 0%Q) /\
  position_in r [0; 0]%nat = Some (1%Q, 1%Q) /\
  position_in r [1; 0]%nat = Some (4%Q, 1%Q).
Proof.
  intros r. split; [|by vm_compute].
  rewrite LayoutTree_init_lookup. vm_compute. eexists. split; reflexivity.
Qed.

(** ** Extraction: what the breadth-first loop emits *)

Section Walk.
Context {UID : Type} `{Countable UID}.
Variable key : heap -> ref -> UID.
Variable h : heap.

(** The next queue: the children of the objects of [q], in order. *)
Definition kids (q : list ref) : list ref :=
  q ≫= fun r => children (h !!! r).

(** The objects that the loop visits from the queue [q], in order. *)
Fixpoint emitted (fuel : nat) (q : list ref) : list ref :=
  match q, fuel with
  | [], _ => []
  | _ :: _, O => []
  | _ :: _, S fuel => q ++ emitted fuel (kids q)
  end.

Definition src_leaf (r : ref) : bool := is_leaf_flag (_tree (h !!! r)).

Definition add_branch (m : gmap UID string) (r : ref) : gmap UID string :=
  if src_leaf r then m else <[key h r := value (_tree (h !!! r))]> m.

Definition add_leaf (m : gmap UID string) (r : ref) : gmap UID string :=
  if src_leaf r then <[key h r := value (_tree (h !!! r))]> m else m.

Definition add_position (m : gmap UID (Q * Q)) (r : ref) : gmap UID (Q * Q) :=
  <[key h r := (x (h !!! r), y (h !!! r))]> m.

Definition out_edges (r : ref) : list (UID * UID) :=
  (fun c => (key h r, key h c)) <$> children (h !!! r).

(** The result after the objects of [E] have been visited in order. *)
Definition emit (out : layout) (E : list ref) : layout :=
  mkLayout (fold_left add_branch E (branches out))
           (fold_left add_leaf E (leaves out))
           (edges out ++ (E ≫= out_edges))
           (fold_left add_position E (positions out)).

Lemma emit_nil out : emit out [] = out.
Proof. unfold emit. simpl. rewrite app_nil_r. by destruct out. Qed.

Lemma emit_app out E1 E2 : emit (emit out E1) E2 = emit out (E1 ++ E2).
Proof.
  unfold emit. simpl. rewrite !fold_left_app, bind_app, app_assoc. done.
Qed.

Lemma visit_children (k : UID) (cs : list ref) (out : layout) (nq : list ref) :
  fold_left (fun '(out, next_q) child =>
               (mkLayout (branches out) (leaves out)
                  (edges out ++ [(k, key h child)]) (positions out),
                next_q ++ [child]))
            cs (out, nq)
  = (mkLayout (branches out) (leaves out)
       (edges out ++ ((fun c => (k, key h c)) <$> cs)) (positions out),
     nq ++ cs).
Proof.
  revert out nq. induction cs as [|c cs IH]; intros out nq; simpl.
  - rewrite !app_nil_r. by destruct out.
  - rewrite IH. simpl. by rewrite <- !app_assoc.
Qed.

Lemma visit_spec (out : layout) (nq : list ref) (r : ref) :
  visit key h (out, nq) r = (emit out [r], nq ++ children (h !!! r)).
Proof.
  unfold visit. rewrite visit_children. unfold emit, add_branch, add_leaf, src_leaf.
  simpl. rewrite app_nil_r. by destruct (is_leaf_flag _).
Qed.

Lemma level_spec (q : list ref) (out : layout) (nq : list ref) :
  fold_left (visit key h) q (out, nq) = (emit out q, nq ++ kids q).
Proof.
  revert out nq. induction q as [|r q IH]; intros out nq; cbn [fold_left].
  - by rewrite emit_nil, app_nil_r.
  - rewrite visit_spec, IH, emit_app. simpl. unfold kids. simpl.
    by rewrite <- app_assoc.
Qed.

(** A result of the loop is the fold over the emitted objects, and every
    child of an emitted object is emitted as well. *)
Lemma loop_spec (fuel : nat) (q : list ref) (out out' : layout) :
  extract_loop key fuel h q out = Ok out' ->
  out' = emit out (emitted fuel q) /\
  (forall r, r ∈ q -> r ∈ emitted fuel q) /\
  (forall r c, r ∈ emitted fuel q -> c ∈ children (h !!! r) ->
               c ∈ emitted fuel q).
Proof.
  revert q out out'. induction fuel as [|fuel IH]; intros q out out' Hr.
  - destruct q; [|done]. injection Hr as <-. simpl.
    rewrite emit_nil. repeat split; [done|]. by intros r c ?%elem_of_nil.
  - destruct q as [|r0 q]; cbn [extract_loop] in Hr.
    + injection Hr as <-. simpl. rewrite emit_nil.
      repeat split; [done|]. by intros r c ?%elem_of_nil.
    + rewrite level_spec, app_nil_l in Hr.
      destruct (IH _ _ _ Hr) as (-> & Hq & Hc). cbn [emitted].
      split; [by rewrite emit_app|]. split.
      * intros r Hr'. apply elem_of_app. by left.
      * intros r c [Hr'|Hr']%elem_of_app Hcr; apply elem_of_app; right.
        -- apply Hq. unfold kids. apply list_elem_of_bind. eauto.
        -- by apply (Hc r).
Qed.
End Walk.

Section WalkDomains.
Context {UID : Type} `{Countable UID}.
Variable key : heap -> ref -> UID.
Variable h : heap.

Lemma dom_add_position (E : list ref) (m : gmap UID (Q * Q)) :
  dom (fold_left (add_position key h) E m) = dom m ∪ list_to_set (key h <$> E).
Proof.
  revert m. induction E as [|r E IH]; intros m; simpl; [set_solver|].
  rewrite IH. unfold add_position. rewrite dom_insert_L. set_solver.
Qed.

Lemma dom_add_leaf (E : list ref) (m : gmap UID string) :
  dom (fold_left (add_leaf key h) E m)
  = dom m ∪ list_to_set (key h <$> filter (fun r => src_leaf h r = true) E).
Proof.
  revert m. induction E as [|r E IH]; intros m; simpl; [set_solver|].
  rewrite IH. unfold add_leaf. destruct (src_leaf h r) eqn:Hr.
  - rewrite filter_cons_True by done. rewrite dom_insert_L. set_solver.
  - rewrite filter_cons_False by congruence. done.
Qed.

Lemma dom_add_branch (E : list ref) (m : gmap UID string) :
  dom (fold_left (add_branch key h) E m)
  = dom m ∪ list_to_set (key h <$> filter (fun r => src_leaf h r = false) E).
Proof.
  revert m. induction E as [|r E IH]; intros m; simpl; [set_solver|].
  rewrite IH. unfold add_branch. destruct (src_leaf h r) eqn:Hr.
  - rewrite filter_cons_False by congruence. done.
  - rewrite filter_cons_True by done. rewrite dom_insert_L. set_solver.
Qed.

Lemma length_filter_src_leaf (E : list ref) :
  (length (filter (fun r => src_leaf h r = false) E) +
   length (filter (fun r => src_leaf h r = true) E) = length E)%nat.
Proof.
  induction E as [|r E IH]; [done|]. destruct (src_leaf h r) eqn:Hr.
  - rewrite filter_cons_False, filter_cons_True by congruence. simpl. lia.
  - rewrite filter_cons_True, filter_cons_False by congruence. simpl. lia.
Qed.

(** Distinct emitted objects never share a key. *)
Definition key_injective (E : list ref) : Prop :=
  forall r1 r2, r1 ∈ E -> r2 ∈ E -> key h r1 = key h r2 -> r1 = r2.

Lemma NoDup_keys (P : ref -> Prop) `{forall r, Decision (P r)} (E : list ref) :
  NoDup E -> key_injective E -> NoDup (key h <$> filter P E).
Proof.
  intros Hnd Hinj. apply NoDup_fmap_2_strong; [|by apply NoDup_filter].
  intros r1 r2 [_ H1]%list_elem_of_filter [_ H2]%list_elem_of_filter. by apply Hinj.
Qed.

Lemma size_keys (P : ref -> Prop) `{forall r, Decision (P r)} (E : list ref) :
  NoDup E -> key_injective E ->
  size (list_to_set (C := gset UID) (key h <$> filter P E)) = length (filter P E).
Proof.
  intros Hnd Hinj. rewrite size_list_to_set by by apply NoDup_keys.
  by rewrite length_fmap.
Qed.

Lemma size_list_to_set_le (l : list UID) :
  (size (list_to_set (C := gset UID) l) <= length l)%nat.
Proof.
  induction l as [|a l IH].
  - by rewrite list_to_set_nil, size_empty.
  - rewrite list_to_set_cons, size_union_alt, size_singleton. cbn [length].
    assert (size (list_to_set l ∖ {[a]} : gset UID)
            <= size (list_to_set (C := gset UID) l))%nat
      by (apply subseteq_size; set_solver).
    lia.
Qed.

(** With a collision the map of keys is strictly smaller than the list. *)
Lemma size_keys_collision (E : list ref) (r1 r2 : ref) :
  r1 ∈ E -> r2 ∈ E -> r1 ≠ r2 -> key h r1 = key h r2 ->
  (size (list_to_set (C := gset UID) (key h <$> E)) < length E)%nat.
Proof.
  revert r1 r2. induction E as [|r E IH]; intros r1 r2 H1 H2 Hne Hk.
  - by apply elem_of_nil in H1.
  - assert (forall a, a ∈ E -> key h a = key h r ->
              (size (list_to_set (C := gset UID) (key h <$> r :: E))
               < length (r :: E))%nat) as Hdup.
    { intros a Ha Hka. rewrite fmap_cons, list_to_set_cons. cbn [length].
      replace ({[key h r]} ∪ list_to_set (key h <$> E) : gset UID)
        with (list_to_set (C := gset UID) (key h <$> E)).
      - pose proof (size_list_to_set_le (key h <$> E)) as Hle.
        rewrite length_fmap in Hle. lia.
      - apply set_eq. intros k. rewrite elem_of_union, elem_of_singleton.
        split; [by right|]. intros [->|?]; [|done].
        apply elem_of_list_to_set, list_elem_of_fmap. eauto. }
    apply elem_of_cons in H1 as [->|H1], H2 as [->|H2].
    + done.
    + by apply (Hdup r2).
    + by apply (Hdup r1).
    + specialize (IH r1 r2 H1 H2 Hne Hk).
      rewrite fmap_cons, list_to_set_cons, size_union_alt, size_singleton.
      cbn [length].
      assert (size (list_to_set (key h <$> E) ∖ {[key h r]} : gset UID)
              <= size (list_to_set (C := gset UID) (key h <$> E)))%nat
        by (apply subseteq_size; set_solver).
      lia.
Qed.
End WalkDomains.

(** A queue of the loop: distinct objects of the store, all at depth [d]. *)
Definition level_queue (h : heap) (q : list ref) (d : nat) : Prop :=
  NoDup q /\ forall r, r ∈ q -> is_Some (h !! r) /\ length r = d.

Section WalkTotal.
Context {UID : Type} `{Countable UID}.
Variable key : heap -> ref -> UID.
Variable h : heap.
Hypothesis Hwf : wf h.

Lemma kids_elem (q : list ref) (d : nat) (c : ref) :
  level_queue h q d ->
  c ∈ kids h q <-> exists i r, c = i :: r /\ r ∈ q /\ is_Some (h !! c).
Proof.
  intros [_ Hq]. unfold kids. rewrite list_elem_of_bind. split.
  - intros (r & Hc & Hr). destruct (Hq r Hr) as [Hd _].
    apply (children_elem h Hwf) in Hc as (i & Hi & ->); [|done].
    exists i, r. repeat split; try done. by apply wf_down_total.
  - intros (i & r & -> & Hr & Hc). exists r. split; [|done].
    destruct (Hq r Hr) as [Hd _]. apply (children_elem h Hwf); [done|].
    exists i. split; [|done]. by apply (wf_up_total h Hwf) in Hc as [_ ?].
Qed.

Lemma kids_level (q : list ref) (d : nat) :
  level_queue h q d -> level_queue h (kids h q) (S d).
Proof.
  intros Hq. split.
  - destruct Hq as [Hnd Hq]. unfold kids.
    induction q as [|r q IH]; [constructor|].
    simpl. apply NoDup_cons in Hnd as [Hr Hnd].
    destruct (Hq r) as [Hd _]; [by left|].
    apply NoDup_app. repeat split.
    + rewrite (wf_children_total h Hwf r Hd).
      apply NoDup_fmap_2; [by intros ?? [=]|apply NoDup_seq].
    + intros c Hc Hc'. apply (children_elem h Hwf) in Hc as (i & _ & ->); [|done].
      apply list_elem_of_bind in Hc' as (r' & Hc' & Hr').
      apply (children_elem h Hwf) in Hc' as (j & _ & [= _ ->]); [done|].
      apply Hq. by right.
    + apply IH; [done|]. intros r' Hr'. apply Hq. by right.
  - intros c (i & r & -> & Hr & Hc)%(kids_elem q d); [|done].
    split; [done|]. simpl. f_equal. by apply Hq.
Qed.

(** The loop ends: one unit of fuel per level is enough. *)
Lemma loop_total (fuel : nat) (q : list ref) (d : nat) (out : layout) :
  level_queue h q d -> (size h < fuel + d)%nat ->
  exists out', extract_loop key fuel h q out = Ok out'.
Proof.
  revert q d out. induction fuel as [|fuel IH]; intros q d out Hq Hf.
  - destruct q as [|r q]; [by eexists|].
    destruct (proj2 Hq r) as [Hd Hl]; [by left|].
    pose proof (depth_bound h Hwf r Hd). lia.
  - destruct q as [|r q]; [by eexists|]. cbn [extract_loop].
    rewrite level_spec, app_nil_l.
    apply (IH _ (S d)); [by apply kids_level|lia].
Qed.

Lemma emitted_level (fuel : nat) (q : list ref) (d : nat) :
  level_queue h q d ->
  NoDup (emitted h fuel q) /\
  forall r, r ∈ emitted h fuel q -> (d <= length r)%nat.
Proof.
  revert q d. induction fuel as [|fuel IH]; intros q d Hq.
  - destruct q; simpl; split; try constructor; by intros r ?%elem_of_nil.
  - destruct q as [|r0 q]; [split; [constructor|by intros r ?%elem_of_nil]|].
    cbn [emitted]. destruct (IH _ _ (kids_level _ _ Hq)) as [Hnd Hlen].
    split.
    + apply NoDup_app. repeat split; [apply Hq| |done].
      intros r Hr Hr'. apply Hlen in Hr'. apply Hq in Hr as [_ ?]. lia.
    + intros r [Hr|Hr]%elem_of_app.
      * apply Hq in Hr as [_ ?]. lia.
      * apply Hlen in Hr. lia.
Qed.

(** The emitted objects are the objects of the store below the queue. *)
Lemma emitted_reach (fuel : nat) (q : list ref) (d : nat) (r : ref) :
  level_queue h q d -> (size h < fuel + d)%nat ->
  r ∈ emitted h fuel q <->
  is_Some (h !! r) /\ exists r0, r0 ∈ q /\ r0 `suffix_of` r.
Proof.
  revert q d. induction fuel as [|fuel IH]; intros q d Hq Hf.
  - destruct q as [|r0 q].
    + simpl. split; [by intros ?%elem_of_nil|].
      by intros (_ & r0 & ?%elem_of_nil & _).
    + destruct (proj2 Hq r0) as [Hd Hl]; [by left|].
      pose proof (depth_bound h Hwf r0 Hd). lia.
  - destruct q as [|r0 q].
    + simpl. split; [by intros ?%elem_of_nil|].
      by intros (_ & r1 & ?%elem_of_nil & _).
    + cbn [emitted]. rewrite elem_of_app.
      rewrite (IH _ (S d)); [|by apply kids_level|lia].
      split.
      * intros [Hr|(Hd & c & Hc & Hs)].
        -- split; [by apply Hq|]. by exists r.
        -- split; [done|].
           apply (kids_elem _ d) in Hc as (i & r1 & -> & Hr1 & _); [|done].
           exists r1. split; [done|]. by apply region_step in Hs as [? ?].
      * intros (Hd & r1 & Hr1 & Hs).
        destruct (decide (r = r1)) as [->|Hne]; [by left|right].
        split; [done|]. destruct (region_child _ _ Hs Hne) as [j Hj].
        exists (j :: r1). split; [|done].
        apply (kids_elem _ d); [done|]. exists j, r1.
        repeat split; [done|]. by apply (wf_suffix h Hwf _ r).
Qed.
End WalkTotal.

Section ExtractFacts.
Context {UID : Type} `{Countable UID}.
Variable key : heap -> ref -> UID.
Variable h : heap.
Hypothesis Hwf : wf h.

(** The objects that [extract_tree_layout] visits from [q0]. *)
Definition visited (q0 : list ref) : list ref := emitted h (S (size h)) q0.

Lemma extract_result (q0 : list ref) (d : nat) :
  level_queue h q0 d ->
  exists out,
    extract_tree_layout key h q0 = Ok out /\
    out = emit key h (mkLayout ∅ ∅ [] ∅) (visited q0) /\
    NoDup (visited q0) /\
    (forall r c, r ∈ visited q0 -> c ∈ children (h !!! r) -> c ∈ visited q0).
Proof.
  intros Hq. unfold extract_tree_layout.
  destruct (loop_total key h Hwf (S (size h)) q0 d (mkLayout ∅ ∅ [] ∅) Hq)
    as [out Hout]; [lia|].
  exists out. split; [done|].
  destruct (loop_spec key h _ _ _ _ Hout) as (-> & _ & Hc).
  repeat split; [|done]. by apply (emitted_level h Hwf _ _ d).
Qed.

Lemma visited_reach (q0 : list ref) (d : nat) (r : ref) :
  level_queue h q0 d ->
  r ∈ visited q0 <-> is_Some (h !! r) /\ exists r0, r0 ∈ q0 /\ r0 `suffix_of` r.
Proof. intros Hq. apply (emitted_reach h Hwf _ _ d); [done|lia]. Qed.

Lemma edge_elem (E : list ref) (a b : UID) :
  (a, b) ∈ E ≫= out_edges key h <->
  exists r c, r ∈ E /\ c ∈ children (h !!! r) /\ a = key h r /\ b = key h c.
Proof.
  rewrite list_elem_of_bind. unfold out_edges. setoid_rewrite list_elem_of_fmap.
  split.
  - intros (r & (c & [= -> ->] & Hc) & Hr). eauto 10.
  - intros (r & c & Hr & Hc & -> & ->). eauto 10.
Qed.

(** C7: with a key that is injective on the visited objects, the keys of
    [branches] and [leaves] are disjoint, together they are the keys of the
    visited objects, one entry per object, and both ends of every edge are
    keys of [positions]. The visited objects are the objects of the store
    below the start queue, each listed once. *)
Theorem extract_partition (q0 : list ref) (d : nat) :
  level_queue h q0 d ->
  key_injective key h (visited q0) ->
  exists out,
    extract_tree_layout key h q0 = Ok out /\
    dom (branches out) ## dom (leaves out) /\
    dom (branches out) ∪ dom (leaves out) = list_to_set (key h <$> visited q0) /\
    NoDup (key h <$> visited q0) /\
    (size (dom (branches out)) + size (dom (leaves out)) = length (visited q0))%nat /\
    dom (positions out) = list_to_set (key h <$> visited q0) /\
    (forall a b, (a, b) ∈ edges out ->
                 a ∈ dom (positions out) /\ b ∈ dom (positions out)) /\
    (forall r, r ∈ visited q0 <->
               is_Some (h !! r) /\ exists r0, r0 ∈ q0 /\ r0 `suffix_of` r).
Proof.
  intros Hq Hinj. destruct (extract_result q0 d Hq) as (out & Hout & -> & Hnd & Hc).
  exists (emit key h (mkLayout ∅ ∅ [] ∅) (visited q0)). split; [done|].
  unfold emit. cbn [branches leaves edges positions].
  rewrite dom_add_branch, dom_add_leaf, dom_add_position, !dom_empty_L.
  rewrite !union_empty_l_L.
  split; [|split; [|split; [|split; [|split; [done|split]]]]].
  - apply elem_of_disjoint.
    intros k (r1 & -> & H1)%elem_of_list_to_set%list_elem_of_fmap
             (r2 & Hk & H2)%elem_of_list_to_set%list_elem_of_fmap.
    apply list_elem_of_filter in H1 as [Hf1 H1], H2 as [Hf2 H2].
    apply Hinj in Hk; [|done..]. congruence.
  - apply set_eq. intros k.
    rewrite elem_of_union, !elem_of_list_to_set, !list_elem_of_fmap.
    setoid_rewrite list_elem_of_filter. split.
    + intros [(r & -> & _ & Hr)|(r & -> & _ & Hr)]; eauto.
    + intros (r & -> & Hr). destruct (src_leaf h r) eqn:Hf; [right|left]; eauto.
  - apply NoDup_fmap_2_strong; [|done]. intros r1 r2 ???. by apply Hinj.
  - rewrite !(size_keys key h) by done. apply length_filter_src_leaf.
  - rewrite app_nil_l. intros a b (r & c & Hr & Hcr & -> & ->)%edge_elem.
    split; apply elem_of_list_to_set, list_elem_of_fmap; eauto.
  - intros r. by apply (visited_reach q0 d).
Qed.

Lemma lookup_add_leaf (E : list ref) (m : gmap UID string) (r : ref) :
  key_injective key h E -> r ∈ E -> src_leaf h r = true ->
  fold_left (add_leaf key h) E m !! key h r = Some (value (_tree (h !!! r))).
Proof.
  induction E as [|r' E IH] using rev_ind; intros Hinj Hr Hf.
  - by apply elem_of_nil in Hr.
  - rewrite fold_left_app. cbn [fold_left]. unfold add_leaf at 1.
    destruct (decide (r = r')) as [<-|Hne].
    + by rewrite Hf, lookup_insert_eq.
    + assert (r ∈ E) as HrE.
      { apply elem_of_app in Hr as [?|Hr]; [done|]. by apply list_elem_of_singleton in Hr. }
      assert ((fold_left (add_leaf key h) E m !! key h r)
              = Some (value (_tree (h !!! r)))) as IH'.
      { apply IH; [|done..]. intros a b Ha Hb. apply Hinj; apply elem_of_app; by left. }
      destruct (src_leaf h r'); [|done].
      rewrite lookup_insert_ne; [done|]. intros Hk. apply Hne. symmetry.
      apply Hinj; [apply elem_of_app; right; by left|done|done].
Qed.

Lemma lookup_add_branch (E : list ref) (m : gmap UID string) (r : ref) :
  key_injective key h E -> r ∈ E -> src_leaf h r = false ->
  fold_left (add_branch key h) E m !! key h r = Some (value (_tree (h !!! r))).
Proof.
  induction E as [|r' E IH] using rev_ind; intros Hinj Hr Hf.
  - by apply elem_of_nil in Hr.
  - rewrite fold_left_app. cbn [fold_left]. unfold add_branch at 1.
    destruct (decide (r = r')) as [<-|Hne].
    + by rewrite Hf, lookup_insert_eq.
    + assert (r ∈ E) as HrE.
      { apply elem_of_app in Hr as [?|Hr]; [done|]. by apply list_elem_of_singleton in Hr. }
      assert ((fold_left (add_branch key h) E m !! key h r)
              = Some (value (_tree (h !!! r)))) as IH'.
      { apply IH; [|done..]. intros a b Ha Hb. apply Hinj; apply elem_of_app; by left. }
      destruct (src_leaf h r'); [done|].
      rewrite lookup_insert_ne; [done|]. intros Hk. apply Hne. symmetry.
      apply Hinj; [apply elem_of_app; right; by left|done|done].
Qed.

(** Every visited object goes to [leaves] or to [branches] by the flag of
    its source node alone, and gets one edge to each of its children. *)
Lemma extract_classifies (q0 : list ref) (d : nat) :
  level_queue h q0 d ->
  key_injective key h (visited q0) ->
  exists out,
    extract_tree_layout key h q0 = Ok out /\
    forall r, r ∈ visited q0 ->
      (src_leaf h r = true ->
       leaves out !! key h r = Some (value (_tree (h !!! r))) /\
       branches out !! key h r = None) /\
      (src_leaf h r = false ->
       branches out !! key h r = Some (value (_tree (h !!! r))) /\
       leaves out !! key h r = None) /\
      (forall c, c ∈ children (h !!! r) -> (key h r, key h c) ∈ edges out).
Proof.
  intros Hq Hinj. destruct (extract_result q0 d Hq) as (out & Hout & -> & Hnd & Hc).
  eexists. split; [done|]. intros r Hr. unfold emit. cbn [branches leaves edges].
  split; [|split].
  - intros Hf. split; [by apply lookup_add_leaf|].
    apply not_elem_of_dom. rewrite dom_add_branch, dom_empty_L, union_empty_l_L.
    intros (r' & Hk & [Hf' Hr']%list_elem_of_filter)%elem_of_list_to_set%list_elem_of_fmap.
    apply Hinj in Hk; [|done..]. congruence.
  - intros Hf. split; [by apply lookup_add_branch|].
    apply not_elem_of_dom. rewrite dom_add_leaf, dom_empty_L, union_empty_l_L.
    intros (r' & Hk & [Hf' Hr']%list_elem_of_filter)%elem_of_list_to_set%list_elem_of_fmap.
    apply Hinj in Hk; [|done..]. congruence.
  - intros c Hcr. rewrite app_nil_l. apply edge_elem. eauto 10.
Qed.

(** C8, as the code has it: when two distinct visited objects share a key
    the extraction still returns; [positions] has one entry per key, hence
    fewer entries than visited objects. *)
Theorem extract_collision_merges (q0 : list ref) (d : nat) (r1 r2 : ref) :
  level_queue h q0 d ->
  r1 ∈ visited q0 -> r2 ∈ visited q0 -> r1 ≠ r2 -> key h r1 = key h r2 ->
  exists out,
    extract_tree_layout key h q0 = Ok out /\
    dom (positions out) = list_to_set (key h <$> visited q0) /\
    (size (positions out) < length (visited q0))%nat.
Proof.
  intros Hq H1 H2 Hne Hk.
  destruct (extract_result q0 d Hq) as (out & Hout & -> & Hnd & Hc).
  eexists. split; [done|]. unfold emit. cbn [positions].
  assert (dom (fold_left (add_position key h) (visited q0) ∅)
          = list_to_set (key h <$> visited q0)) as Hdom
    by by rewrite dom_add_position, dom_empty_L, union_empty_l_L.
  split; [done|].
  rewrite <- size_dom, Hdom. by apply (size_keys_collision key h _ r1 r2).
Qed.
End ExtractFacts.

(** The layout tree of the four-word trie, before the walks. *)
Definition store1 : heap := LayoutTree_init (build_tree words1) None 0 0 10 [] ∅.

Lemma store1_queue : level_queue store1 [[]] 0.
Proof.
  split; [apply NoDup_singleton|].
  intros r ->%list_elem_of_singleton. split; [|done].
  apply (wf_root _ (init_wf _ _ _)).
Qed.

Lemma extract_partition_witness :
  exists out,
    extract_tree_layout id_key store1 [[]] = Ok out /\
    dom (branches out) ## dom (leaves out).
Proof.
  destruct (extract_partition id_key store1 (init_wf _ _ _) [[]] 0 store1_queue)
    as (out & Hout & Hdisj & _).
  - intros r1 r2 _ _ E. exact E.
  - exists out. split; [exact Hout|exact Hdisj].
Defined.

Lemma extract_collision_merges_witness :
  exists out,
    extract_tree_layout (fun _ _ => tt) store1 [[]] = Ok out /\
    (size (positions out) < length (visited store1 [[]]))%nat.
Proof.
  destruct (extract_collision_merges (fun _ _ => tt) store1 (init_wf _ _ _)
              [[]] 0 [] [0%nat] store1_queue) as (out & Hout & _ & Hsz).
  - apply (visited_reach store1 (init_wf _ _ _) [[]] 0 _ store1_queue).
    split; [apply (wf_root _ (init_wf _ _ _))|]. exists []. split; [by left|done].
  - apply (visited_reach store1 (init_wf _ _ _) [[]] 0 _ store1_queue).
    split.
    + unfold store1. rewrite LayoutTree_init_lookup. vm_compute. eauto.
    + exists []. split; [by left|apply suffix_nil].
  - discriminate.
  - reflexivity.
  - exists out. split; [exact Hout|exact Hsz].
Defined.

(** Against C8 as stated: with a constant identifier the render of the
    four-word trie returns, and all seven nodes share one position entry. *)
Lemma extract_collision_counterexample :
  exists out,
    render_tree (fun _ _ => tt) no_radial (build_tree words1) false 10 "BT" = Ok out /\
    size (positions out) = 1%nat /\ length (edges out) = 5%nat.
Proof. vm_compute. eexists. split; [reflexivity|]. split; reflexivity. Qed.

(** C10: extraction puts a visited object in [leaves] or in [branches] by
    the flag of its source node alone, whatever children its layout object
    has, and emits an edge to each of these children; in the render of the
    trie of ab, ac, abcd, abce the word node "b" is in [leaves] and is the
    parent end of an edge. *)
Theorem extract_by_source_flag :
  (forall (key : heap -> ref -> ref) (h : heap) (q0 : list ref) (d : nat),
     wf h -> level_queue h q0 d -> key_injective key h (visited h q0) ->
     exists out,
       extract_tree_layout key h q0 = Ok out /\
       forall r, r ∈ visited h q0 ->
         (src_leaf h r = true ->
          leaves out !! key h r = Some (value (_tree (h !!! r))) /\
          branches out !! key h r = None) /\
         (src_leaf h r = false ->
          branches out !! key h r = Some (value (_tree (h !!! r))) /\
          leaves out !! key h r = None) /\
         (forall c, c ∈ children (h !!! r) -> (key h r, key h c) ∈ edges out)) /\
  (exists out,
     render_tree id_key no_radial (build_tree words1) false 10 "TB" = Ok out /\
     leaves out !! [0; 0]%nat = Some "b"%string /\
     branches out !! [0; 0]%nat = None /\
     ([0; 0]%nat, [0; 0; 0]%nat) ∈ edges out).
Proof.
  split.
  - intros key h q0 d Hwf Hq Hinj. by apply (extract_classifies key h Hwf q0 d).
  - vm_compute. eexists. split; [reflexivity|]. split; [reflexivity|].
    split; [reflexivity|]. do 2 right. left.
Qed.

Lemma extract_by_source_flag_witness :
  exists out,
    extract_tree_layout id_key store1 [[]] = Ok out /\
    (src_leaf store1 [0; 0]%nat = true ->
     leaves out !! [0; 0]%nat = Some "b"%string).
Proof.
  destruct (proj1 extract_by_source_flag id_key store1 [[]] 0%nat (init_wf _ _ _)
              store1_queue) as (out & Hout & Hall).
  - intros r1 r2 _ _ E. exact E.
  - exists out. split; [exact Hout|]. intros Hf.
    destruct (Hall [0; 0]%nat) as ((Hl & _) & _).
    + apply (visited_reach store1 (init_wf _ _ _) [[]] 0 _ store1_queue).
      split.
      * unfold store1. rewrite LayoutTree_init_lookup. vm_compute. eauto.
      * exists []. split; [by left|apply suffix_nil].
    + exact Hf.
    + unfold id_key in Hl. rewrite Hl. unfold store1.
      rewrite lookup_total_alt, LayoutTree_init_lookup. reflexivity.
Defined.

(** * Further properties of the code *)

(** ** The trie of [build_tree] ([utils.py]) *)

(** [cs.get(c)] on the insertion-ordered dict of children. *)
Fixpoint child_get (c : ascii) (cs : list (ascii * Tree)) : option Tree :=
  match cs with
  | [] => None
  | (k, sub) :: rest => if Ascii.eqb k c then Some sub else child_get c rest
  end.

(** The node reached from [t] by reading [w], one child per character. *)
Fixpoint find (w : string) (t : Tree) : option Tree :=
  match w with
  | EmptyString => Some t
  | String c w' =>
      match child_get c (tchildren t) with
      | Some sub => find w' sub
      | None => None
      end
  end.

(** [w] ends on a node flagged as the end of a word. *)
Definition accepts (t : Tree) (w : string) : bool :=
  match find w t with
  | Some n => is_leaf_flag n
  | None => false
  end.

(** [cs.setdefault(c, Tree(c))] followed by the walk [f] from that child. *)
Fixpoint setdefault_then (c : ascii) (f : Tree -> Tree)
    (cs : list (ascii * Tree)) : list (ascii * Tree) :=
  match cs with
  | [] => [(c, f (Tree_new (String c EmptyString)))]
  | (k, sub) :: rest =>
      if Ascii.eqb k c then (k, f sub) :: rest
      else (k, sub) :: setdefault_then c f rest
  end.

Lemma insert_word_cons (c : ascii) (w : string) (v : string)
    (cs : list (ascii * Tree)) (lf : bool) :
  insert_word (String c w) (mkTree v cs lf)
  = mkTree v (setdefault_then c (insert_word w) cs) lf.
Proof.
  cbn [insert_word]. f_equal.
  induction cs as [|[k sub] rest IH]; [done|].
  cbn [setdefault_then]. destruct (Ascii.eqb k c); [done|]. by rewrite <- IH.
Qed.

Lemma child_get_setdefault (c c' : ascii) (f : Tree -> Tree)
    (cs : list (ascii * Tree)) :
  child_get c' (setdefault_then c f cs) =
  if Ascii.eqb c c'
  then Some (f (default (Tree_new (String c EmptyString)) (child_get c cs)))
  else child_get c' cs.
Proof.
  induction cs as [|[k sub] rest IH]; cbn [setdefault_then child_get].
  - by destruct (Ascii.eqb c c').
  - destruct (Ascii.eqb_spec k c) as [->|Hkc]; cbn [child_get].
    + by destruct (Ascii.eqb c c').
    + rewrite IH. destruct (Ascii.eqb_spec c c') as [<-|Hcc'].
      * by rewrite (proj2 (Ascii.eqb_neq k c) Hkc).
      * done.
Qed.

Lemma accepts_new (v : string) (w : string) : accepts (Tree_new v) w = false.
Proof. by destruct w. Qed.

(** Reading after one insertion. *)
Lemma accepts_insert (w w' : string) (t : Tree) :
  accepts (insert_word w t) w' = String.eqb w w' || accepts t w'.
Proof.
  revert w' t. induction w as [|c w IH]; intros w' t.
  - destruct t as [v cs lf]. by destruct w'.
  - destruct t as [v cs lf]. rewrite insert_word_cons.
    destruct w' as [|c' w']; [done|].
    unfold accepts. cbn [find tchildren String.eqb].
    rewrite child_get_setdefault.
    destruct (Ascii.eqb_spec c c') as [<-|Hne]; [|done]. cbn [orb].
    specialize (IH w'). unfold accepts in IH. rewrite IH.
    destruct (child_get c cs) as [sub|]; cbn [default]; [done|].
    pose proof (accepts_new (String c EmptyString) w') as Hn.
    unfold accepts in Hn. by rewrite Hn.
Qed.

Lemma accepts_fold (ws : list string) (t : Tree) (w : string) :
  accepts (fold_left (fun root w => insert_word w root) ws t) w
  = existsb (fun w0 => String.eqb w0 w) ws || accepts t w.
Proof.
  revert t. induction ws as [|w0 ws IH]; intros t; [done|].
  cbn [fold_left existsb]. rewrite IH, accepts_insert.
  by destruct (String.eqb w0 w), (existsb _ ws).
Qed.

(** The trie accepts exactly the words it was built from; the empty word
    flags the root. *)
Theorem build_tree_accepts (words : list string) (w : string) :
  accepts (build_tree words) w = true <-> w ∈ words.
Proof.
  unfold build_tree. rewrite accepts_fold, accepts_new, orb_false_r.
  rewrite existsb_exists. split.
  - intros (w0 & Hin & ->%String.eqb_eq). by apply list_elem_of_In.
  - intros Hin. exists w. split; [by apply list_elem_of_In|apply String.eqb_refl].
Qed.

Lemma setdefault_fixed (c : ascii) (f : Tree -> Tree) (cs : list (ascii * Tree))
    (sub : Tree) :
  child_get c cs = Some sub -> f sub = sub -> setdefault_then c f cs = cs.
Proof.
  induction cs as [|[k s] rest IH]; [done|]. cbn [child_get setdefault_then].
  destruct (Ascii.eqb k c).
  - intros [= ->] ->. done.
  - intros Hg Hf. by rewrite IH.
Qed.

Lemma insert_word_accepted (w : string) (t : Tree) :
  accepts t w = true -> insert_word w t = t.
Proof.
  revert t. induction w as [|c w IH]; intros [v cs lf].
  - unfold accepts. cbn. by intros ->.
  - rewrite insert_word_cons. unfold accepts. cbn [find tchildren].
    destruct (child_get c cs) as [sub|] eqn:Hc; [|done]. intros Ha.
    f_equal. apply (setdefault_fixed _ _ _ sub); [done|]. by apply IH.
Qed.

(** A word that is already there changes nothing: repeated words are
    ignored. *)
Theorem build_tree_repeated_word (words : list string) (w : string) :
  w ∈ words -> build_tree (words ++ [w]) = build_tree words.
Proof.
  intros Hin. unfold build_tree. rewrite fold_left_app. cbn [fold_left].
  apply insert_word_accepted. by apply build_tree_accepts.
Qed.

Lemma build_tree_repeated_word_witness :
  build_tree (words1 ++ ["ac"%string]) = build_tree words1.
Proof.
  apply (build_tree_repeated_word words1 "ac"). unfold words1. right. left.
Defined.

(** The shape that [build_tree] keeps: a child carries its key as value,
    the keys of a node are distinct, and a node without children ends a
    word. *)
Inductive trie_ok : Tree -> Prop :=
  trie_ok_node (v : string) (cs : list (ascii * Tree)) (lf : bool) :
    NoDup cs.*1 ->
    Forall (fun kc => value kc.2 = String kc.1 EmptyString /\
                      (tchildren kc.2 = [] -> is_leaf_flag kc.2 = true) /\
                      trie_ok kc.2) cs ->
    trie_ok (mkTree v cs lf).

Definition child_ok (k : ascii) (sub : Tree) : Prop :=
  value sub = String k EmptyString /\
  (tchildren sub = [] -> is_leaf_flag sub = true) /\ trie_ok sub.

Lemma child_get_None (c : ascii) (cs : list (ascii * Tree)) :
  child_get c cs = None <-> c ∉ cs.*1.
Proof.
  induction cs as [|[k sub] rest IH]; cbn [child_get fmap list_fmap fst].
  - split; [intros _ ?%elem_of_nil; done|done].
  - rewrite not_elem_of_cons. destruct (Ascii.eqb_spec k c) as [->|Hne].
    + split; [done|]. by intros [? _].
    + rewrite IH. split; [by split|by intros [_ ?]].
Qed.

Lemma child_get_Some (c : ascii) (cs : list (ascii * Tree)) (sub : Tree) :
  child_get c cs = Some sub -> (c, sub) ∈ cs.
Proof.
  induction cs as [|[k s] rest IH]; [done|]. cbn [child_get].
  destruct (Ascii.eqb_spec k c) as [->|Hne].
  - intros [= ->]. by left.
  - intros Hg. right. by apply IH.
Qed.

Lemma setdefault_keys (c : ascii) (f : Tree -> Tree) (cs : list (ascii * Tree)) :
  (setdefault_then c f cs).*1 =
  cs.*1 ++ match child_get c cs with Some _ => [] | None => [c] end.
Proof.
  induction cs as [|[k sub] rest IH]; [done|].
  cbn [setdefault_then child_get]. destruct (Ascii.eqb k c); rewrite !fmap_cons.
  - by rewrite app_nil_r.
  - by rewrite IH.
Qed.

Lemma setdefault_ok (c : ascii) (f : Tree -> Tree) (cs : list (ascii * Tree)) :
  (forall k sub, child_ok k sub -> child_ok k (f sub)) ->
  child_ok c (f (Tree_new (String c EmptyString))) ->
  NoDup cs.*1 -> Forall (fun kc => child_ok kc.1 kc.2) cs ->
  NoDup (setdefault_then c f cs).*1 /\
  Forall (fun kc => child_ok kc.1 kc.2) (setdefault_then c f cs).
Proof.
  intros Hf Hnew Hnd Hall. split.
  - rewrite setdefault_keys. destruct (child_get c cs) eqn:Hg.
    + by rewrite app_nil_r.
    + apply NoDup_app. repeat split; [done| |apply NoDup_singleton].
      intros k Hk ->%list_elem_of_singleton. by apply child_get_None in Hg.
  - clear Hnd. induction Hall as [|[k sub] rest Hk Hrest IH];
      cbn [setdefault_then].
    + by constructor.
    + destruct (Ascii.eqb k c); constructor; try done. by apply Hf.
Qed.

Lemma insert_word_ok (w : string) (t : Tree) :
  trie_ok t ->
  trie_ok (insert_word w t) /\ value (insert_word w t) = value t /\
  (tchildren (insert_word w t) = [] -> is_leaf_flag (insert_word w t) = true).
Proof.
  revert t. induction w as [|c w IH]; intros [v cs lf] Hok.
  - cbn. inversion Hok; subst. split; [by constructor|done].
  - rewrite insert_word_cons. inversion Hok as [? ? ? Hnd Hall]; subst.
    destruct (setdefault_ok c (insert_word w) cs) as [Hnd' Hall']; try done.
    + intros k sub (Hv & Hl & Hs). destruct (IH sub Hs) as (? & Hv' & ?).
      repeat split; [congruence|done..].
    + destruct (IH (Tree_new (String c EmptyString))) as (? & Hv' & ?).
      { constructor; [constructor|constructor]. }
      by repeat split.
    + split; [by constructor|]. split; [done|].
      cbn [tchildren]. intros Hnil. apply (f_equal (fmap fst)) in Hnil.
      rewrite setdefault_keys, fmap_nil in Hnil.
      apply app_eq_nil in Hnil as [Hk Hnil]. by destruct cs.
Qed.

Lemma build_tree_ok (words : list string) :
  trie_ok (build_tree words) /\ value (build_tree words) = EmptyString.
Proof.
  unfold build_tree.
  assert (forall t, trie_ok t ->
            trie_ok (fold_left (fun root w => insert_word w root) words t) /\
            value (fold_left (fun root w => insert_word w root) words t) = value t)
    as Hfold.
  { induction words as [|w ws IH]; intros t Hok; [done|]. cbn [fold_left].
    destruct (insert_word_ok w t Hok) as (Hok' & Hv & _).
    destruct (IH _ Hok') as [? ?]. split; [done|congruence]. }
  apply Hfold. constructor; constructor.
Qed.

Lemma find_snoc_ok (w : string) (c : ascii) (t n : Tree) :
  trie_ok t -> find (String.append w (String c EmptyString)) t = Some n ->
  child_ok c n.
Proof.
  revert t. induction w as [|a w IH]; intros [v cs lf] Hok;
    inversion Hok as [? ? ? Hnd Hall]; subst.
  - change (find (String c EmptyString) (mkTree v cs lf) = Some n -> child_ok c n).
    cbn [find tchildren].
    destruct (child_get c cs) as [sub|] eqn:Hg; [|done]. intros [= ->].
    apply child_get_Some in Hg. rewrite Forall_forall in Hall.
    by apply (Hall (c, n)).
  - change (find (String a (String.append w (String c EmptyString)))
              (mkTree v cs lf) = Some n -> child_ok c n).
    cbn [find tchildren].
    destruct (child_get a cs) as [sub|] eqn:Hg; [|done]. intros Hf.
    apply child_get_Some in Hg. rewrite Forall_forall in Hall.
    apply (IH sub); [|done]. by apply (Hall (a, sub)).
Qed.

Lemma insert_word_childless (w : string) (t : Tree) :
  tchildren (insert_word w t) = [] <-> w = EmptyString /\ tchildren t = [].
Proof.
  destruct t as [v cs lf]. destruct w as [|c w].
  - cbn. split; [by intros ->|by intros [_ ->]].
  - rewrite insert_word_cons. cbn [tchildren]. split; [|by intros [? _]].
    intros Hnil. apply (f_equal (fmap fst)) in Hnil.
    rewrite setdefault_keys, fmap_nil in Hnil.
    apply app_eq_nil in Hnil as [Hcs Hnil]. by destruct cs.
Qed.

Lemma build_tree_childless (words : list string) :
  tchildren (build_tree words) = [] <->
  forall w, w ∈ words -> w = EmptyString.
Proof.
  unfold build_tree.
  assert (forall t,
            tchildren (fold_left (fun root w => insert_word w root) words t) = [] <->
            tchildren t = [] /\ forall w, w ∈ words -> w = EmptyString) as Hfold.
  { induction words as [|w0 ws IH]; intros t; cbn [fold_left].
    - split; [|by intros [? _]]. intros Ht. split; [done|].
      by intros w ?%elem_of_nil.
    - rewrite IH, insert_word_childless. split.
      + intros [[-> Ht] Hws]. split; [done|].
        intros w [->|Hw]%elem_of_cons; [done|by apply Hws].
      + intros [Ht Hws]. split; [split; [|done]|].
        * apply Hws. by left.
        * intros w Hw. apply Hws. by right. }
  rewrite Hfold. cbn. split; [by intros [_ ?]|by split].
Qed.

(** The root of the trie has the empty value and distinct keys, and it has
    no children exactly when every word is empty.  The node reached by a
    non-empty string has the last character as value, its children have
    distinct keys, and when it has no children the string is one of the
    words. *)
Theorem build_tree_nodes (words : list string) (w : string) (c : ascii)
    (n : Tree) :
  value (build_tree words) = EmptyString /\
  (find (String.append w (String c EmptyString)) (build_tree words) = Some n ->
   value n = String c EmptyString /\
   NoDup (tchildren n).*1 /\
   (tchildren n = [] -> String.append w (String c EmptyString) ∈ words)) /\
  NoDup (tchildren (build_tree words)).*1 /\
  (tchildren (build_tree words) = [] <->
   forall w0, w0 ∈ words -> w0 = EmptyString).
Proof.
  destruct (build_tree_ok words) as [Hok Hv]. split; [done|].
  split; [|split; [by inversion Hok|apply build_tree_childless]].
  intros Hf.
  destruct (find_snoc_ok _ _ _ _ Hok Hf) as (Hvn & Hl & Hn).
  split; [done|]. split.
  - by inversion Hn.
  - intros Hnil. apply build_tree_accepts. unfold accepts. rewrite Hf. auto.
Qed.

Lemma build_tree_nodes_witness :
  find "ac" (build_tree words1) = Some (mkTree "c" [] true) /\
  value (mkTree "c" [] true) = "c"%string.
Proof.
  split; [reflexivity|].
  apply (proj1 (proj2 (build_tree_nodes words1 "a" "c" (mkTree "c" [] true)))).
  reflexivity.
Defined.

(** ** Rendering a tree without nodes to show ([layout.py]) *)

Section RenderEmpty.
Context {UID : Type} `{Countable UID}.
Variable key : heap -> ref -> UID.
Variable radial : gmap UID (Q * Q) -> gmap UID (Q * Q).

Lemma childless_root_store (tree : Tree) (depth_limit : Z) :
  depth_limit <= 0 \/ tchildren tree = [] ->
  LayoutTree_init tree None 0 (-1) depth_limit [] ∅
  = {[ [] := mkLayoutTree tree [] 0 (-1) None None [] 0 (inject_Z (-1)) 0 0 0 ]}.
Proof.
  intros Hc. destruct tree as [v cs lf]. cbn [LayoutTree_init].
  destruct (Z.ltb_spec (-1) (depth_limit - 1)) as [Hlt|Hge]; [|done].
  destruct Hc as [?|Hnil]; [lia|]. cbn in Hnil. by subst cs.
Qed.

(** When the root is dropped and has no child to show (no word, or a depth
    limit of 0 or less), nothing is extracted: BT returns four empty
    containers, while TB, LR, RL and RADIAL fail on the empty array. *)
Theorem render_tree_nothing_to_show (tree : Tree) (depth_limit : Z) :
  depth_limit <= 0 \/ tchildren tree = [] ->
  render_tree key radial tree false depth_limit "BT" = Ok (mkLayout ∅ ∅ [] ∅) /\
  render_tree key radial tree false depth_limit "TB" = Raise IndexError /\
  render_tree key radial tree false depth_limit "LR" = Raise ValueError /\
  render_tree key radial tree false depth_limit "RL" = Raise ValueError /\
  render_tree key radial tree false depth_limit "RADIAL" = Raise ValueError.
Proof.
  intros Hc. unfold render_tree. rewrite (childless_root_store _ _ Hc).
  repeat split; reflexivity.
Qed.
End RenderEmpty.

Lemma render_tree_nothing_to_show_witness :
  render_tree id_key no_radial (build_tree []) false 15 "TB" = Raise IndexError.
Proof.
  apply (render_tree_nothing_to_show id_key no_radial (build_tree []) 15).
  right. reflexivity.
Defined.

(** ** Extraction: positions and edges ([layout.py]) *)

Section ExtractMore.
Context {UID : Type} `{Countable UID}.
Variable key : heap -> ref -> UID.
Variable h : heap.
Hypothesis Hwf : wf h.

Lemma lookup_add_position (E : list ref) (m : gmap UID (Q * Q)) (r : ref) :
  key_injective key h E -> r ∈ E ->
  fold_left (add_position key h) E m !! key h r
  = Some (x (h !!! r), y (h !!! r)).
Proof.
  induction E as [|r' E IH] using rev_ind; intros Hinj Hr.
  - by apply elem_of_nil in Hr.
  - rewrite fold_left_app. cbn [fold_left]. unfold add_position at 1.
    destruct (decide (r = r')) as [<-|Hne]; [by rewrite lookup_insert_eq|].
    rewrite lookup_insert_ne.
    + apply IH.
      * intros a b Ha Hb. apply Hinj; apply elem_of_app; by left.
      * apply elem_of_app in Hr as [?|Hr]; [done|].
        by apply list_elem_of_singleton in Hr.
    + intros Hk. apply Hne. symmetry.
      apply Hinj; [apply elem_of_app; right; by left|done|done].
Qed.

(** The visited objects are the start queue followed by the children of
    the visited objects, in order. *)
Lemma emitted_kids (fuel : nat) (q : list ref) (out out' : layout) :
  extract_loop key fuel h q out = Ok out' ->
  emitted h fuel q = q ++ kids h (emitted h fuel q).
Proof.
  revert q out out'. induction fuel as [|fuel IH]; intros q out out' Hr.
  - destruct q; [done|done].
  - destruct q as [|r0 q]; [done|]. cbn [extract_loop] in Hr.
    rewrite level_spec, app_nil_l in Hr. cbn [emitted].
    specialize (IH _ _ _ Hr). unfold kids at 2. rewrite bind_app.
    fold (kids h (r0 :: q)). fold (kids h (emitted h fuel (kids h (r0 :: q)))).
    by rewrite <- IH.
Qed.

Lemma out_edges_kids (E : list ref) :
  (forall r, r ∈ E -> is_Some (h !! r)) ->
  E ≫= out_edges key h = (fun c => (key h (tail c), key h c)) <$> kids h E.
Proof.
  intros HE. unfold kids. induction E as [|r E IH]; [done|].
  cbn [mbind list_bind]. rewrite fmap_app, <- IH.
  2:{ intros r' Hr'. apply HE. by right. }
  f_equal. unfold out_edges.
  rewrite (wf_children_total h Hwf r) by (apply HE; by left).
  rewrite <- !list_fmap_compose. done.
Qed.

(** With a key that tells the visited objects apart, [positions] holds the
    coordinates of each visited object under its key; and, whatever the
    key, there is one edge per visited object outside the start queue, from
    its parent to it, in the order of the visit. *)
Theorem extract_positions_edges (q0 : list ref) (d : nat) :
  level_queue h q0 d ->
  exists out,
    extract_tree_layout key h q0 = Ok out /\
    edges out = (fun c => (key h (tail c), key h c))
                  <$> drop (length q0) (visited h q0) /\
    take (length q0) (visited h q0) = q0 /\
    (key_injective key h (visited h q0) ->
     forall r, r ∈ visited h q0 ->
       positions out !! key h r = Some (x (h !!! r), y (h !!! r))).
Proof.
  intros Hq. destruct (extract_result key h Hwf q0 d Hq) as (out & Hout & -> & Hnd & Hc).
  eexists. split; [done|]. unfold emit. cbn [edges positions].
  unfold extract_tree_layout in Hout.
  pose proof (emitted_kids _ _ _ _ Hout) as HE. fold (visited h q0) in HE.
  split; [|split].
  - rewrite app_nil_l, out_edges_kids.
    + f_equal. rewrite HE at 2. by rewrite drop_app_length.
    + intros r Hr. by apply (visited_reach h Hwf q0 d r Hq) in Hr as [? _].
  - rewrite HE. by rewrite take_app_length.
  - intros Hinj r Hr. by apply lookup_add_position.
Qed.
End ExtractMore.

Lemma extract_positions_edges_witness :
  exists out,
    extract_tree_layout id_key store1 [[]] = Ok out /\
    length (edges out) = length (drop 1 (visited store1 [[]])).
Proof.
  destruct (extract_positions_edges id_key store1 (init_wf _ _ _) [[]] 0
              store1_queue) as (out & Hout & He & _).
  exists out. split; [exact Hout|]. rewrite He. apply length_fmap.
Defined.

(** ** The links of a constructed layout tree ([layout.py]) *)

Section InitLinks.
Variables (t0 : Tree) (lvl0 lim : Z).

(** Every object of a constructed layout tree starts at x = 0, with its
    level as y when the level is an integer that a float holds (up to
    [2 ^ 53] in size), without thread and as its own ancestor; its i-th
    child is the object built for the i-th child of its source node, one
    level down, with this object as parent and i as sibling index, and the
    left sibling of that child is the child before it. *)
Theorem LayoutTree_init_links (q : ref) (n : LayoutTree) :
  let h := LayoutTree_init t0 None 0 lvl0 lim [] ∅ in
  h !! q = Some n ->
  (x n = 0%Q /\ (Z.abs (level n) <= 2 ^ 53 -> y n = inject_Z (level n)) /\
   mod_ n = 0%Q /\ change n = 0%Q /\
   shift n = 0%Q /\ _thread n = None /\ _ancestor n = q) /\
  forall i c, children n !! i = Some c ->
    exists nc k,
      h !! c = Some nc /\ parent h c = Some q /\ sibling_index nc = i /\
      level nc = level n + 1 /\
      tchildren (_tree n) !! i = Some (k, _tree nc) /\
      leftmost_sibling h c = children n !! 0%nat /\
      left_sibling h c = match i with O => None | S j => children n !! j end.
Proof.
  intros h Hn. pose proof (init_wf t0 lvl0 lim) as Hwf. fold h in Hwf.
  pose proof Hn as Hn'. unfold h in Hn'. rewrite LayoutTree_init_lookup in Hn'.
  apply node_of_Some in Hn' as (t & Ht & Hlv & ->). cbn.
  split; [done|]. intros i c Hc.
  assert (children (h !!! q) !! i = Some c) as Hc'
    by by rewrite (lookup_total_correct _ _ _ Hn).
  rewrite (children_lookup h Hwf q i) in Hc' by eauto.
  case_decide as Hi; [|done]. injection Hc' as <-.
  assert (is_Some (h !! (i :: q))) as [nc Hnc] by (apply wf_down_total; eauto).
  pose proof Hnc as Hnc'. unfold h in Hnc'.
  rewrite LayoutTree_init_lookup in Hnc'.
  apply node_of_Some in Hnc' as (tc & Htc & _ & ->).
  cbn [rev] in Htc. rewrite subtree_app, Ht in Htc. cbn in Htc.
  destruct (tchildren t !! i) as [[k tc']|] eqn:Hk; [|done].
  injection Htc as ->.
  eexists _, k. split; [exact Hnc|]. cbn.
  split; [by rewrite (parent_wf h Hwf) by eauto|].
  split; [done|]. split; [lia|]. split; [done|]. split.
  - rewrite (leftmost_sibling_wf h Hwf) by eauto.
    destruct i; [by rewrite Hc|].
    assert (children (h !!! q) !! 0%nat = Some (0%nat :: q)) as H0.
    { rewrite (children_lookup h Hwf q) by eauto. case_decide; [done|lia]. }
    by rewrite (lookup_total_correct _ _ _ Hn) in H0.
  - rewrite (left_sibling_wf h Hwf) by eauto. destruct i as [|j]; [done|].
    assert (children (h !!! q) !! j = Some (j :: q)) as Hj.
    { rewrite (children_lookup h Hwf q) by eauto. case_decide; [done|lia]. }
    by rewrite (lookup_total_correct _ _ _ Hn) in Hj.
Qed.
End InitLinks.

Lemma LayoutTree_init_links_witness :
  exists n, store1 !! [0%nat] = Some n /\ _ancestor n = [0%nat] /\ y n = inject_Z (level n).
Proof.
  assert (exists n, store1 !! [0%nat] = Some n /\ level n = 1) as (n & Hn & Hl).
  { unfold store1. rewrite LayoutTree_init_lookup. vm_compute. eauto. }
  exists n. split; [exact Hn|].
  destruct (LayoutTree_init_links (build_tree words1) 0 10 [0%nat] n Hn)
    as ((_ & Hy & _ & _ & _ & _ & Ha) & _).
  split; [exact Ha|]. apply Hy. rewrite Hl. lia.
Defined.

(** ** The second walk ([buchheim.py]) *)

(** The shift that [_second_walk] hands down to the object at the relative
    path [k] below [v]: the shift of the call plus the [mod] of the objects
    from [v] down to the parent of that object. *)
Fixpoint shift_at (h : heap) (v : ref) (s : Q) (k : list nat) : Q :=
  match k with
  | [] => s
  | _ :: k' => (shift_at h v s k' + mod_ (h !!! (k' ++ v)))%Q
  end.

(** The [start_y] of the call on the object at the relative path [k]. *)
Fixpoint y_at (Y dy : Q) (k : list nat) : Q :=
  match k with
  | [] => Y
  | _ :: k' => (y_at Y dy k' + dy)%Q
  end.

(** The object [n], found at [k] below [v], after [_second_walk] on [v]. *)
Definition placed (h : heap) (v : ref) (s : Q) (sy : option Q) (dy : Q)
    (k : list nat) (n : LayoutTree) : LayoutTree :=
  let n' := with_x (x n + shift_at h v s k)%Q n in
  match k, sy with
  | [], None => n'
  | _, _ => with_y (y_at (default (y (h !!! v)) sy) dy k) n'
  end.

Lemma shift_at_snoc (h : heap) (v : ref) (s : Q) (i : nat) (k : list nat) :
  shift_at h v s (k ++ [i]) = shift_at h (i :: v) (s + mod_ (h !!! v))%Q k.
Proof.
  induction k as [|j k IH]; [done|]. cbn [app shift_at]. rewrite IH.
  by rewrite <- app_assoc.
Qed.

Lemma y_at_snoc (Y dy : Q) (i : nat) (k : list nat) :
  y_at Y dy (k ++ [i]) = y_at (Y + dy)%Q dy k.
Proof. induction k as [|j k IH]; [done|]. cbn [app y_at]. by rewrite IH. Qed.

Lemma shift_at_ext (h h' : heap) (v : ref) (s : Q) (k : list nat) :
  (forall k', mod_ (h' !!! (k' ++ v)) = mod_ (h !!! (k' ++ v))) ->
  shift_at h' v s k = shift_at h v s k.
Proof.
  intros Hm. induction k as [|j k IH]; [done|]. cbn [shift_at].
  by rewrite IH, Hm.
Qed.

Lemma placed_snoc (h : heap) (v : ref) (s : Q) (sy : option Q) (dy : Q)
    (i : nat) (k : list nat) (n : LayoutTree) :
  placed h v s sy dy (k ++ [i]) n =
  placed h (i :: v) (s + mod_ (h !!! v))%Q
    (Some (default (y (h !!! v)) sy + dy)%Q) dy k n.
Proof.
  unfold placed. rewrite shift_at_snoc, y_at_snoc.
  destruct k; [|done]. by destruct sy.
Qed.

Lemma skel_placed h v s sy dy k n : skel (placed h v s sy dy k n) = skel n.
Proof. unfold placed. by destruct k, sy, n. Qed.

(** [min_x] after the test of [_second_walk]. *)
Definition min_with (min_x : option Q) (x0 : Q) : Q :=
  match min_x with
  | None => x0
  | Some m => if Qgtb m x0 then x0 else m
  end.

Lemma min_with_le (min_x : option Q) (x0 : Q) :
  (min_with min_x x0 <= x0)%Q /\
  (forall m, min_x = Some m -> (min_with min_x x0 <= m)%Q) /\
  (min_with min_x x0 = x0 \/ min_x = Some (min_with min_x x0)).
Proof.
  unfold min_with, Qgtb. destruct min_x as [m|].
  - destruct (Qle_bool m x0) eqn:E; cbn [negb].
    + apply Qle_bool_iff in E. repeat split; [done| |by right].
      intros ? [= <-]. apply Qle_refl.
    + assert (~ (m <= x0)%Q) as Hn by (rewrite <- Qle_bool_iff; congruence).
      repeat split; [apply Qle_refl| |by left].
      intros ? [= <-]. apply Qlt_le_weak. by apply Qnot_le_lt.
  - repeat split; [apply Qle_refl|done|by left].
Qed.

Section SecondWalk.
Variable dy : Q.

(** What [_second_walk] on [v] leaves: the store outside the subtree of
    [v] is untouched, every object of the subtree is [placed], and the
    result is the least of [min_x] and the new [x] of the subtree. *)
Definition second_walk_post (h : heap) (v : ref) (s : Q) (sy mn : option Q)
    (m : Q) (h' : heap) : Prop :=
  (forall q, ~ v `suffix_of` q -> h' !! q = h !! q) /\
  (forall k, h' !! (k ++ v) = placed h v s sy dy k <$> h !! (k ++ v)) /\
  (forall k n', h' !! (k ++ v) = Some n' -> (m <= x n')%Q) /\
  (forall m0, mn = Some m0 -> (m <= m0)%Q) /\
  (mn = Some m \/ exists k n', h' !! (k ++ v) = Some n' /\ m = x n').

Lemma second_walk_post_shape h v s sy mn m h' :
  second_walk_post h v s sy mn m h' -> same_shape h h'.
Proof.
  intros (Hout & Hin & _) q.
  destruct (decide (v `suffix_of` q)) as [[k ->]|Hn].
  - rewrite Hin. destruct (h !! (k ++ v)); [|done]. simpl.
    by rewrite skel_placed.
  - by rewrite Hout.
Qed.

Lemma child_not_suffix (i : nat) (v : ref) : ~ (i :: v) `suffix_of` v.
Proof.
  intros [k E]. apply (f_equal length) in E. rewrite length_app in E.
  simpl in E. lia.
Qed.

Lemma sibling_not_suffix (i j : nat) (v : ref) (k : list nat) :
  i ≠ j -> ~ (i :: v) `suffix_of` (k ++ j :: v).
Proof.
  intros Hne Hs. apply Hne. apply (region_disjoint i j v (k ++ j :: v)); [done|].
  by exists k.
Qed.

Definition second_walk_total (fuel : nat) : Prop :=
  forall v s sy mn h,
    wf h -> is_Some (h !! v) -> (size h <= fuel + length v)%nat ->
    exists m h',
      _second_walk fuel v s sy dy mn h = Ok (m, h') /\
      second_walk_post h v s sy mn m h'.

Lemma lookup_total_eq (h h' : heap) (q : ref) :
  h' !! q = h !! q -> h' !!! q = h !!! q.
Proof. intros E. by rewrite !lookup_total_alt, E. Qed.

Lemma second_walk_children (fuel : nat) (v : ref) (s Y : Q) (js : list nat) :
  second_walk_total fuel ->
  forall m h,
    wf h -> NoDup js -> (forall i, i ∈ js -> is_Some (h !! (i :: v))) ->
    (size h <= fuel + S (length v))%nat ->
    exists m' h',
      foldM (fun '(min_x, h0) w =>
               _second_walk fuel w (s + mod_ (h0 !!! v))%Q
                 (Some (Y + dy)%Q) dy (Some min_x) h0)
            ((fun i => i :: v) <$> js) (m, h) = Ok (m', h') /\
      (forall q, (forall i, i ∈ js -> ~ (i :: v) `suffix_of` q) ->
                 h' !! q = h !! q) /\
      (forall i k, i ∈ js ->
         h' !! (k ++ i :: v)
         = placed h (i :: v) (s + mod_ (h !!! v))%Q (Some (Y + dy)%Q) dy k
             <$> h !! (k ++ i :: v)) /\
      (m' <= m)%Q /\
      (forall i k n', i ∈ js -> h' !! (k ++ i :: v) = Some n' -> (m' <= x n')%Q) /\
      (m' = m \/
       exists i k n', i ∈ js /\ h' !! (k ++ i :: v) = Some n' /\ m' = x n').
Proof.
  intros Htot. induction js as [|i js IH]; intros m h Hwf Hnd Hdom Hsz.
  - exists m, h. split; [done|]. split; [done|].
    split; [by intros i k ?%elem_of_nil|]. split; [apply Qle_refl|].
    split; [by intros i k n' ?%elem_of_nil|by left].
  - apply NoDup_cons in Hnd as [Hi Hnd]. cbn [fmap list_fmap foldM].
    destruct (Htot (i :: v) (s + mod_ (h !!! v))%Q (Some (Y + dy)%Q) (Some m) h)
      as (m1 & h1 & Hrun & Hpost); [done|apply Hdom; by left|simpl; lia|].
    rewrite Hrun. cbn [mbind result_bind].
    pose proof (second_walk_post_shape _ _ _ _ _ _ _ Hpost) as Hshape.
    destruct Hpost as (Hout & Hin & Hlow & Hmn & Hatt).
    assert (h1 !!! v = h !!! v) as Hv
      by (apply lookup_total_eq, Hout, child_not_suffix).
    destruct (IH m1 h1) as (m' & h' & Hrun' & Hout' & Hin' & Hle' & Hlow' & Hatt').
    + by apply (same_shape_wf h).
    + done.
    + intros j Hj. apply (same_shape_is_Some _ _ _ Hshape). apply Hdom. by right.
    + by rewrite (same_shape_size _ _ Hshape).
    + exists m', h'. split; [exact Hrun'|].
      assert (forall j k, j ∈ js -> h1 !! (k ++ j :: v) = h !! (k ++ j :: v)) as Hfr.
      { intros j k Hj. apply Hout, sibling_not_suffix. by intros ->. }
      assert (forall k, h' !! (k ++ i :: v) = h1 !! (k ++ i :: v)) as Hfr'.
      { intros k. apply Hout'. intros j Hj. apply sibling_not_suffix.
        by intros ->. }
      split; [|split; [|split; [|split]]].
      * intros q Hq. rewrite Hout'.
        -- apply Hout. apply Hq. by left.
        -- intros j Hj. apply Hq. by right.
      * intros j k [->|Hj]%elem_of_cons.
        -- by rewrite Hfr', Hin.
        -- rewrite Hin', Hfr, Hv by done. destruct (h !! (k ++ j :: v)); [|done].
           simpl. f_equal. unfold placed.
           rewrite (shift_at_ext h h1)
             by (intros k'; by rewrite (lookup_total_eq _ _ _ (Hfr j k' Hj))).
           by destruct k.
      * apply (Qle_trans _ m1); [exact Hle'|by apply Hmn].
      * intros j k n' [->|Hj]%elem_of_cons Hn'.
        -- apply (Qle_trans _ m1); [exact Hle'|]. apply (Hlow k). by rewrite <- Hfr'.
        -- by apply (Hlow' j k).
      * destruct Hatt' as [->|(j & k & n' & Hj & Hn' & ->)].
        -- destruct Hatt as [[= ->]|(k & n' & Hn' & ->)]; [by left|right].
           exists i, k, n'. split; [by left|]. by rewrite Hfr'.
        -- right. exists j, k, n'. split; [by right|done].
Qed.

(** The store once [_second_walk] has dealt with the object [v] itself. *)
Definition second_walk_head (v : ref) (s : Q) (sy : option Q) (h : heap) : heap :=
  let h1 := set_x v (x (h !!! v) + s)%Q h in
  match sy with Some sy0 => set_y v sy0 h1 | None => h1 end.

Lemma second_walk_unfold (fuel : nat) v s sy mn h :
  _second_walk (S fuel) v s sy dy mn h =
  let h2 := second_walk_head v s sy h in
  foldM (fun '(min_x, h0) w =>
           _second_walk fuel w (s + mod_ (h0 !!! v))%Q
             (Some (default (y (h !!! v)) sy + dy)%Q) dy (Some min_x) h0)
        (children (h2 !!! v)) (min_with mn (x (h2 !!! v)), h2).
Proof.
  unfold second_walk_head. destruct sy as [sy0|]; cbn [_second_walk default].
  - done.
  - assert (y (set_x v (x (h !!! v) + s)%Q h !!! v) = y (h !!! v)) as ->
      by (unfold set_x; apply alter_preserved; by intros []).
    done.
Qed.

Lemma second_walk_head_lookup v s sy h q :
  second_walk_head v s sy h !! q =
  if decide (q = v) then placed h v s sy dy [] <$> h !! v else h !! q.
Proof.
  unfold second_walk_head, set_x, set_y, placed. cbn [shift_at y_at].
  destruct (decide (q = v)) as [->|Hne].
  - destruct sy as [sy0|]; rewrite ?lookup_alter, ?decide_True by done;
      rewrite lookup_total_alt; by destruct (h !! v).
  - destruct sy as [sy0|]; by rewrite ?lookup_alter, ?decide_False by done.
Qed.

Lemma mod_placed h v s sy k n : mod_ (placed h v s sy dy k n) = mod_ n.
Proof. unfold placed. by destruct k, sy, n. Qed.

Lemma second_walk_ok (fuel : nat) : second_walk_total fuel.
Proof.
  induction fuel as [|fuel IH]; intros v s sy mn h Hwf Hv Hsz.
  { pose proof (depth_bound h Hwf v Hv). lia. }
  rewrite second_walk_unfold. cbv zeta.
  set (h2 := second_walk_head v s sy h).
  set (Y := default (y (h !!! v)) sy).
  set (n := arity h v).
  assert (forall q, q ≠ v -> h2 !! q = h !! q) as F1.
  { intros q Hq. unfold h2. by rewrite second_walk_head_lookup, decide_False. }
  assert (h2 !! v = placed h v s sy dy [] <$> h !! v) as F2.
  { unfold h2. by rewrite second_walk_head_lookup, decide_True. }
  assert (same_shape h h2) as Hshape.
  { intros q. destruct (decide (q = v)) as [->|Hq].
    - rewrite F2. destruct (h !! v); [|done].
      cbn [fmap option_fmap option_map]. by rewrite skel_placed.
    - by rewrite F1. }
  assert (forall q, mod_ (h2 !!! q) = mod_ (h !!! q)) as Hmod.
  { intros q. rewrite !lookup_total_alt. destruct (decide (q = v)) as [->|Hq].
    - rewrite F2. destruct (h !! v); [|done].
      cbn [fmap option_fmap option_map default]. apply mod_placed.
    - by rewrite F1. }
  assert (wf h2) as Hwf2 by by apply (same_shape_wf h).
  assert (forall k i, k ++ i :: v ≠ v) as Hne.
  { intros k i E. apply (f_equal length) in E. rewrite !length_app in E.
    simpl in E. lia. }
  assert (forall k i, ~ (i < n)%nat -> h !! (k ++ i :: v) = None) as Hnone.
  { intros k i Hi. apply eq_None_not_Some. intros Hs. apply Hi.
    assert (is_Some (h !! (i :: v))) as Hiv.
    { apply (wf_suffix h Hwf (i :: v) (k ++ i :: v)); [|done]. by exists k. }
    by apply (wf_up_total h Hwf) in Hiv as [_ ?]. }
  rewrite (same_shape_children h h2 v Hshape), (wf_children_total h Hwf v Hv).
  fold n.
  destruct (second_walk_children fuel v s Y (seq 0 n) IH
              (min_with mn (x (h2 !!! v))) h2)
    as (m' & h' & Hrun & Hout & Hin & Hle & Hlow & Hatt).
  { done. }
  { apply NoDup_seq. }
  { intros i Hi%elem_of_seq. apply (same_shape_is_Some _ _ _ Hshape).
    apply (wf_down_total h Hwf); [done|]. unfold n in Hi. lia. }
  { rewrite (same_shape_size _ _ Hshape). lia. }
  exists m', h'. split; [exact Hrun|].
  assert (h' !! v = h2 !! v) as Hroot.
  { apply Hout. intros i _. apply child_not_suffix. }
  assert (forall k i, ~ (i < n)%nat -> h' !! (k ++ i :: v) = None) as Hnone'.
  { intros k i Hi. rewrite Hout.
    - rewrite F1 by apply Hne. by apply Hnone.
    - intros j Hj%elem_of_seq. apply sibling_not_suffix. intros ->. lia. }
  destruct (min_with_le mn (x (h2 !!! v))) as (Hm1 & Hm2 & Hm3).
  split; [|split; [|split; [|split]]].
  - intros q Hq. rewrite Hout.
    + apply F1. intros ->. by apply Hq.
    + intros i _ Hs. apply Hq. by apply region_step in Hs as [? _].
  - intros k. destruct k as [|i k _] using rev_ind.
    + cbn [app]. by rewrite Hroot, F2.
    + rewrite <- app_assoc. cbn [app].
      destruct (decide (i < n)%nat) as [Hi|Hi].
      * rewrite Hin by (apply elem_of_seq; lia).
        rewrite F1 by apply Hne. rewrite Hmod.
        destruct (h !! (k ++ i :: v)); [|done].
        cbn [fmap option_fmap option_map]. f_equal.
        rewrite placed_snoc. fold Y.
        unfold placed. rewrite (shift_at_ext h h2) by (intros; apply Hmod).
        by destruct k.
      * by rewrite Hnone', Hnone.
  - intros k n'. destruct k as [|i k _] using rev_ind.
    + cbn [app]. rewrite Hroot. intros Hn'.
      rewrite (lookup_total_correct _ _ _ Hn') in Hm1, Hle.
      by apply (Qle_trans _ (min_with mn (x n'))).
    + rewrite <- app_assoc. cbn [app].
      destruct (decide (i < n)%nat) as [Hi|Hi].
      * apply Hlow, elem_of_seq. lia.
      * by rewrite Hnone'.
  - intros m0 Hm0. apply (Qle_trans _ (min_with mn (x (h2 !!! v)))); auto.
  - destruct Hatt as [->|(i & k & n' & Hi & Hn' & ->)].
    + destruct Hm3 as [Hx|Hx]; [right|by left].
      assert (is_Some (h2 !! v)) as [n2 Hn2]
        by by apply (same_shape_is_Some _ _ _ Hshape).
      exists [], n2. rewrite Hx, (lookup_total_correct _ _ _ Hn2).
      split; [|done]. cbn [app]. by rewrite Hroot.
    + right. exists (k ++ [i]), n'. by rewrite <- app_assoc.
Qed.
End SecondWalk.

(** [_second_walk] on an object [v] of a well-formed store, with fuel for
    the depth of the store, returns. Outside the subtree of [v] the store is
    as before. An object at the relative path [k] below [v] has the shift
    handed down to it added to its [x]: the shift of the call for [v]
    itself, and for a child the shift of its parent plus the [mod] of its
    parent, summed in this order from [v] down. Its [y] is the start value
    handed down to it: [start_y] for [v] (its own [y] when none is given),
    and for a child the start value of its parent plus [dy]. Its other
    fields are untouched. The result is at most [min_x] and at most every
    new [x] of the subtree, and it is one of them. *)
Theorem second_walk_spec (fuel : nat) (v : ref) (s : Q) (sy : option Q)
    (dy : Q) (mn : option Q) (h : heap) :
  wf h -> is_Some (h !! v) -> (size h <= fuel + length v)%nat ->
  exists m h',
    _second_walk fuel v s sy dy mn h = Ok (m, h') /\
    same_shape h h' /\
    (forall q, ~ v `suffix_of` q -> h' !! q = h !! q) /\
    (forall k n, h !! (k ++ v) = Some n ->
       exists n', h' !! (k ++ v) = Some n' /\
         x n' = (x n + shift_at h v s k)%Q /\
         y n' = y_at (default (y (h !!! v)) sy) dy k /\
         mod_ n' = mod_ n /\ change n' = change n /\ shift n' = shift n /\
         _thread n' = _thread n /\ _ancestor n' = _ancestor n) /\
    (forall k n', h' !! (k ++ v) = Some n' -> (m <= x n')%Q) /\
    (forall m0, mn = Some m0 -> (m <= m0)%Q) /\
    (mn = Some m \/ exists k n', h' !! (k ++ v) = Some n' /\ m = x n').
Proof.
  intros Hwf Hv Hsz.
  destruct (second_walk_ok dy fuel v s sy mn h Hwf Hv Hsz)
    as (m & h' & Hrun & Hpost).
  exists m, h'. split; [exact Hrun|].
  split; [by apply (second_walk_post_shape dy _ _ _ _ _ _ _ Hpost)|].
  destruct Hpost as (Hout & Hin & Hlow & Hmn & Hatt).
  split; [exact Hout|]. split; [|by repeat split].
  intros k n Hn. rewrite Hin, Hn. eexists. split; [done|].
  unfold placed. destruct k as [|i k], sy as [sy0|], n; cbn [x y mod_ change
    shift _thread _ancestor with_x with_y default y_at];
    (split; [done|]); (split; [|done]); try done.
  cbn [app] in Hn. by rewrite (lookup_total_correct _ _ _ Hn).
Qed.

Lemma second_walk_spec_witness :
  exists m h', _second_walk (size store1) [] 0 None 1 None store1 = Ok (m, h') /\
               same_shape store1 h'.
Proof.
  destruct (second_walk_spec (size store1) [] 0 None 1 None store1)
    as (m & h' & Hrun & Hshape & _).
  - apply init_wf.
  - apply (wf_root _ (init_wf _ _ _)).
  - simpl. lia.
  - exists m, h'. split; [exact Hrun|exact Hshape].
Defined.

(** ** The boundary box ([layout.py]) *)

Definition inside (b : Q * Q * Q * Q) (n : LayoutTree) : Prop :=
  let '(x0, x1, y0, y1) := b in
  (x0 <= x n /\ x n <= x1 /\ y0 <= y n /\ y n <= y1)%Q.

(** [b] lies within [b']. *)
Definition within (b b' : Q * Q * Q * Q) : Prop :=
  let '(x0, x1, y0, y1) := b in
  let '(x0', x1', y0', y1') := b' in
  (x0' <= x0 /\ x1 <= x1' /\ y0' <= y0 /\ y1 <= y1')%Q.

(** Each side of [b] goes through an object that satisfies [P]. *)
Definition tight (b : Q * Q * Q * Q) (P : LayoutTree -> Prop) : Prop :=
  let '(x0, x1, y0, y1) := b in
  (exists n, P n /\ x0 == x n)%Q /\ (exists n, P n /\ x1 == x n)%Q /\
  (exists n, P n /\ y0 == y n)%Q /\ (exists n, P n /\ y1 == y n)%Q.

Definition join (b c : Q * Q * Q * Q) : Q * Q * Q * Q :=
  let '(x0, x1, y0, y1) := b in
  let '(cx0, cx1, cy0, cy1) := c in
  (Qmin x0 cx0, Qmax x1 cx1, Qmin y0 cy0, Qmax y1 cy1).

Lemma within_refl b : within b b.
Proof. destruct b as [[[x0 x1] y0] y1]. cbn. repeat split; apply Qle_refl. Qed.

Lemma within_trans b1 b2 b3 : within b1 b2 -> within b2 b3 -> within b1 b3.
Proof.
  destruct b1 as [[[? ?] ?] ?], b2 as [[[? ?] ?] ?], b3 as [[[? ?] ?] ?].
  cbn. intros (? & ? & ? & ?) (? & ? & ? & ?).
  repeat split; eapply Qle_trans; eauto.
Qed.

Lemma within_join_l b c : within b (join b c).
Proof.
  destruct b as [[[x0 x1] y0] y1], c as [[[cx0 cx1] cy0] cy1]. cbn.
  repeat split; auto using Q.le_min_l, Q.le_max_l.
Qed.

Lemma within_join_r b c : within c (join b c).
Proof.
  destruct b as [[[x0 x1] y0] y1], c as [[[cx0 cx1] cy0] cy1]. cbn.
  repeat split; auto using Q.le_min_r, Q.le_max_r.
Qed.

Lemma inside_within b b' n : inside b n -> within b b' -> inside b' n.
Proof.
  destruct b as [[[? ?] ?] ?], b' as [[[? ?] ?] ?]. cbn.
  intros (? & ? & ? & ?) (? & ? & ? & ?).
  repeat split; eapply Qle_trans; eauto.
Qed.

Lemma tight_mono b (P P' : LayoutTree -> Prop) :
  (forall n, P n -> P' n) -> tight b P -> tight b P'.
Proof.
  destruct b as [[[? ?] ?] ?]. cbn.
  intros HP ((? & ? & ?) & (? & ? & ?) & (? & ? & ?) & (? & ? & ?)).
  repeat split; eexists; eauto.
Qed.

Lemma tight_join b c (P : LayoutTree -> Prop) :
  tight b P -> tight c P -> tight (join b c) P.
Proof.
  destruct b as [[[x0 x1] y0] y1], c as [[[cx0 cx1] cy0] cy1]. cbn.
  intros ((n1 & ? & E1) & (n2 & ? & E2) & (n3 & ? & E3) & (n4 & ? & E4))
         ((m1 & ? & F1) & (m2 & ? & F2) & (m3 & ? & F3) & (m4 & ? & F4)).
  split; [|split; [|split]].
  - destruct (Q.min_spec x0 cx0) as [[_ E]|[_ E]];
      [exists n1|exists m1]; (split; [done|]); by rewrite E.
  - destruct (Q.max_spec x1 cx1) as [[_ E]|[_ E]];
      [exists m2|exists n2]; (split; [done|]); by rewrite E.
  - destruct (Q.min_spec y0 cy0) as [[_ E]|[_ E]];
      [exists n3|exists m3]; (split; [done|]); by rewrite E.
  - destruct (Q.max_spec y1 cy1) as [[_ E]|[_ E]];
      [exists m4|exists n4]; (split; [done|]); by rewrite E.
Qed.

(** The objects of the subtree of [r]. *)
Definition below (h : heap) (r : ref) (n : LayoutTree) : Prop :=
  exists k, h !! (k ++ r) = Some n.

Definition boundary_box_total (fuel : nat) (h : heap) : Prop :=
  forall r, is_Some (h !! r) -> (size h <= fuel + length r)%nat ->
    exists b, boundary_box fuel h r = Ok b /\
      (forall n, below h r n -> inside b n) /\ tight b (below h r).

Lemma boundary_box_unfold (fuel : nat) (h : heap) (r : ref) :
  boundary_box (S fuel) h r =
  foldM (fun b child => c ← boundary_box fuel h child; Ok (join b c))
        (children (h !!! r))
        (x (h !!! r), x (h !!! r), y (h !!! r), y (h !!! r)).
Proof.
  cbn [boundary_box]. unfold is_leaf.
  destruct (children (h !!! r)) as [|c cs]; [done|].
  generalize (x (h !!! r), x (h !!! r), y (h !!! r), y (h !!! r)).
  generalize (c :: cs). intros l. induction l as [|w l IH]; intros b; [done|].
  cbn [foldM]. destruct b as [[[x0 x1] y0] y1].
  destruct (boundary_box fuel h w) as [[[[cx0 cx1] cy0] cy1]|e]; [|done].
  cbn [mbind result_bind join]. apply IH.
Qed.

Lemma boundary_box_children (fuel : nat) (h : heap) (r : ref) (js : list nat) :
  boundary_box_total fuel h ->
  (forall i, i ∈ js -> is_Some (h !! (i :: r))) ->
  (size h <= fuel + S (length r))%nat ->
  forall b0, exists b',
    foldM (fun b child => c ← boundary_box fuel h child; Ok (join b c))
          ((fun i => i :: r) <$> js) b0 = Ok b' /\
    within b0 b' /\
    (forall i n, i ∈ js -> below h (i :: r) n -> inside b' n) /\
    (forall P : LayoutTree -> Prop, tight b0 P ->
       (forall i n, i ∈ js -> below h (i :: r) n -> P n) -> tight b' P).
Proof.
  intros Htot. induction js as [|i js IH]; intros Hdom Hsz b0.
  - exists b0. split; [done|]. split; [apply within_refl|].
    split; [by intros i n ?%elem_of_nil|done].
  - cbn [fmap list_fmap foldM].
    destruct (Htot (i :: r)) as (c & Hrun & Hin & Htight);
      [apply Hdom; by left|simpl; lia|].
    rewrite Hrun. cbn [mbind result_bind].
    destruct (IH (fun j Hj => Hdom j (proj2 (elem_of_cons _ _ _) (or_intror Hj)))
                Hsz (join b0 c))
      as (b' & Hrun' & Hw & Hin' & Htight').
    exists b'. split; [exact Hrun'|]. split; [|split].
    + eapply within_trans; [apply within_join_l|exact Hw].
    + intros j n [->|Hj]%elem_of_cons Hn; [|by apply (Hin' j)].
      eapply inside_within; [by apply Hin|].
      eapply within_trans; [apply within_join_r|exact Hw].
    + intros P HP0 HP. apply Htight'.
      * apply tight_join; [done|]. eapply tight_mono; [|exact Htight].
        intros n Hn. apply (HP i); [by left|done].
      * intros j n Hj. apply HP. by right.
Qed.

Lemma boundary_box_ok (fuel : nat) (h : heap) :
  wf h -> boundary_box_total fuel h.
Proof.
  intros Hwf. induction fuel as [|fuel IH]; intros r Hr Hsz.
  { pose proof (depth_bound h Hwf r Hr). lia. }
  rewrite boundary_box_unfold, (wf_children_total h Hwf r Hr).
  destruct Hr as [nr Hnr]. rewrite (lookup_total_correct _ _ _ Hnr).
  destruct (boundary_box_children fuel h r (seq 0 (arity h r)) IH)
    with (b0 := (x nr, x nr, y nr, y nr)) as (b' & Hrun & Hw & Hin & Htight).
  { intros i Hi%elem_of_seq. apply (wf_down_total h Hwf); [by eauto|lia]. }
  { lia. }
  exists b'. split; [exact Hrun|]. split.
  - intros n [k Hn]. destruct k as [|i k _] using rev_ind.
    + cbn [app] in Hn. rewrite Hnr in Hn. injection Hn as <-.
      eapply inside_within; [|exact Hw]. cbn. repeat split; apply Qle_refl.
    + rewrite <- app_assoc in Hn. cbn [app] in Hn. apply (Hin i).
      * apply elem_of_seq.
        assert (is_Some (h !! (i :: r))) as Hi.
        { apply (wf_suffix h Hwf (i :: r) (k ++ i :: r)); [by exists k|eauto]. }
        apply (wf_up_total h Hwf) in Hi as [_ ?]. lia.
      * by exists k.
  - apply Htight.
    + assert (below h r nr) as Hb by by exists [].
      cbn. repeat split; exists nr; by split.
    + intros i n _ [k Hn]. exists (k ++ [i]). by rewrite <- app_assoc.
Qed.

(** [boundary_box] on an object of a well-formed store, with fuel for the
    depth of the store, returns a box that holds every object of the
    subtree and has each of its four sides on one of them. *)
Theorem boundary_box_spec (fuel : nat) (h : heap) (r : ref) :
  wf h -> is_Some (h !! r) -> (size h <= fuel + length r)%nat ->
  exists x0 x1 y0 y1,
    boundary_box fuel h r = Ok (x0, x1, y0, y1) /\
    (forall k n, h !! (k ++ r) = Some n ->
       (x0 <= x n /\ x n <= x1 /\ y0 <= y n /\ y n <= y1)%Q) /\
    (exists k n, h !! (k ++ r) = Some n /\ x0 == x n)%Q /\
    (exists k n, h !! (k ++ r) = Some n /\ x1 == x n)%Q /\
    (exists k n, h !! (k ++ r) = Some n /\ y0 == y n)%Q /\
    (exists k n, h !! (k ++ r) = Some n /\ y1 == y n)%Q.
Proof.
  intros Hwf Hr Hsz.
  destruct (boundary_box_ok fuel h Hwf r Hr Hsz) as ([[[x0 x1] y0] y1] & Hrun & Hin & Ht).
  exists x0, x1, y0, y1. split; [exact Hrun|]. split.
  - intros k n Hn. apply (Hin n). by exists k.
  - destruct Ht as ((n1 & [k1 ?] & ?) & (n2 & [k2 ?] & ?) & (n3 & [k3 ?] & ?)
                    & (n4 & [k4 ?] & ?)).
    repeat split; eauto.
Qed.

Lemma boundary_box_spec_witness :
  exists b, boundary_box (size store1) store1 [] = Ok b.
Proof.
  destruct (boundary_box_spec (size store1) store1 []) as (x0 & x1 & y0 & y1 & Hrun & _).
  - apply init_wf.
  - apply (wf_root _ (init_wf _ _ _)).
  - simpl. lia.
  - eexists. exact Hrun.
Defined.

(** ** Moving subtrees ([buchheim.py]) *)

Lemma alter_total (f : LayoutTree -> LayoutTree) (r q : ref) (h : heap) :
  is_Some (h !! r) ->
  alter f r h !!! q = if decide (q = r) then f (h !!! r) else h !!! q.
Proof.
  intros [n Hn]. rewrite !lookup_total_alt, lookup_alter.
  destruct (decide (q = r)) as [->|Hne].
  - by rewrite decide_True, Hn by done.
  - by rewrite decide_False by done.
Qed.

(** [_shift_subtrees] divides by the difference of the sibling indexes: it
    fails exactly when they are equal (as for twice the same object);
    otherwise it moves [x], [mod] and [shift] of [wr] by the amount, takes
    the amount per subtree from the [change] of [wr] and gives it to the
    [change] of [wl], and leaves every other field and object alone. *)
Theorem shift_subtrees_spec (wl wr : ref) (s : Q) (h : heap) :
  is_Some (h !! wl) -> is_Some (h !! wr) ->
  let d := Z.of_nat (sibling_index (h !!! wr))
           - Z.of_nat (sibling_index (h !!! wl)) in
  (d = 0 -> _shift_subtrees wl wr s h = Raise ZeroDivisionError) /\
  (d <> 0 ->
   exists h',
     _shift_subtrees wl wr s h = Ok h' /\ same_shape h h' /\
     (forall q, q ≠ wl -> q ≠ wr -> h' !! q = h !! q) /\
     x (h' !!! wr) = (x (h !!! wr) + s)%Q /\
     mod_ (h' !!! wr) = (mod_ (h !!! wr) + s)%Q /\
     shift (h' !!! wr) = (shift (h !!! wr) + s)%Q /\
     change (h' !!! wr) = (change (h !!! wr) - s / inject_Z d)%Q /\
     change (h' !!! wl) = (change (h !!! wl) + s / inject_Z d)%Q /\
     x (h' !!! wl) = x (h !!! wl) /\ mod_ (h' !!! wl) = mod_ (h !!! wl) /\
     shift (h' !!! wl) = shift (h !!! wl) /\
     (forall q, _thread (h' !!! q) = _thread (h !!! q) /\
                _ancestor (h' !!! q) = _ancestor (h !!! q) /\
                y (h' !!! q) = y (h !!! q))).
Proof.
  intros Hl Hr d. unfold _shift_subtrees. fold d. split.
  - intros ->. done.
  - intros Hd. destruct (Z.eqb_spec d 0) as [?|_]; [done|].
    assert (wl ≠ wr) as Hne by (intros ->; unfold d in Hd; lia).
    eexists. split; [done|]. unfold_set.
    split; [|split].
    + repeat (eapply same_shape_trans; [|apply same_shape_alter; by intros []]).
      apply same_shape_refl.
    + intros q Hql Hqr. by rewrite !lookup_alter_ne by done.
    + assert (wr ≠ wl) as Hne' by done.
      repeat (rewrite alter_total by (by rewrite ?alter_is_Some);
              rewrite ?decide_True, ?decide_False by done).
      cbn. repeat split; try done.
      all: repeat (rewrite alter_total by (by rewrite ?alter_is_Some));
        repeat case_decide; by subst.
Qed.

Lemma shift_subtrees_spec_witness :
  _shift_subtrees [0%nat] [0%nat] 1 store1 = Raise ZeroDivisionError.
Proof.
  assert (is_Some (store1 !! [0%nat])) as H0.
  { unfold store1. rewrite LayoutTree_init_lookup. vm_compute. eauto. }
  apply (proj1 (shift_subtrees_spec [0%nat] [0%nat] 1 store1 H0 H0)). lia.
Defined.

(** ** Shift aggregation ([buchheim.py]) *)

(** The sweep told in one pass over the children from the right, with the
    running [shift] and [change] starting at 0: a child receives the running
    [shift] on its [x] and [mod]; then [change] grows by the [change] of the
    child and [shift] by the [shift] of the child plus the new [change]. The
    child's [change] and [shift] are those it had before the sweep. *)
Definition sweep_step (h0 : heap) (acc : Q * Q) (w : ref) : Q * Q :=
  let change_ := (acc.2 + change (h0 !!! w))%Q in
  ((acc.1 + (shift (h0 !!! w) + change_))%Q, change_).

Definition sweep_acc (h0 : heap) (ws : list ref) : Q * Q :=
  fold_left (sweep_step h0) ws (0%Q, 0%Q).

Definition bump (s : Q) (n : LayoutTree) : LayoutTree :=
  with_mod (mod_ n + s)%Q (with_x (x n + s)%Q n).

Fixpoint sweep (h0 : heap) (ws : list ref) (acc : Q * Q) (h : heap) : heap :=
  match ws with
  | [] => h
  | w :: ws => sweep h0 ws (sweep_step h0 acc w) (alter (bump acc.1) w h)
  end.

Definition shift_tree_spec (root : ref) (h : heap) : heap :=
  sweep h (rev (children (h !!! root))) (0%Q, 0%Q) h.

(** Two stores with the same [change] and [shift] everywhere. *)
Definition same_rates (h h' : heap) : Prop :=
  forall r, change (h' !!! r) = change (h !!! r) /\
            shift (h' !!! r) = shift (h !!! r).

Lemma alter_total_eq (f g : LayoutTree -> LayoutTree) (w : ref) (h : heap) :
  f (h !!! w) = g (h !!! w) -> alter f w h = alter g w h.
Proof.
  intros E. apply map_eq. intros r. rewrite !lookup_alter.
  destruct (decide (w = r)) as [->|]; [|done].
  rewrite lookup_total_alt in E. destruct (h !! r); simpl in *; [by f_equal|done].
Qed.

Lemma bump_fields (s : Q) (w r : ref) (h : heap) :
  change (alter (bump s) w h !!! r) = change (h !!! r) /\
  shift (alter (bump s) w h !!! r) = shift (h !!! r) /\
  _thread (alter (bump s) w h !!! r) = _thread (h !!! r) /\
  _ancestor (alter (bump s) w h !!! r) = _ancestor (h !!! r) /\
  y (alter (bump s) w h !!! r) = y (h !!! r) /\
  (x (alter (bump s) w h !!! r) - mod_ (alter (bump s) w h !!! r)
   == x (h !!! r) - mod_ (h !!! r))%Q.
Proof.
  rewrite !lookup_total_alt, lookup_alter.
  destruct (decide (w = r)) as [->|]; [|done].
  destruct (h !! r); cbn; repeat split; try done. ring.
Qed.

Lemma shift_step_bump (s c : Q) (h : heap) (w : ref) :
  shift_step (s, c, h) w =
  ((sweep_step h (s, c) w).1, (sweep_step h (s, c) w).2, alter (bump s) w h).
Proof.
  unfold shift_step, sweep_step, set_x, set_mod. cbn [fst snd].
  assert (alter (with_mod (mod_ (alter (with_x (x (h !!! w) + s)%Q) w h !!! w) + s)%Q) w
            (alter (with_x (x (h !!! w) + s)%Q) w h) = alter (bump s) w h) as ->.
  { rewrite alter_alter_eq. apply alter_total_eq. unfold bump, compose.
    rewrite !lookup_total_alt, lookup_alter, decide_True by done.
    by destruct (h !! w). }
  destruct (bump_fields s w w h) as (-> & -> & _). done.
Qed.

Lemma same_rates_bump (s : Q) (w : ref) (h0 h : heap) :
  same_rates h0 h -> same_rates h0 (alter (bump s) w h).
Proof.
  intros Hs r. destruct (Hs r) as [<- <-].
  destruct (bump_fields s w r h) as (-> & -> & _). done.
Qed.

Lemma sweep_step_rates (h0 h : heap) (acc : Q * Q) (w : ref) :
  same_rates h0 h -> sweep_step h acc w = sweep_step h0 acc w.
Proof. intros Hs. unfold sweep_step. by destruct (Hs w) as [-> ->]. Qed.

(** The loop of [_shift_tree] is that sweep. *)
Lemma shift_fold_sweep (h0 : heap) (ws : list ref) (acc : Q * Q) (h : heap) :
  same_rates h0 h ->
  snd (fold_left shift_step ws (acc.1, acc.2, h)) = sweep h0 ws acc h.
Proof.
  revert acc h. induction ws as [|w ws IH]; intros acc h Hs; [done|].
  cbn [fold_left sweep]. rewrite shift_step_bump.
  rewrite (sweep_step_rates h0 h) by done.
  rewrite <- (IH (sweep_step h0 acc w)) by by apply same_rates_bump.
  by destruct acc.
Qed.

Lemma sweep_fields (h0 : heap) (ws : list ref) (acc : Q * Q) (h : heap) (r : ref) :
  same_shape h (sweep h0 ws acc h) /\
  change (sweep h0 ws acc h !!! r) = change (h !!! r) /\
  shift (sweep h0 ws acc h !!! r) = shift (h !!! r) /\
  _thread (sweep h0 ws acc h !!! r) = _thread (h !!! r) /\
  _ancestor (sweep h0 ws acc h !!! r) = _ancestor (h !!! r) /\
  y (sweep h0 ws acc h !!! r) = y (h !!! r) /\
  (x (sweep h0 ws acc h !!! r) - mod_ (sweep h0 ws acc h !!! r)
   == x (h !!! r) - mod_ (h !!! r))%Q.
Proof.
  revert acc h. induction ws as [|w ws IH]; intros acc h; cbn [sweep].
  - by repeat split.
  - destruct (IH (sweep_step h0 acc w) (alter (bump acc.1) w h))
      as (Hs & -> & -> & -> & -> & -> & ->).
    destruct (bump_fields acc.1 w r h) as (-> & -> & -> & -> & -> & ->).
    repeat split; try done.
    eapply same_shape_trans; [|exact Hs]. apply same_shape_alter.
    by intros [].
Qed.

Lemma sweep_lookup_notin (h0 : heap) (ws : list ref) (acc : Q * Q) (h : heap)
    (q : ref) :
  q ∉ ws -> sweep h0 ws acc h !! q = h !! q.
Proof.
  revert acc h. induction ws as [|w ws IH]; intros acc h Hq; [done|].
  apply not_elem_of_cons in Hq as [Hne Hq]. cbn [sweep].
  rewrite IH by done. by rewrite lookup_alter_ne.
Qed.

Lemma sweep_lookup_in (h0 : heap) (ws : list ref) (acc : Q * Q) (h : heap)
    (k : nat) (c : ref) :
  NoDup ws -> ws !! k = Some c ->
  sweep h0 ws acc h !! c
  = bump (fold_left (sweep_step h0) (take k ws) acc).1 <$> h !! c.
Proof.
  revert acc h k. induction ws as [|w ws IH]; intros acc h k Hnd Hk; [done|].
  apply NoDup_cons in Hnd as [Hw Hnd]. cbn [sweep]. destruct k as [|k].
  - injection Hk as ->. rewrite sweep_lookup_notin by done.
    by rewrite lookup_alter_eq.
  - cbn in Hk. rewrite (IH _ _ k) by done. cbn [take fold_left].
    rewrite lookup_alter_ne; [done|]. intros ->.
    apply Hw. by apply list_elem_of_lookup_2 in Hk.
Qed.

(** [_shift_tree] is the sweep from the right with the two running sums:
    it changes nothing but [x] and [mod] of the children of [root]; when
    the children are distinct objects, child [i] has the running shift
    gathered on the children to its right added once to its [x] and once
    to its [mod]. *)
Theorem shift_tree_sweep (root : ref) (h : heap) :
  let h' := _shift_tree root h in
  h' = shift_tree_spec root h /\
  same_shape h h' /\
  (forall q, q ∉ children (h !!! root) -> h' !! q = h !! q) /\
  (forall q, change (h' !!! q) = change (h !!! q) /\
             shift (h' !!! q) = shift (h !!! q) /\
             _thread (h' !!! q) = _thread (h !!! q) /\
             _ancestor (h' !!! q) = _ancestor (h !!! q) /\
             y (h' !!! q) = y (h !!! q)) /\
  (NoDup (children (h !!! root)) ->
   forall i c, children (h !!! root) !! i = Some c ->
     h' !! c
     = bump (sweep_acc h (rev (drop (S i) (children (h !!! root))))).1
         <$> h !! c).
Proof.
  intros h'.
  assert (h' = shift_tree_spec root h) as E.
  { unfold h', _shift_tree, shift_tree_spec.
    by rewrite <- (shift_fold_sweep h _ (0%Q, 0%Q) h). }
  split; [exact E|]. rewrite E. unfold shift_tree_spec.
  split; [apply (sweep_fields h _ _ h [])|].
  split; [|split].
  - intros q Hq. apply sweep_lookup_notin. rewrite rev_alt.
    fold (reverse (children (h !!! root))). by rewrite elem_of_reverse.
  - intros q.
    by destruct (sweep_fields h (rev (children (h !!! root))) (0%Q, 0%Q) h q)
      as (_ & ? & ? & ? & ? & ? & _).
  - intros Hnd i c Hc. set (cs := children (h !!! root)) in *.
    assert (i < length cs)%nat as Hi by by apply lookup_lt_Some in Hc.
    assert (rev cs = reverse cs) as Hrev by apply rev_alt.
    rewrite (sweep_lookup_in h (rev cs) _ h (length cs - S i) c).
    + unfold sweep_acc. rewrite Hrev, take_reverse.
      replace (length cs - (length cs - S i))%nat with (S i) by lia.
      by rewrite (rev_alt (drop (S i) cs)).
    + rewrite Hrev. by rewrite reverse_Permutation.
    + rewrite Hrev, reverse_lookup by lia. rewrite <- Hc. f_equal. lia.
Qed.

Lemma shift_tree_sweep_witness :
  _shift_tree [0%nat] store1 !! [1%nat; 0%nat]
  = bump (sweep_acc store1 (rev (drop 2 (children (store1 !!! [0%nat]))))).1
      <$> store1 !! [1%nat; 0%nat].
Proof.
  apply (proj2 (proj2 (proj2 (proj2 (shift_tree_sweep [0%nat] store1))))).
  - unfold store1. rewrite lookup_total_alt, LayoutTree_init_lookup.
    vm_compute. repeat constructor; set_solver.
  - unfold store1. rewrite lookup_total_alt, LayoutTree_init_lookup. reflexivity.
Defined.

(** ** Directions ([layout.py]) *)

Section Directions.
Context {UID : Type} `{Countable UID}.
Variable key : heap -> ref -> UID.
Variable radial : gmap UID (Q * Q) -> gmap UID (Q * Q).

Lemma transform_axes_linear (positions : gmap UID (Q * Q)) (rankdir : string) :
  positions ≠ ∅ ->
  rankdir = "TB"%string \/ rankdir = "LR"%string \/ rankdir = "RL"%string ->
  exists f : Q * Q -> Q * Q,
    _transform_axes radial positions rankdir = Ok (f <$> positions) /\
    forall p, ((f p).1 == (if String.eqb rankdir "TB" then p.1
                           else if String.eqb rankdir "LR" then p.2 else - p.2) /\
               (f p).2 == (if String.eqb rankdir "TB" then - p.2 else - p.1))%Q.
Proof.
  intros Hne Hdir. unfold _transform_axes.
  rewrite (bool_decide_eq_false_2 _ Hne).
  destruct Hdir as [-> | [-> | ->]]; cbn [String.eqb Ascii.eqb Bool.eqb andb];
    eexists; (split; [reflexivity|]); intros [px py]; cbn; split; ring.
Qed.

(** TB, LR and RL keep the keys of a non-empty dict of positions; turning
    twice with TB, or twice with RL, gives back the coordinates; and LR
    followed by RL is TB. *)
Theorem transform_axes_compose (positions : gmap UID (Q * Q)) (k : UID)
    (px py : Q) :
  positions !! k = Some (px, py) ->
  (forall rankdir,
     rankdir = "TB"%string \/ rankdir = "LR"%string \/ rankdir = "RL"%string ->
     exists m, _transform_axes radial positions rankdir = Ok m /\
               dom m = dom positions) /\
  (forall rankdir, rankdir = "TB"%string \/ rankdir = "RL"%string ->
     exists m1 m2 qx qy,
       _transform_axes radial positions rankdir = Ok m1 /\
       _transform_axes radial m1 rankdir = Ok m2 /\
       m2 !! k = Some (qx, qy) /\ qx == px /\ qy == py)%Q /\
  (exists m1 m2 m3 qx qy tx ty,
     _transform_axes radial positions "LR" = Ok m1 /\
     _transform_axes radial m1 "RL" = Ok m2 /\
     _transform_axes radial positions "TB" = Ok m3 /\
     m2 !! k = Some (qx, qy) /\ m3 !! k = Some (tx, ty) /\
     qx == tx /\ qy == ty)%Q.
Proof.
  intros Hk.
  assert (positions ≠ ∅) as Hne by (intros ->; by rewrite lookup_empty in Hk).
  assert (forall f : Q * Q -> Q * Q, f <$> positions ≠ ∅) as Hne'.
  { intros f E. apply fmap_empty_inv in E. done. }
  split; [|split].
  - intros rankdir Hdir.
    destruct (transform_axes_linear positions rankdir Hne Hdir) as (f & -> & _).
    eexists. split; [done|]. apply dom_fmap_L.
  - intros rankdir Hdir.
    assert (rankdir = "TB"%string \/ rankdir = "LR"%string \/ rankdir = "RL"%string)
      as Hdir' by tauto.
    destruct (transform_axes_linear positions rankdir Hne Hdir') as (f & E1 & Hf).
    destruct (transform_axes_linear (f <$> positions) rankdir (Hne' f) Hdir')
      as (g & E2 & Hg).
    exists (f <$> positions), (g <$> (f <$> positions)), (g (f (px, py))).1,
      (g (f (px, py))).2.
    split; [done|]. split; [done|].
    split; [rewrite !lookup_fmap, Hk; cbn [fmap option_fmap option_map];
           by destruct (g (f (px, py)))|].
    destruct (Hg (f (px, py))) as [-> ->], (Hf (px, py)) as [E3 E4].
    destruct Hdir as [-> | ->]; cbn [String.eqb Ascii.eqb Bool.eqb andb] in *;
      rewrite ?E3, ?E4; cbn; split; ring.
  - destruct (transform_axes_linear positions "LR" Hne) as (f & E1 & Hf); [tauto|].
    destruct (transform_axes_linear (f <$> positions) "RL" (Hne' f))
      as (g & E2 & Hg); [tauto|].
    destruct (transform_axes_linear positions "TB" Hne) as (t & E3 & Ht); [tauto|].
    exists (f <$> positions), (g <$> (f <$> positions)), (t <$> positions),
      (g (f (px, py))).1, (g (f (px, py))).2, (t (px, py)).1, (t (px, py)).2.
    split; [done|]. split; [done|]. split; [done|].
    split; [rewrite !lookup_fmap, Hk; cbn [fmap option_fmap option_map];
           by destruct (g (f (px, py)))|].
    split; [rewrite !lookup_fmap, Hk; cbn [fmap option_fmap option_map];
           by destruct (t (px, py))|].
    destruct (Hg (f (px, py))) as [-> ->], (Hf (px, py)) as [E4 E5],
      (Ht (px, py)) as [-> ->].
    cbn [String.eqb Ascii.eqb Bool.eqb andb] in *. rewrite ?E4, ?E5. cbn.
    split; ring.
Qed.

(** The direction only acts on the positions: when [render_tree] returns
    for TB, LR or RL, it returns for BT as well, with the same branches,
    leaves and edges and with positions for the same keys. *)
Theorem render_tree_direction (tree : Tree) (keep_root : bool)
    (depth_limit : Z) (rankdir : string) (out : layout) :
  rankdir = "TB"%string \/ rankdir = "LR"%string \/ rankdir = "RL"%string ->
  render_tree key radial tree keep_root depth_limit rankdir = Ok out ->
  exists out0,
    render_tree key radial tree keep_root depth_limit "BT" = Ok out0 /\
    branches out = branches out0 /\ leaves out = leaves out0 /\
    edges out = edges out0 /\ dom (positions out) = dom (positions out0).
Proof.
  intros Hdir. unfold render_tree.
  destruct (buchheim _ _) as [[b h]|e]; [|done]. cbn [mbind result_bind].
  destruct (extract_tree_layout key h _) as [out0|e]; [|done].
  cbn [mbind result_bind String.eqb negb].
  assert (String.eqb rankdir "BT" = false) as ->
    by (destruct Hdir as [-> | [-> | ->]]; reflexivity).
  cbn [negb]. intros Hrun. exists out0. split; [done|].
  destruct (decide (positions out0 = ∅)) as [He|Hne].
  - rewrite He in Hrun. unfold _transform_axes in Hrun.
    rewrite bool_decide_eq_true_2 in Hrun by done.
    by destruct Hdir as [-> | [-> | ->]].
  - destruct (transform_axes_linear (positions out0) rankdir Hne Hdir)
      as (f & E & _).
    rewrite E in Hrun. cbn in Hrun. injection Hrun as <-. cbn.
    by rewrite dom_fmap_L.
Qed.
End Directions.

Lemma transform_axes_compose_witness :
  exists m, _transform_axes (fun m => m) ({[ 7%nat := (1 # 2, 1)%Q ]} : gmap nat (Q * Q)) "RL" = Ok m /\
            dom m = dom ({[ 7%nat := (1 # 2, 1)%Q ]} : gmap nat (Q * Q)).
Proof.
  apply (proj1 (transform_axes_compose (fun m => m) {[ 7%nat := (1 # 2, 1)%Q ]}
                  7%nat (1 # 2) 1 (lookup_singleton_eq _ _))).
  right. right. reflexivity.
Defined.

Lemma render_tree_direction_witness :
  exists out0,
    render_tree id_key no_radial (build_tree words1) false 10 "BT" = Ok out0 /\
    length (edges out0) = 5%nat.
Proof.
  assert (exists out, render_tree id_key no_radial (build_tree words1) false 10 "LR"
                      = Ok out /\ length (edges out) = 5%nat) as (out & Hrun & Hlen).
  { vm_compute. eexists. split; reflexivity. }
  destruct (render_tree_direction id_key no_radial (build_tree words1) false 10
              "LR" out) as (out0 & Hrun0 & _ & _ & He & _).
  - right. left. reflexivity.
  - exact Hrun.
  - exists out0. split; [exact Hrun0|]. by rewrite <- He.
Defined.

(** ** Preparing the word list ([utils.py]) *)

(** [a <= b] on strings: code point by code point, a proper prefix first. *)
Definition str_le (a b : string) : Prop := String.leb a b = true.

#[global] Instance str_le_dec : RelDecision str_le.
Proof. intros a b. unfold str_le. apply _. Defined.

Lemma ascii_compare_Lt_trans (a b c : ascii) :
  Ascii.compare a b = Lt -> Ascii.compare b c = Lt -> Ascii.compare a c = Lt.
Proof.
  unfold Ascii.compare. rewrite !N.compare_lt_iff. apply N.lt_trans.
Qed.

Lemma string_compare_refl (s : string) : String.compare s s = Eq.
Proof.
  induction s as [|a s IH]; [done|]. cbn.
  unfold Ascii.compare. by rewrite N.compare_refl.
Qed.

Lemma string_compare_Lt_trans (s1 s2 s3 : string) :
  String.compare s1 s2 = Lt -> String.compare s2 s3 = Lt ->
  String.compare s1 s3 = Lt.
Proof.
  revert s2 s3. induction s1 as [|a s1 IH]; intros [|b s2] [|c s3]; cbn; try done.
  destruct (Ascii.compare a b) eqn:Eab; try done;
    destruct (Ascii.compare b c) eqn:Ebc; try done.
  - apply Ascii.compare_eq_iff in Eab, Ebc. subst.
    unfold Ascii.compare. rewrite N.compare_refl. apply IH.
  - apply Ascii.compare_eq_iff in Eab. subst. by rewrite Ebc.
  - apply Ascii.compare_eq_iff in Ebc. subst. by rewrite Eab.
  - by rewrite (ascii_compare_Lt_trans a b c).
Qed.

#[global] Instance str_le_trans : Transitive str_le.
Proof.
  intros s1 s2 s3. unfold str_le, String.leb.
  destruct (String.compare s1 s2) eqn:E12; try done;
    destruct (String.compare s2 s3) eqn:E23; try done; intros _ _.
  - apply String.compare_eq_iff in E12, E23. subst.
    by rewrite string_compare_refl.
  - apply String.compare_eq_iff in E12. subst. by rewrite E23.
  - apply String.compare_eq_iff in E23. subst. by rewrite E12.
  - by rewrite (string_compare_Lt_trans s1 s2 s3).
Qed.

#[global] Instance str_le_total : Total str_le.
Proof. intros a b. apply String.leb_total. Qed.

#[global] Instance str_le_antisym : AntiSymm (=) str_le.
Proof. intros a b. apply String.leb_antisym. Qed.

Section Preprocess.
(** [str.upper], which the embedding does not fix. *)
Variable upper : string -> string.

(** [sorted({w.upper() for w in words if w})] *)
Definition preprocess_word_list (words : list string) : list string :=
  merge_sort str_le
    (remove_dups (upper <$> filter (fun w => w ≠ EmptyString) words)).

Lemma preprocess_elem (words : list string) (u : string) :
  u ∈ preprocess_word_list words <->
  exists w, w ∈ words /\ w ≠ EmptyString /\ u = upper w.
Proof.
  unfold preprocess_word_list.
  rewrite merge_sort_Permutation, elem_of_remove_dups, list_elem_of_fmap.
  setoid_rewrite list_elem_of_filter. naive_solver.
Qed.

(** The result lists the upper-cased non-empty words, each once, in
    strictly increasing order; hence it only depends on which words occur,
    not on their order or number; and it holds no empty string when
    [upper] makes none. *)
Theorem preprocess_word_list_spec (words : list string) :
  (forall u, u ∈ preprocess_word_list words <->
             exists w, w ∈ words /\ w ≠ EmptyString /\ u = upper w) /\
  StronglySorted (fun a b => String.ltb a b = true) (preprocess_word_list words) /\
  (forall words',
     (forall w, w ≠ EmptyString -> w ∈ words <-> w ∈ words') ->
     preprocess_word_list words' = preprocess_word_list words) /\
  ((forall w, w ≠ EmptyString -> upper w ≠ EmptyString) ->
   EmptyString ∉ preprocess_word_list words).
Proof.
  assert (forall ws, NoDup (preprocess_word_list ws)) as Hnd.
  { intros ws. unfold preprocess_word_list.
    rewrite merge_sort_Permutation. apply NoDup_remove_dups. }
  assert (forall ws, StronglySorted str_le (preprocess_word_list ws)) as Hs.
  { intros ws. apply StronglySorted_merge_sort; apply _. }
  split; [apply preprocess_elem|]. split; [|split].
  - specialize (Hnd words). specialize (Hs words).
    induction Hs as [|a l Hl IH Ha]; [constructor|].
    apply NoDup_cons in Hnd as [Hal Hnd]. constructor; [by apply IH|].
    rewrite Forall_forall in Ha |- *. intros b Hb. specialize (Ha b Hb).
    unfold str_le, String.leb in Ha. unfold String.ltb.
    destruct (String.compare a b) eqn:E; try done.
    apply String.compare_eq_iff in E. by subst.
  - intros words' Hsame. apply (StronglySorted_unique str_le); [apply Hs..|].
    apply NoDup_Permutation; [apply Hnd..|].
    intros u. rewrite !preprocess_elem. split.
    + intros (w & Hw & Hne & ->). exists w. by rewrite (Hsame w Hne).
    + intros (w & Hw & Hne & ->). exists w. by rewrite <- (Hsame w Hne).
  - intros Hup (w & Hw & Hne & Hu)%preprocess_elem. by apply (Hup w).
Qed.
End Preprocess.

Lemma preprocess_word_list_spec_witness :
  preprocess_word_list (fun w => w) ["b"; "a"; "b"; ""]%string
  = preprocess_word_list (fun w => w) ["a"; "b"]%string.
Proof.
  apply (proj1 (proj2 (proj2 (preprocess_word_list_spec (fun w => w)
                                ["a"; "b"]%string)))).
  intros w Hw. rewrite !elem_of_cons, !elem_of_nil. naive_solver.
Defined.


(** ** The first walk ([buchheim.py]) *)

(** *** Contours *)

(** [k] steps along a contour from [v]. *)
Fixpoint chain (next : ref -> option ref) (k : nat) (v : ref) : option ref :=
  match k with
  | O => Some v
  | S k => chain next k v ≫= next
  end.

Lemma chain_front (next : ref -> option ref) (k : nat) (v : ref) :
  chain next (S k) v = next v ≫= chain next k.
Proof.
  induction k as [|k IH].
  - cbn. by destruct (next v).
  - change (chain next (S (S k)) v) with (chain next (S k) v ≫= next).
    rewrite IH. cbn [chain]. by destruct (next v).
Qed.

Lemma chain_add (next : ref -> option ref) (k m : nat) (v : ref) :
  chain next (k + m) v = chain next k v ≫= chain next m.
Proof.
  induction m as [|m IH].
  - rewrite Nat.add_0_r. by destruct (chain next k v).
  - rewrite Nat.add_succ_r. cbn [chain]. rewrite IH.
    by destruct (chain next k v).
Qed.

Lemma chain_ext (next next' : ref -> option ref) (k : nat) (v : ref) :
  (forall i u, (i < k)%nat -> chain next i v = Some u -> next' u = next u) ->
  chain next' k v = chain next k v.
Proof.
  induction k as [|k IH]; intros Hext; [done|]. cbn [chain].
  rewrite IH by (intros i u Hi; apply Hext; lia).
  destruct (chain next k v) as [u|] eqn:E; [|done]. cbn.
  apply (Hext k); [lia|done].
Qed.

Lemma chain_is_Some_le (next : ref -> option ref) (k k' : nat) (v : ref) :
  (k' <= k)%nat -> is_Some (chain next k v) -> is_Some (chain next k' v).
Proof.
  intros Hle. replace k with (k' + (k - k'))%nat by lia. rewrite chain_add.
  destruct (chain next k' v); [eauto|]. by intros [? ?].
Qed.

(** [l] is an object of the store, [k] levels below [v]. *)
Definition on_level (h : heap) (v : ref) (k : nat) (l : ref) : Prop :=
  exists q, l = q ++ v /\ length q = k /\ is_Some (h !! l).

(** The subtree of [v] reaches [k] levels down. *)
Definition deep (h : heap) (v : ref) (k : nat) : Prop :=
  exists l, on_level h v k l.

(** The objects below the children [0..j] of [p]. *)
Definition in_forest (p : ref) (j : nat) (q : ref) : Prop :=
  exists i, (i <= j)%nat /\ (i :: p) `suffix_of` q.

Definition on_flevel (h : heap) (p : ref) (j k : nat) (l : ref) : Prop :=
  exists i, (i <= j)%nat /\ on_level h (i :: p) k l.

Definition fdeep (h : heap) (p : ref) (j k : nat) : Prop :=
  exists l, on_flevel h p j k l.

Lemma on_level_shape h h' v k l :
  same_shape h h' -> on_level h v k l -> on_level h' v k l.
Proof.
  intros Hs (q & -> & Hk & Hd). exists q. repeat split; [done|].
  by apply (same_shape_is_Some _ _ _ Hs).
Qed.

Lemma same_shape_sym h h' : same_shape h h' -> same_shape h' h.
Proof. intros Hs r. by rewrite Hs. Qed.

Lemma on_level_suffix h v k l : on_level h v k l -> v `suffix_of` l.
Proof. intros (q & -> & _). by exists q. Qed.

Lemma on_level_length h v k l : on_level h v k l -> length l = (k + length v)%nat.
Proof. intros (q & -> & <- & _). by rewrite length_app. Qed.

Lemma on_level_dom h v k l : on_level h v k l -> is_Some (h !! l).
Proof. by intros (q & -> & _ & ?). Qed.

Lemma on_level_0 h v l : on_level h v 0 l <-> l = v /\ is_Some (h !! v).
Proof.
  split.
  - intros (q & -> & Hq & Hd). destruct q; [done|done].
  - intros [-> Hd]. by exists [].
Qed.

(** One level further down is one level down from a child. *)
Lemma on_level_S h (Hwf : wf h) v k l :
  on_level h v (S k) l <->
  exists i, (i < arity h v)%nat /\ on_level h (i :: v) k l.
Proof.
  split.
  - intros (q & -> & Hq & Hd).
    destruct q as [|i q _] using rev_ind; [done|].
    rewrite length_app in Hq. cbn in Hq. rewrite <- app_assoc in Hd |- *.
    cbn [app] in *. exists i. split.
    + assert (is_Some (h !! (i :: v))) as Hi
        by (apply (wf_suffix h Hwf (i :: v) (q ++ i :: v)); [by exists q|done]).
      by apply (wf_up_total h Hwf) in Hi as [_ ?].
    + exists q. repeat split; [lia|done].
  - intros (i & Hi & q & -> & Hq & Hd). exists (q ++ [i]).
    rewrite <- app_assoc, length_app. cbn. repeat split; [lia|done].
Qed.

Lemma on_level_step h (Hwf : wf h) v k l c :
  on_level h v k l -> c ∈ children (h !!! l) -> on_level h v (S k) c.
Proof.
  intros (q & -> & Hq & Hd) Hc.
  apply (children_elem h Hwf) in Hc as (i & Hi & ->); [|done].
  exists (i :: q). cbn. repeat split; [lia|]. by apply (wf_down_total h Hwf).
Qed.

Lemma next_left_shape h h' r :
  same_shape h h' -> thread h' r = thread h r ->
  next_left h' r = next_left h r.
Proof.
  intros Hs Ht. unfold next_left, is_leaf.
  by rewrite (same_shape_children _ _ _ Hs), Ht.
Qed.

Lemma next_right_shape h h' r :
  same_shape h h' -> thread h' r = thread h r ->
  next_right h' r = next_right h r.
Proof.
  intros Hs Ht. unfold next_right, is_leaf.
  by rewrite (same_shape_children _ _ _ Hs), Ht.
Qed.

Lemma next_left_inner h (Hwf : wf h) r :
  is_Some (h !! r) -> (0 < arity h r)%nat -> next_left h r = Some (0%nat :: r).
Proof.
  intros Hr Ha. unfold next_left. rewrite (is_leaf_arity h).
  rewrite bool_decide_eq_false_2 by lia.
  rewrite (head_children h Hwf) by done. by rewrite decide_True.
Qed.

Lemma next_right_inner h (Hwf : wf h) r :
  is_Some (h !! r) -> (0 < arity h r)%nat ->
  next_right h r = Some (pred (arity h r) :: r).
Proof.
  intros Hr Ha. unfold next_right. rewrite (is_leaf_arity h).
  rewrite bool_decide_eq_false_2 by lia.
  rewrite (last_children h Hwf) by done. by rewrite decide_True.
Qed.

Lemma next_left_leaf h r : arity h r = 0%nat -> next_left h r = thread h r.
Proof.
  intros Ha. unfold next_left. rewrite (is_leaf_arity h).
  by rewrite bool_decide_eq_true_2.
Qed.

Lemma next_right_leaf h r : arity h r = 0%nat -> next_right h r = thread h r.
Proof.
  intros Ha. unfold next_right. rewrite (is_leaf_arity h).
  by rewrite bool_decide_eq_true_2.
Qed.

(** An object with a contour successor that is not a child is a leaf with
    a thread. *)
Lemma next_left_None h (Hwf : wf h) r :
  is_Some (h !! r) -> next_left h r = None ->
  arity h r = 0%nat /\ thread h r = None.
Proof.
  intros Hr Hn. destruct (decide (arity h r = 0%nat)) as [Ha|Ha].
  - split; [done|]. by rewrite <- (next_left_leaf h r Ha).
  - rewrite (next_left_inner h Hwf) in Hn by (done || lia). done.
Qed.

Lemma next_right_None h (Hwf : wf h) r :
  is_Some (h !! r) -> next_right h r = None ->
  arity h r = 0%nat /\ thread h r = None.
Proof.
  intros Hr Hn. destruct (decide (arity h r = 0%nat)) as [Ha|Ha].
  - split; [done|]. by rewrite <- (next_right_leaf h r Ha).
  - rewrite (next_right_inner h Hwf) in Hn by (done || lia). done.
Qed.

(** The contours of the subtree of [v]: both run inside the subtree, one
    level per step, and reach every level the subtree has. *)
Record CT (h : heap) (v : ref) : Prop := {
  ct_left : forall k l, chain (next_left h) k v = Some l -> on_level h v k l;
  ct_right : forall k l, chain (next_right h) k v = Some l -> on_level h v k l;
  ct_deep : forall k, deep h v k ->
    is_Some (chain (next_left h) k v) /\ is_Some (chain (next_right h) k v)
}.

(** The contours of the forest of the children [0..j] of [p]: the left
    one starts at child 0, the right one at child [j]. *)
Record CF (h : heap) (p : ref) (j : nat) : Prop := {
  cf_left : forall k l,
    chain (next_left h) k (0%nat :: p) = Some l -> on_flevel h p j k l;
  cf_right : forall k l,
    chain (next_right h) k (j :: p) = Some l -> on_flevel h p j k l;
  cf_deep : forall k, fdeep h p j k ->
    is_Some (chain (next_left h) k (0%nat :: p)) /\
    is_Some (chain (next_right h) k (j :: p))
}.

Lemma CT_leaf h (Hwf : wf h) v :
  is_Some (h !! v) -> arity h v = 0%nat -> thread h v = None -> CT h v.
Proof.
  intros Hv Ha Ht.
  assert (forall next, next v = None ->
            forall k l, chain next k v = Some l -> on_level h v k l) as Hc.
  { intros next Hn [|k] l.
    - intros [= <-]. by apply on_level_0.
    - by rewrite chain_front, Hn. }
  split.
  - apply Hc. by rewrite next_left_leaf.
  - apply Hc. by rewrite next_right_leaf.
  - intros [|k] [l Hl]; [by eauto|].
    apply (on_level_S h Hwf) in Hl as (i & Hi & _). lia.
Qed.

Lemma CF_single h p : CT h (0%nat :: p) -> CF h p 0.
Proof.
  intros [Hl Hr Hd]. split.
  - intros k l Hc. exists 0%nat. split; [lia|]. by apply Hl.
  - intros k l Hc. exists 0%nat. split; [lia|]. by apply Hr.
  - intros k (l & i & Hi & Hl'). apply Hd. exists l.
    by replace i with 0%nat in Hl' by lia.
Qed.

Lemma CT_parent h (Hwf : wf h) p j :
  is_Some (h !! p) -> arity h p = S j -> CF h p j -> CT h p.
Proof.
  intros Hp Ha [Hl Hr Hd].
  assert (forall k l, on_flevel h p j k l -> on_level h p (S k) l) as Hup.
  { intros k l (i & Hi & Hl'). apply (on_level_S h Hwf). exists i.
    split; [lia|done]. }
  split.
  - intros [|k] l.
    + intros [= <-]. by apply on_level_0.
    + rewrite chain_front, (next_left_inner h Hwf) by (done || lia).
      cbn. intros Hc. by apply Hup, Hl.
  - intros [|k] l.
    + intros [= <-]. by apply on_level_0.
    + rewrite chain_front, (next_right_inner h Hwf) by (done || lia).
      rewrite Ha. cbn. intros Hc. by apply Hup, Hr.
  - intros [|k] [l Hl']; [by eauto|].
    rewrite !chain_front, (next_left_inner h Hwf), (next_right_inner h Hwf)
      by (done || lia).
    rewrite Ha. cbn. apply Hd.
    apply (on_level_S h Hwf) in Hl' as (i & Hi & Hl').
    exists l, i. split; [lia|done].
Qed.

(** The contours only read the threads of the objects they visit. *)
Lemma CT_frame h h' v :
  same_shape h h' ->
  (forall q, v `suffix_of` q -> thread h' q = thread h q) ->
  CT h v -> CT h' v.
Proof.
  intros Hs Ht [Hl Hr Hd].
  assert (forall k, chain (next_left h') k v = chain (next_left h) k v) as El.
  { intros k. apply chain_ext. intros i u _ Hu. apply next_left_shape; [done|].
    apply Ht. by apply (on_level_suffix h v i), Hl. }
  assert (forall k, chain (next_right h') k v = chain (next_right h) k v) as Er.
  { intros k. apply chain_ext. intros i u _ Hu. apply next_right_shape; [done|].
    apply Ht. by apply (on_level_suffix h v i), Hr. }
  split.
  - intros k l. rewrite El. intros Hc. by apply (on_level_shape h), Hl.
  - intros k l. rewrite Er. intros Hc. by apply (on_level_shape h), Hr.
  - intros k [l Hl']. rewrite El, Er. apply Hd. exists l.
    by apply (on_level_shape h'); [apply same_shape_sym|].
Qed.

Lemma on_flevel_forest h p j k l : on_flevel h p j k l -> in_forest p j l.
Proof.
  intros (i & Hi & Hl). exists i. split; [done|]. by apply (on_level_suffix h _ k).
Qed.

Lemma CF_frame h h' p j :
  same_shape h h' ->
  (forall q, in_forest p j q -> thread h' q = thread h q) ->
  CF h p j -> CF h' p j.
Proof.
  intros Hs Ht [Hl Hr Hd].
  assert (forall k l, on_flevel h p j k l -> on_flevel h' p j k l) as Hf.
  { intros k l (i & Hi & Hl'). exists i. split; [done|].
    by apply (on_level_shape h). }
  assert (forall k, chain (next_left h') k (0%nat :: p)
                    = chain (next_left h) k (0%nat :: p)) as El.
  { intros k. apply chain_ext. intros i u _ Hu. apply next_left_shape; [done|].
    apply Ht. by apply (on_flevel_forest h p j i), Hl. }
  assert (forall k, chain (next_right h') k (j :: p)
                    = chain (next_right h) k (j :: p)) as Er.
  { intros k. apply chain_ext. intros i u _ Hu. apply next_right_shape; [done|].
    apply Ht. by apply (on_flevel_forest h p j i), Hr. }
  split.
  - intros k l. rewrite El. intros Hc. by apply Hf, Hl.
  - intros k l. rewrite Er. intros Hc. by apply Hf, Hr.
  - intros k (l & i & Hi & Hl'). rewrite El, Er. apply Hd. exists l, i.
    split; [done|]. by apply (on_level_shape h'); [apply same_shape_sym|].
Qed.

(** *** Joining the contours of a forest and of the next subtree *)

Lemma chain_graft (next next' : ref -> option ref) (t s : nat)
    (a b w tgt : ref) :
  chain next t a = Some w ->
  (forall i u, (i < t)%nat -> chain next i a = Some u -> next' u = next u) ->
  next' w = Some tgt ->
  chain next s b = Some tgt ->
  (forall i u, chain next (s + i) b = Some u -> next' u = next u) ->
  forall m, chain next' (t + S m) a = chain next (s + m) b.
Proof.
  intros Ha Hpre Hw Hb Hpost m.
  rewrite chain_add, (chain_ext next next' t a), Ha by done. cbn [mbind option_bind].
  rewrite chain_front, Hw. cbn [mbind option_bind].
  rewrite chain_add, Hb. cbn [mbind option_bind].
  apply chain_ext. intros i u _ Hu. apply (Hpost i).
  by rewrite chain_add, Hb.
Qed.

Lemma deep_le h (Hwf : wf h) v k k' :
  deep h v k -> (k' <= k)%nat -> deep h v k'.
Proof.
  intros (l & q & -> & Hq & Hd) Hle.
  exists (drop (k - k') q ++ v), (drop (k - k') q). repeat split.
  - rewrite length_drop. lia.
  - apply (wf_suffix h Hwf _ (q ++ v)); [|done].
    exists (take (k - k') q). by rewrite app_assoc, take_drop.
Qed.

Lemma fdeep_le h (Hwf : wf h) p j k k' :
  fdeep h p j k -> (k' <= k)%nat -> fdeep h p j k'.
Proof.
  intros (l & i & Hi & Hl) Hle.
  destruct (deep_le h Hwf (i :: p) k k') as [l' Hl']; [by exists l|done|].
  by exists l', i.
Qed.

Lemma on_flevel_mono h p j j' k l :
  (j <= j')%nat -> on_flevel h p j k l -> on_flevel h p j' k l.
Proof. intros Hle (i & Hi & Hl). exists i. split; [lia|done]. Qed.

Lemma forest_tree_disjoint p j q :
  in_forest p j q -> ~ (S j :: p) `suffix_of` q.
Proof.
  intros (i & Hi & Hs) Hs'.
  pose proof (region_disjoint _ _ _ _ Hs Hs'). lia.
Qed.

Lemma on_level_neq h v k k' l l' :
  on_level h v k l -> on_level h v k' l' -> k ≠ k' -> l ≠ l'.
Proof.
  intros Hl Hl' Hne ->. apply on_level_length in Hl, Hl'. lia.
Qed.

Lemma on_flevel_length h p j k l :
  on_flevel h p j k l -> length l = (k + S (length p))%nat.
Proof. intros (i & _ & Hl). by apply on_level_length in Hl. Qed.

Lemma fdeep_split h p j k :
  fdeep h p (S j) k <-> fdeep h p j k \/ deep h (S j :: p) k.
Proof.
  split.
  - intros (l & i & Hi & Hl). destruct (decide (i = S j)) as [->|Hne].
    + right. by exists l.
    + left. exists l, i. split; [lia|done].
  - intros [(l & i & Hi & Hl)|[l Hl]].
    + exists l, i. split; [lia|done].
    + exists l, (S j). split; [lia|done].
Qed.

Section Merge.
Variables (h h' : heap) (p : ref) (j t : nat) (vil vir vol vor : ref).
Hypothesis Hwf : wf h.
Hypothesis HCF : CF h p j.
Hypothesis HCT : CT h (S j :: p).
Hypothesis Hvil : chain (next_right h) t (j :: p) = Some vil.
Hypothesis Hvir : chain (next_left h) t (S j :: p) = Some vir.
Hypothesis Hvol : chain (next_left h) t (0%nat :: p) = Some vol.
Hypothesis Hvor : chain (next_right h) t (S j :: p) = Some vor.
Hypothesis Hshape : same_shape h h'.

Lemma merge_prefix_left k :
  (k <= t)%nat -> is_Some (chain (next_left h) k (0%nat :: p)).
Proof. intros Hk. apply (chain_is_Some_le _ t); [done|by rewrite Hvol]. Qed.

Lemma merge_prefix_right k :
  (k <= t)%nat -> is_Some (chain (next_right h) k (S j :: p)).
Proof. intros Hk. apply (chain_is_Some_le _ t); [done|by rewrite Hvor]. Qed.

Lemma merge_tree_shallow k :
  next_left h vir = None \/ next_right h vor = None ->
  deep h (S j :: p) k -> (k <= t)%nat.
Proof.
  intros Hn Hd. destruct (decide (k <= t)%nat) as [|Hgt]; [done|exfalso].
  destruct (ct_deep _ _ HCT (S t)) as [Hl Hr].
  { apply (deep_le h Hwf _ k); [done|lia]. }
  cbn [chain] in Hl, Hr. rewrite Hvir in Hl. rewrite Hvor in Hr. cbn in Hl, Hr.
  destruct Hn as [Hn|Hn]; rewrite Hn in *; by destruct Hl, Hr.
Qed.

Lemma merge_forest_shallow k :
  next_left h vol = None \/ next_right h vil = None ->
  fdeep h p j k -> (k <= t)%nat.
Proof.
  intros Hn Hd. destruct (decide (k <= t)%nat) as [|Hgt]; [done|exfalso].
  destruct (cf_deep _ _ _ HCF (S t)) as [Hl Hr].
  { apply (fdeep_le h Hwf _ _ k); [done|lia]. }
  cbn [chain] in Hl, Hr. rewrite Hvol in Hl. rewrite Hvil in Hr. cbn in Hl, Hr.
  destruct Hn as [Hn|Hn]; rewrite Hn in *; by destruct Hl, Hr.
Qed.

(** Equal depths: nothing to join. *)
Lemma CF_merge_none :
  next_right h vil = None -> next_left h vir = None -> CF h p (S j).
Proof.
  intros Hnl Hnr. split.
  - intros k l Hc. apply (on_flevel_mono h p j); [lia|].
    by apply (cf_left _ _ _ HCF).
  - intros k l Hc. exists (S j). split; [lia|]. by apply (ct_right _ _ HCT).
  - intros k [Hd|Hd]%fdeep_split.
    + assert (k <= t)%nat by (apply merge_forest_shallow; auto).
      split; [by apply merge_prefix_left|by apply merge_prefix_right].
    + assert (k <= t)%nat by (apply merge_tree_shallow; auto).
      split; [by apply merge_prefix_left|by apply merge_prefix_right].
Qed.

Lemma fdeep_shape k : fdeep h' p (S j) k -> fdeep h p (S j) k.
Proof.
  intros (l & i & Hi & Hl). exists l, i. split; [done|].
  by apply (on_level_shape h'); [apply same_shape_sym|].
Qed.

Lemma on_flevel_shape j' k l : on_flevel h p j' k l -> on_flevel h' p j' k l.
Proof.
  intros (i & Hi & Hl). exists i. split; [done|]. by apply (on_level_shape h).
Qed.

Lemma next_other u :
  thread h' u = thread h u ->
  next_left h' u = next_left h u /\ next_right h' u = next_right h u.
Proof.
  intros Ht. split; [by apply next_left_shape|by apply next_right_shape].
Qed.

(** The forest is deeper: the right contour of the subtree goes on, by a
    thread from its last object, along the right contour of the forest. *)
Lemma CF_merge_right (nr : ref) :
  next_right h vil = Some nr -> next_right h vor = None ->
  (forall u, u ≠ vor -> thread h' u = thread h u) ->
  thread h' vor = Some nr ->
  CF h' p (S j).
Proof.
  intros Hnr Hvorn Hthr Hthr'.
  pose proof (ct_right _ _ HCT _ _ Hvor) as Hvor_lvl.
  assert (next_right h' vor = Some nr) as Hnext.
  { destruct (next_right_None h Hwf vor (on_level_dom _ _ _ _ Hvor_lvl) Hvorn)
      as [Ha _].
    rewrite next_right_leaf; [done|]. unfold arity in *.
    by rewrite (same_shape_children _ _ _ Hshape). }
  assert (forall u, in_forest p j u -> u ≠ vor) as Hforest.
  { intros u Hu ->. apply (forest_tree_disjoint _ _ _ Hu).
    by apply (on_level_suffix h _ t). }
  assert (forall k, chain (next_left h') k (0%nat :: p)
                    = chain (next_left h) k (0%nat :: p)) as El.
  { intros k. apply chain_ext. intros i u _ Hu. apply next_other, Hthr, Hforest.
    by apply (on_flevel_forest h p j i), (cf_left _ _ _ HCF). }
  assert (forall k, (k <= t)%nat ->
            chain (next_right h') k (S j :: p)
            = chain (next_right h) k (S j :: p)) as Er.
  { intros k Hk. apply chain_ext. intros i u Hi Hu. apply next_other, Hthr.
    apply (on_level_neq h (S j :: p) i t); [by apply (ct_right _ _ HCT)|done|lia]. }
  assert (chain (next_right h) (S t) (j :: p) = Some nr) as Hnr'.
  { cbn [chain]. by rewrite Hvil. }
  assert (forall m, chain (next_right h') (t + S m) (S j :: p)
                    = chain (next_right h) (S t + m) (j :: p)) as Er'.
  { apply (chain_graft _ _ t (S t) _ _ vor nr); try done.
    - intros i u Hi Hu. apply next_other, Hthr.
      apply (on_level_neq h (S j :: p) i t);
        [by apply (ct_right _ _ HCT)|done|lia].
    - intros i u Hu. apply next_other, Hthr, Hforest.
      by apply (on_flevel_forest h p j (S t + i)), (cf_right _ _ _ HCF). }
  split.
  - intros k l. rewrite El. intros Hc. apply on_flevel_shape.
    apply (on_flevel_mono h p j); [lia|]. by apply (cf_left _ _ _ HCF).
  - intros k l. destruct (decide (k <= t)%nat) as [Hk|Hk].
    + rewrite Er by done. intros Hc. apply on_flevel_shape.
      exists (S j). split; [lia|]. by apply (ct_right _ _ HCT).
    + replace k with (t + S (k - S t))%nat by lia. rewrite Er'. intros Hc.
      apply on_flevel_shape, (on_flevel_mono h p j); [lia|].
      replace (t + S (k - S t))%nat with (S t + (k - S t))%nat by lia.
      by apply (cf_right _ _ _ HCF).
  - intros k [Hd|Hd]%fdeep_shape%fdeep_split; rewrite El.
    + destruct (cf_deep _ _ _ HCF k Hd) as [Hl Hr]. split; [done|].
      destruct (decide (k <= t)%nat) as [Hk|Hk].
      * rewrite Er by done. by apply merge_prefix_right.
      * replace k with (t + S (k - S t))%nat by lia. rewrite Er'.
        by replace (S t + (k - S t))%nat with k by lia.
    + assert (k <= t)%nat by (apply merge_tree_shallow; auto).
      split; [by apply merge_prefix_left|].
      rewrite Er by done. by apply merge_prefix_right.
Qed.

(** The subtree is deeper: the left contour of the forest goes on, by a
    thread from its last object, along the left contour of the subtree. *)
Lemma CF_merge_left (nl : ref) :
  next_left h vir = Some nl -> next_left h vol = None ->
  (forall u, u ≠ vol -> thread h' u = thread h u) ->
  thread h' vol = Some nl ->
  CF h' p (S j).
Proof.
  intros Hnl Hvoln Hthr Hthr'.
  pose proof (cf_left _ _ _ HCF _ _ Hvol) as Hvol_lvl.
  assert (next_left h' vol = Some nl) as Hnext.
  { destruct (next_left_None h Hwf vol) as [Ha _].
    { destruct Hvol_lvl as (i & _ & Hl). by apply (on_level_dom h _ t) in Hl. }
    { done. }
    rewrite next_left_leaf; [done|]. unfold arity in *.
    by rewrite (same_shape_children _ _ _ Hshape). }
  assert (forall u, (S j :: p) `suffix_of` u -> u ≠ vol) as Htree.
  { intros u Hu ->. apply (forest_tree_disjoint p j vol); [|done].
    by apply (on_flevel_forest h p j t). }
  assert (forall k, chain (next_right h') k (S j :: p)
                    = chain (next_right h) k (S j :: p)) as Er.
  { intros k. apply chain_ext. intros i u _ Hu. apply next_other, Hthr, Htree.
    by apply (on_level_suffix h _ i), (ct_right _ _ HCT). }
  assert (forall i u, (i < t)%nat -> chain (next_left h) i (0%nat :: p) = Some u ->
            u ≠ vol) as Hlev.
  { intros i u Hi Hu ->.
    pose proof (on_flevel_length _ _ _ _ _ (cf_left _ _ _ HCF _ _ Hu)).
    pose proof (on_flevel_length _ _ _ _ _ Hvol_lvl). lia. }
  assert (forall k, (k <= t)%nat ->
            chain (next_left h') k (0%nat :: p)
            = chain (next_left h) k (0%nat :: p)) as El.
  { intros k Hk. apply chain_ext. intros i u Hi Hu. apply next_other, Hthr.
    apply (Hlev i); [lia|done]. }
  assert (chain (next_left h) (S t) (S j :: p) = Some nl) as Hnl'.
  { cbn [chain]. by rewrite Hvir. }
  assert (forall m, chain (next_left h') (t + S m) (0%nat :: p)
                    = chain (next_left h) (S t + m) (S j :: p)) as El'.
  { apply (chain_graft _ _ t (S t) _ _ vol nl); try done.
    - intros i u Hi Hu. by apply next_other, Hthr, (Hlev i).
    - intros i u Hu. apply next_other, Hthr, Htree.
      by apply (on_level_suffix h _ (S t + i)), (ct_left _ _ HCT). }
  split.
  - intros k l. destruct (decide (k <= t)%nat) as [Hk|Hk].
    + rewrite El by done. intros Hc. apply on_flevel_shape.
      apply (on_flevel_mono h p j); [lia|]. by apply (cf_left _ _ _ HCF).
    + replace k with (t + S (k - S t))%nat by lia. rewrite El'. intros Hc.
      apply on_flevel_shape. exists (S j). split; [lia|].
      replace (t + S (k - S t))%nat with (S t + (k - S t))%nat by lia.
      by apply (ct_left _ _ HCT).
  - intros k l. rewrite Er. intros Hc. apply on_flevel_shape.
    exists (S j). split; [lia|]. by apply (ct_right _ _ HCT).
  - intros k [Hd|Hd]%fdeep_shape%fdeep_split; rewrite Er.
    + assert (k <= t)%nat by (apply merge_forest_shallow; auto).
      split; [|by apply merge_prefix_right].
      rewrite El by done. by apply merge_prefix_left.
    + destruct (ct_deep _ _ HCT k Hd) as [Hl Hr]. split; [|done].
      destruct (decide (k <= t)%nat) as [Hk|Hk].
      * rewrite El by done. by apply merge_prefix_left.
      * replace k with (t + S (k - S t))%nat by lia. rewrite El'.
        by replace (S t + (k - S t))%nat with k by lia.
Qed.
End Merge.

(** *** The spacing of siblings: arithmetic *)

(** The sum of [n] values of [f] from index [lo]. *)
Fixpoint csum (f : nat -> Q) (lo n : nat) : Q :=
  match n with
  | O => 0
  | S n => f lo + csum f (S lo) n
  end.

Lemma csum_snoc (f : nat -> Q) (lo n : nat) :
  (csum f lo (S n) == csum f lo n + f (lo + n)%nat)%Q.
Proof.
  revert lo. induction n as [|n IH]; intros lo.
  - cbn. rewrite Nat.add_0_r. ring.
  - cbn [csum] in *. rewrite IH. replace (S lo + n)%nat with (lo + S n)%nat by lia.
    ring.
Qed.

Lemma csum_ext (f g : nat -> Q) (lo n : nat) :
  (forall i, (lo <= i < lo + n)%nat -> f i == g i)%Q ->
  (csum f lo n == csum g lo n)%Q.
Proof.
  revert lo. induction n as [|n IH]; intros lo Hfg; [reflexivity|].
  cbn [csum]. rewrite Hfg by lia. rewrite IH; [reflexivity|].
  intros i Hi. apply Hfg. lia.
Qed.

(** Adding [d] at one index of the range. *)
Lemma csum_bump (f g : nat -> Q) (a : nat) (d : Q) (lo n : nat) :
  (forall i, i ≠ a -> g i == f i)%Q -> (g a == f a + d)%Q ->
  (csum g lo n ==
   csum f lo n + (if bool_decide (lo <= a < lo + n)%nat then d else 0))%Q.
Proof.
  intros Hne Ha. revert lo. induction n as [|n IH]; intros lo.
  - cbn. rewrite bool_decide_eq_false_2 by lia. ring.
  - cbn [csum]. rewrite IH. destruct (decide (lo = a)) as [->|Hlo].
    + rewrite Ha, (bool_decide_eq_false_2 (S a <= a < _)%nat) by lia.
      rewrite bool_decide_eq_true_2 by lia. ring.
    + rewrite (Hne lo) by done.
      destruct (decide (S lo <= a < S lo + n)%nat).
      * rewrite !bool_decide_eq_true_2 by lia. ring.
      * rewrite !bool_decide_eq_false_2 by lia. ring.
Qed.

(** The room that the deferred shifts leave between the children [i] and
    [i + 1], for the children up to [j]. *)
Definition room (X SH CH : nat -> Q) (j i : nat) : Q :=
  (X (S i) - X i - SH (S i) - csum CH (S i) (j - i))%Q.

Definition spaced (X SH CH : nat -> Q) (j : nat) : Prop :=
  forall i, (i < j)%nat -> (1 <= room X SH CH j i)%Q.

(** A new child, put 1 to the right of the last one. *)
Lemma spaced_place (X SH CH X' SH' CH' : nat -> Q) (j : nat) :
  spaced X SH CH j ->
  (forall i, (i <= j)%nat -> X' i == X i /\ SH' i == SH i /\ CH' i == CH i)%Q ->
  (X' (S j) == X' j + 1)%Q -> (SH' (S j) == 0)%Q -> (CH' (S j) == 0)%Q ->
  spaced X' SH' CH' (S j).
Proof.
  intros Hsp Hsame HX HSH HCH i Hi. unfold room.
  destruct (decide (i = j)) as [->|Hne].
  - replace (S j - j)%nat with 1%nat by lia. cbn [csum]. lra.
  - specialize (Hsp i ltac:(lia)). unfold room in Hsp.
    replace (S j - i)%nat with (S (j - i)) by lia.
    pose proof (csum_snoc CH' (S i) (j - i)) as Hs.
    replace (S i + (j - i))%nat with (S j) in Hs by lia.
    assert (csum CH' (S i) (j - i) == csum CH (S i) (j - i))%Q as Hc.
    { apply csum_ext. intros m Hm. by destruct (Hsame m ltac:(lia)) as (_ & _ & ?). }
    destruct (Hsame i ltac:(lia)) as (? & _ & _).
    destruct (Hsame (S i) ltac:(lia)) as (? & ? & _).
    lra.
Qed.

(** Moving child [j] to the right by [s > 0], away from child [a < j]. *)
Lemma spaced_shift (X SH CH X' SH' CH' : nat -> Q) (j a : nat) (s d : Q) :
  spaced X SH CH j -> (a < j)%nat -> (0 <= d)%Q ->
  (forall i, i ≠ j -> X' i == X i /\ SH' i == SH i)%Q ->
  (X' j == X j + s)%Q -> (SH' j == SH j + s)%Q ->
  (forall i, i ≠ j -> i ≠ a -> CH' i == CH i)%Q ->
  (CH' j == CH j - d)%Q -> (CH' a == CH a + d)%Q ->
  spaced X' SH' CH' j.
Proof.
  intros Hsp Haj Hd Hsame HX HSH HCH HCHj HCHa i Hi.
  specialize (Hsp i Hi). unfold room in *.
  set (CH1 := fun m => if decide (m = j) then (CH m - d)%Q else CH m).
  assert (csum CH' (S i) (j - i) ==
          csum CH (S i) (j - i) - d
          + (if bool_decide (S i <= a < S i + (j - i))%nat then d else 0))%Q as Hsum.
  { rewrite (csum_bump CH1 CH' a d).
    - rewrite (csum_bump CH CH1 j (- d)).
      + rewrite (bool_decide_eq_true_2 (S i <= j < _)%nat) by lia. ring.
      + intros m Hm. unfold CH1. by rewrite decide_False.
      + unfold CH1. rewrite decide_True by done. ring.
    - intros m Hm. unfold CH1. destruct (decide (m = j)) as [->|Hmj].
      + by rewrite HCHj.
      + by apply HCH.
    - unfold CH1. rewrite decide_False by lia. exact HCHa. }
  destruct (Hsame i ltac:(lia)) as [? _].
  destruct (decide (S i = j)) as [E|Hne].
  - rewrite E in *. rewrite bool_decide_eq_false_2 in Hsum by lia. lra.
  - destruct (Hsame (S i) Hne) as [? ?]. case_bool_decide; lra.
Qed.

(** The running sums of the sweep after the [n] children from [lo] to
    [lo + n - 1] have been dealt with, from the right. *)
Fixpoint racc (SH CH : nat -> Q) (lo n : nat) : Q * Q :=
  match n with
  | O => (0%Q, 0%Q)
  | S n =>
      let acc := racc SH CH (S lo) n in
      let change_ := (acc.2 + CH lo)%Q in
      ((acc.1 + (SH lo + change_))%Q, change_)
  end.

Lemma racc_snd (SH CH : nat -> Q) (lo n : nat) :
  ((racc SH CH lo n).2 == csum CH lo n)%Q.
Proof.
  revert lo. induction n as [|n IH]; intros lo; [reflexivity|].
  cbn [racc csum snd]. rewrite IH. ring.
Qed.

(** After the sweep the children are at least 1 apart. *)
Lemma spaced_swept (X SH CH X' : nat -> Q) (j : nat) :
  spaced X SH CH j ->
  (forall i, (i <= j)%nat -> X' i == X i + (racc SH CH (S i) (j - i)).1)%Q ->
  forall i, (i < j)%nat -> (X' i + 1 <= X' (S i))%Q.
Proof.
  intros Hsp HX i Hi. specialize (Hsp i Hi). unfold room in Hsp.
  rewrite (HX i), (HX (S i)) by lia.
  replace (j - i)%nat with (S (j - S i)) in * by lia.
  cbn [racc fst snd].
  pose proof (racc_snd SH CH (S (S i)) (j - S i)) as Hc.
  cbn [csum] in Hsp. lra.
Qed.

(** *** Objects, fields and regions *)

Definition X_ (h : heap) (p : ref) (i : nat) : Q := x (h !!! (i :: p)).
Definition SH_ (h : heap) (p : ref) (i : nat) : Q := shift (h !!! (i :: p)).
Definition CH_ (h : heap) (p : ref) (i : nat) : Q := change (h !!! (i :: p)).

(** The children of [q] are at least 1 apart. *)
Definition gaps (h : heap) (q : ref) : Prop :=
  forall i, is_Some (h !! (S i :: q)) -> (X_ h q i + 1 <= X_ h q (S i))%Q.

(** [q] is centred over its first and last child, up to its [mod]. *)
Definition centred (h : heap) (q : ref) : Prop :=
  forall n, arity h q = S n ->
    (x (h !!! q) - mod_ (h !!! q) == (X_ h q 0 + X_ h q n) * (1 # 2))%Q.

Definition tidy (h : heap) (q : ref) : Prop :=
  ancestor h q `suffix_of` q /\ gaps h q /\ centred h q.

(** An object that no walk has touched yet. *)
Definition fresh_at (h : heap) (q : ref) : Prop :=
  thread h q = None /\ ancestor h q = q /\ mod_ (h !!! q) = 0%Q /\
  shift (h !!! q) = 0%Q /\ change (h !!! q) = 0%Q.

Definition fresh (h : heap) (v : ref) : Prop :=
  forall q, v `suffix_of` q -> is_Some (h !! q) -> fresh_at h q.

(** [h'] is [h] outside of [S]. *)
Definition outside (S : ref -> Prop) (h h' : heap) : Prop :=
  forall q, ~ S q -> h' !! q = h !! q.

Lemma outside_refl S h : outside S h h.
Proof. done. Qed.

Lemma outside_trans (S : ref -> Prop) h1 h2 h3 :
  outside S h1 h2 -> outside S h2 h3 -> outside S h1 h3.
Proof. intros H1 H2 q Hq. by rewrite H2, H1. Qed.

Lemma outside_mono (S S' : ref -> Prop) h h' :
  (forall q, S q -> S' q) -> outside S h h' -> outside S' h h'.
Proof. intros HS Ho q Hq. apply Ho. auto. Qed.

Lemma outside_total S h h' q : outside S h h' -> ~ S q -> h' !!! q = h !!! q.
Proof. intros Ho Hq. by apply lookup_total_eq, Ho. Qed.

Lemma outside_alter (S : ref -> Prop) (f : LayoutTree -> LayoutTree) r h :
  S r -> outside S h (alter f r h).
Proof. intros Hr q Hq. rewrite lookup_alter_ne; [done|]. by intros ->. Qed.

Lemma in_forest_mono p j j' q : (j <= j')%nat -> in_forest p j q -> in_forest p j' q.
Proof. intros Hle (i & Hi & Hs). exists i. split; [lia|done]. Qed.

Lemma in_forest_parent p j q : in_forest p j q -> p `suffix_of` q /\ q ≠ p.
Proof. intros (i & _ & Hs). by apply region_step in Hs. Qed.

Lemma in_forest_child p j i : (i <= j)%nat -> in_forest p j (i :: p).
Proof. intros Hi. exists i. split; [done|]. by exists []. Qed.

Lemma in_forest_down p j q i : in_forest p j q -> in_forest p j (i :: q).
Proof.
  intros (a & Ha & [k ->]). exists a. split; [done|]. by exists (i :: k).
Qed.

Lemma in_forest_S p j q :
  in_forest p (S j) q <-> in_forest p j q \/ (S j :: p) `suffix_of` q.
Proof.
  split.
  - intros (i & Hi & Hs). destruct (decide (i = S j)) as [->|]; [by right|].
    left. exists i. split; [lia|done].
  - intros [Hf|Hs]; [apply (in_forest_mono p j); [lia|done]|].
    exists (S j). split; [lia|done].
Qed.

Lemma suffix_down (v q : ref) (i : nat) : v `suffix_of` q -> v `suffix_of` (i :: q).
Proof. intros [k ->]. by exists (i :: k). Qed.

(** [tidy] only reads the object and its children. *)
Lemma tidy_frame h h' q :
  same_shape h h' -> h' !! q = h !! q ->
  (forall i, h' !! (i :: q) = h !! (i :: q)) ->
  tidy h q -> tidy h' q.
Proof.
  intros Hs Hq Hc (Ha & Hg & Hm).
  assert (h' !!! q = h !!! q) as Eq by by apply lookup_total_eq.
  assert (forall i, h' !!! (i :: q) = h !!! (i :: q)) as Ec
    by (intros i; by apply lookup_total_eq).
  split; [|split].
  - unfold ancestor. by rewrite Eq.
  - intros i Hi. unfold X_. rewrite !Ec. apply Hg. by rewrite <- Hc.
  - intros n Hn. unfold X_. rewrite Eq, !Ec. apply Hm.
    unfold arity in *. by rewrite <- Eq.
Qed.

Lemma arity_shape h h' q : same_shape h h' -> arity h' q = arity h q.
Proof. intros Hs. unfold arity. by rewrite (same_shape_children _ _ _ Hs). Qed.

(** [gaps] and [centred] read [x] and [mod] only. *)
Lemma gaps_ext h h' q :
  same_shape h h' -> (forall i, X_ h' q i == X_ h q i)%Q ->
  gaps h q -> gaps h' q.
Proof.
  intros Hs HX Hg i Hi. rewrite !HX. apply Hg.
  by apply (same_shape_is_Some _ _ _ Hs).
Qed.

Lemma centred_ext h h' q :
  same_shape h h' -> (forall i, X_ h' q i == X_ h q i)%Q ->
  (x (h' !!! q) - mod_ (h' !!! q) == x (h !!! q) - mod_ (h !!! q))%Q ->
  centred h q -> centred h' q.
Proof.
  intros Hs HX Hq Hc n Hn. rewrite Hq, !HX. apply Hc.
  by rewrite <- (arity_shape _ _ _ Hs).
Qed.

Lemma spaced_ext (X SH CH X' SH' CH' : nat -> Q) (j : nat) :
  (forall i, X' i == X i /\ SH' i == SH i /\ CH' i == CH i)%Q ->
  spaced X SH CH j -> spaced X' SH' CH' j.
Proof.
  intros Hsame Hsp i Hi. specialize (Hsp i Hi). unfold room in *.
  destruct (Hsame i) as (-> & _ & _). destruct (Hsame (S i)) as (-> & -> & _).
  rewrite (csum_ext CH' CH); [done|]. intros m _. apply Hsame.
Qed.

(** The invariant while subtree [S j] is joined to the forest [0..j]. *)
Record joinInv (h : heap) (p : ref) (j : nat) : Prop := {
  ji_wf : wf h;
  ji_CF : CF h p j;
  ji_CT : CT h (S j :: p);
  ji_tidy : forall q, in_forest p (S j) q -> is_Some (h !! q) -> tidy h q;
  ji_spaced : spaced (X_ h p) (SH_ h p) (CH_ h p) (S j)
}.

(** The invariant of the loop over the children of [p], after child [j]. *)
Record forestInv (h : heap) (p : ref) (j : nat) : Prop := {
  fi_wf : wf h;
  fi_CF : CF h p j;
  fi_tidy : forall q, in_forest p j q -> is_Some (h !! q) -> tidy h q;
  fi_spaced : spaced (X_ h p) (SH_ h p) (CH_ h p) j
}.

Lemma joinInv_update h h' p j :
  joinInv h p j -> same_shape h h' ->
  (forall q, thread h' q = thread h q) ->
  (forall q, in_forest p (S j) q -> is_Some (h !! q) -> tidy h q -> tidy h' q) ->
  (spaced (X_ h p) (SH_ h p) (CH_ h p) (S j) ->
   spaced (X_ h' p) (SH_ h' p) (CH_ h' p) (S j)) ->
  joinInv h' p j.
Proof.
  intros [Hwf HCF HCT Ht Hsp] Hs Hthr Ht' Hsp'. split.
  - by apply (same_shape_wf h).
  - by apply (CF_frame h).
  - by apply (CT_frame h).
  - intros q Hq Hd. apply (same_shape_is_Some _ _ _ Hs) in Hd. auto.
  - auto.
Qed.

(** [vor.ancestor = v] *)
Lemma joinInv_set_ancestor h p j u :
  joinInv h p j -> (S j :: p) `suffix_of` u ->
  joinInv (set_ancestor u (S j :: p) h) p j.
Proof.
  intros HI Hu. pose proof (ji_wf _ _ _ HI) as Hwf.
  assert (same_shape h (set_ancestor u (S j :: p) h)) as Hs
    by (apply same_shape_alter; by intros []).
  assert (forall q, x (set_ancestor u (S j :: p) h !!! q) = x (h !!! q) /\
                    mod_ (set_ancestor u (S j :: p) h !!! q) = mod_ (h !!! q) /\
                    shift (set_ancestor u (S j :: p) h !!! q) = shift (h !!! q) /\
                    change (set_ancestor u (S j :: p) h !!! q) = change (h !!! q) /\
                    thread (set_ancestor u (S j :: p) h) q = thread h q) as Hf.
  { intros q. unfold thread. by heap_simpl. }
  apply (joinInv_update h); [done|done|apply Hf| |].
  - intros q Hq Hd (Ha & Hg & Hc). split; [|split].
    + destruct (decide (q = u)) as [->|Hne].
      * unfold ancestor. by rewrite set_ancestor_hit.
      * unfold ancestor. by rewrite set_ancestor_miss.
    + apply (gaps_ext h); [done| |done]. intros i. unfold X_.
      by destruct (Hf (i :: q)) as (-> & _).
    + apply (centred_ext h); [done| | |done].
      * intros i. unfold X_. by destruct (Hf (i :: q)) as (-> & _).
      * by destruct (Hf q) as (-> & -> & _).
  - apply spaced_ext. intros i. unfold X_, SH_, CH_.
    by destruct (Hf (i :: p)) as (-> & _ & -> & -> & _).
Qed.

(** What [_shift_subtrees] does to the fields, object by object. *)
Lemma shift_subtrees_effect (wl wr : ref) (s : Q) (h : heap) :
  is_Some (h !! wl) -> is_Some (h !! wr) ->
  let d := Z.of_nat (sibling_index (h !!! wr))
           - Z.of_nat (sibling_index (h !!! wl)) in
  d <> 0 ->
  exists h',
    _shift_subtrees wl wr s h = Ok h' /\ same_shape h h' /\
    (forall q, q ≠ wl -> q ≠ wr -> h' !! q = h !! q) /\
    (forall q,
       x (h' !!! q) = (if decide (q = wr) then x (h !!! q) + s else x (h !!! q))%Q /\
       mod_ (h' !!! q)
       = (if decide (q = wr) then mod_ (h !!! q) + s else mod_ (h !!! q))%Q /\
       shift (h' !!! q)
       = (if decide (q = wr) then shift (h !!! q) + s else shift (h !!! q))%Q /\
       change (h' !!! q)
       = (if decide (q = wr) then change (h !!! q) - s / inject_Z d
          else if decide (q = wl) then change (h !!! q) + s / inject_Z d
          else change (h !!! q))%Q /\
       thread h' q = thread h q /\ ancestor h' q = ancestor h q).
Proof.
  intros Hl Hr d Hd. unfold _shift_subtrees. fold d.
  destruct (Z.eqb_spec d 0) as [?|_]; [done|].
  assert (wl ≠ wr) as Hne by (intros ->; unfold d in Hd; lia).
  assert (wr ≠ wl) as Hne' by done.
  eexists. split; [done|]. unfold_set. split; [|split].
  - repeat (eapply same_shape_trans; [|apply same_shape_alter; by intros []]).
    apply same_shape_refl.
  - intros q Hql Hqr. by rewrite !lookup_alter_ne by done.
  - intros q. unfold thread, ancestor.
    repeat (rewrite alter_total by (by rewrite ?alter_is_Some)).
    repeat case_decide; by subst.
Qed.

Lemma Qgtb_pos (s : Q) : Qgtb s 0 = true -> (0 < s)%Q.
Proof.
  unfold Qgtb. destruct (Qle_bool s 0) eqn:E; [done|]. intros _.
  apply Qnot_le_lt. rewrite <- Qle_bool_iff. congruence.
Qed.

(** Moving subtree [S j] away from the subtree [a <= j] keeps the
    invariant. *)
Lemma joinInv_shift h p j a s :
  joinInv h p j -> is_Some (h !! (S j :: p)) -> (a <= j)%nat -> (0 < s)%Q ->
  exists h',
    _shift_subtrees (a :: p) (S j :: p) s h = Ok h' /\
    joinInv h' p j /\ same_shape h h' /\
    outside (in_forest p (S j)) h h' /\
    (forall q, thread h' q = thread h q).
Proof.
  intros HI Hv Ha Hs. pose proof (ji_wf _ _ _ HI) as Hwf.
  assert (is_Some (h !! (a :: p))) as Hwl by (apply (wf_lower h Hwf a (S j)); [done|lia]).
  destruct (shift_subtrees_effect (a :: p) (S j :: p) s h Hwl Hv)
    as (h' & Hrun & Hshape & Hout & Hf).
  { rewrite !(sibling_index_wf h Hwf) by done. cbn. lia. }
  rewrite !(sibling_index_wf h Hwf) in Hf by done. cbn [hd] in Hf.
  set (d := (s / inject_Z (Z.of_nat (S j) - Z.of_nat a))%Q) in *.
  assert (0 <= d)%Q as Hd.
  { unfold d. apply Qlt_le_weak, Qlt_shift_div_l.
    - replace 0%Q with (inject_Z 0) by done. rewrite <- Zlt_Qlt. lia.
    - lra. }
  exists h'. split; [exact Hrun|]. split; [|split; [done|split]].
  - apply (joinInv_update h); [done|done|intros q; apply Hf| |].
    + intros q Hq Hdom (Han & Hg & Hc).
      assert (forall i, X_ h' q i = X_ h q i) as HX.
      { intros i. unfold X_. destruct (Hf (i :: q)) as (-> & _).
        rewrite decide_False; [done|]. intros [= _ ->].
        by apply in_forest_parent in Hq as [_ ?]. }
      split; [|split].
      * by destruct (Hf q) as (_ & _ & _ & _ & _ & ->).
      * apply (gaps_ext h); [done| |done]. intros i. by rewrite HX.
      * apply (centred_ext h); [done| | |done].
        -- intros i. by rewrite HX.
        -- destruct (Hf q) as (-> & -> & _). case_decide; ring.
    + intros Hsp. apply (spaced_shift _ _ _ _ _ _ (S j) a s d Hsp); try done.
      * lia.
      * intros i Hi. unfold X_, SH_. destruct (Hf (i :: p)) as (-> & _ & -> & _).
        rewrite !decide_False by (intros [= ?]; lia). done.
      * unfold X_. destruct (Hf (S j :: p)) as (-> & _).
        by rewrite decide_True.
      * unfold SH_. destruct (Hf (S j :: p)) as (_ & _ & -> & _).
        by rewrite decide_True.
      * intros i Hi1 Hi2. unfold CH_.
        destruct (Hf (i :: p)) as (_ & _ & _ & -> & _).
        rewrite !decide_False by (intros [= ?]; lia). done.
      * unfold CH_. destruct (Hf (S j :: p)) as (_ & _ & _ & -> & _).
        by rewrite decide_True.
      * unfold CH_. destruct (Hf (a :: p)) as (_ & _ & _ & -> & _).
        rewrite decide_False by (intros [= ?]; lia). by rewrite decide_True.
  - intros q Hq. apply Hout.
    + intros ->. apply Hq, in_forest_child. lia.
    + intros ->. apply Hq, in_forest_child. lia.
  - intros q. apply Hf.
Qed.

(** *** The loop of [_apportion] *)

Lemma chain_same h h' k v :
  same_shape h h' -> (forall q, thread h' q = thread h q) ->
  chain (next_left h') k v = chain (next_left h) k v /\
  chain (next_right h') k v = chain (next_right h) k v.
Proof.
  intros Hs Ht. split; apply chain_ext; intros i u _ _.
  - by apply next_left_shape.
  - by apply next_right_shape.
Qed.

(** The four pointers of [_apportion] after [t] turns of its loop. *)
Definition at_level (h : heap) (p : ref) (j t : nat) (c : contour) : Prop :=
  chain (next_right h) t (j :: p) = Some (vil c) /\
  chain (next_left h) t (S j :: p) = Some (vir c) /\
  chain (next_left h) t (0%nat :: p) = Some (vol c) /\
  chain (next_right h) t (S j :: p) = Some (vor c).

Lemma at_level_same h h' p j t c :
  same_shape h h' -> (forall q, thread h' q = thread h q) ->
  at_level h p j t c -> at_level h' p j t c.
Proof.
  intros Hs Ht (H1 & H2 & H3 & H4). unfold at_level.
  destruct (chain_same h h' t (j :: p) Hs Ht) as [_ ->].
  destruct (chain_same h h' t (S j :: p) Hs Ht) as [-> ->].
  destruct (chain_same h h' t (0%nat :: p) Hs Ht) as [-> _]. done.
Qed.

(** [_ancestor] answers with one of the children [0..j]. *)
Lemma ancestor_ok h p j a k u :
  joinInv h p j -> is_Some (h !! (S j :: p)) -> (a <= j)%nat ->
  on_flevel h p j k u ->
  exists a', (a' <= j)%nat /\
    _ancestor' u (S j :: p) (a :: p) h = Ok (a' :: p).
Proof.
  intros HI Hv Ha Hu. pose proof (ji_wf _ _ _ HI) as Hwf.
  unfold _ancestor'. rewrite (parent_wf h Hwf) by done. cbn.
  destruct (wf_up_total h Hwf _ _ Hv) as [Hp _].
  case_bool_decide as Hin; [|by exists a].
  apply (children_elem h Hwf p) in Hin as (i & Hi & Hanc); [|done].
  exists i. split; [|by rewrite Hanc].
  destruct Hu as (i0 & Hi0 & Hu).
  destruct (ji_tidy _ _ _ HI u) as (Hsuf & _).
  { exists i0. split; [lia|]. by apply (on_level_suffix h _ k). }
  { by apply (on_level_dom h _ k) in Hu. }
  rewrite Hanc in Hsuf.
  rewrite (region_disjoint i i0 p u Hsuf); [done|].
  by apply (on_level_suffix h _ k).
Qed.

Lemma apportion_loop_ok (p : ref) (j : nat) (dx : Q) (a : nat) :
  (a <= j)%nat ->
  forall fuel t c h,
    joinInv h p j -> is_Some (h !! (S j :: p)) ->
    at_level h p j t c -> (size h <= fuel + t + 2)%nat ->
    exists c' h' t',
      apportion_loop fuel (S j :: p) (a :: p) dx c h = Ok (c', h') /\
      joinInv h' p j /\ same_shape h h' /\
      outside (in_forest p (S j)) h h' /\
      (forall q, thread h' q = thread h q) /\
      at_level h' p j t' c' /\
      (next_right h' (vil c') = None \/ next_left h' (vir c') = None).
Proof.
  intros Ha. induction fuel as [|fuel IH]; intros t c h HI Hv Hat Hsz.
  all: pose proof (ji_wf _ _ _ HI) as Hwf.
  all: destruct Hat as (Hvil & Hvir & Hvol & Hvor).
  all: destruct (next_right h (vil c)) as [vil'|] eqn:Enr;
    [destruct (next_left h (vir c)) as [vir'|] eqn:Enl|].
  all: try (exists c, h, t; cbn [apportion_loop]; rewrite Enr, ?Enl;
            split; [done|]; split; [done|]; split; [apply same_shape_refl|];
            split; [apply outside_refl|]; split; [done|]; split; [done|];
            by auto).
  all: assert (on_flevel h p j (S t) vil') as Hvil'
    by (apply (cf_right _ _ _ (ji_CF _ _ _ HI)); cbn [chain]; by rewrite Hvil).
  all: assert (on_level h (S j :: p) (S t) vir') as Hvir'
    by (apply (ct_left _ _ (ji_CT _ _ _ HI)); cbn [chain]; by rewrite Hvir).
  - exfalso. pose proof (on_flevel_length _ _ _ _ _ Hvil') as Hlen.
    destruct Hvil' as (i & _ & Hl). apply on_level_dom in Hl.
    pose proof (depth_bound h Hwf vil' Hl). lia.
  - cbn [apportion_loop]. rewrite Enr, Enl.
    destruct (cf_deep _ _ _ (ji_CF _ _ _ HI) (S t)) as [[vol' Evol] _];
      [by exists vil'|].
    destruct (ct_deep _ _ (ji_CT _ _ _ HI) (S t)) as [_ [vor' Evor]];
      [by exists vir'|].
    pose proof Evol as Evol'. pose proof Evor as Evor'.
    cbn [chain] in Evol, Evor. rewrite Hvol in Evol. rewrite Hvor in Evor.
    cbn [mbind option_bind] in Evol, Evor. rewrite Evol, Evor.
    cbn [deref mbind result_bind].
    pose proof (ct_right _ _ (ji_CT _ _ _ HI) _ _ Evor') as Hvor'.
    set (h_a := set_ancestor vor' (S j :: p) h).
    assert (joinInv h_a p j) as HIa
      by (apply joinInv_set_ancestor; [done|by apply (on_level_suffix h _ (S t))]).
    assert (same_shape h h_a) as Hsa by (apply same_shape_alter; by intros []).
    assert (forall q, thread h_a q = thread h q) as Hta
      by (intros q; unfold thread, h_a; by heap_simpl).
    assert (outside (in_forest p (S j)) h h_a) as Hoa.
    { apply outside_alter. exists (S j). split; [lia|].
      by apply (on_level_suffix h _ (S t)). }
    set (s := (x (h_a !!! vil') + sil c - (x (h_a !!! vir') + sir c) + dx)%Q).
    assert (exists sir1 sor1 h_s,
              (if Qgtb s 0
               then
                 ancestor_ ← _ancestor' vil' (S j :: p) (a :: p) h_a;
                 h0 ← _shift_subtrees ancestor_ (S j :: p) s h_a;
                 Ok ((sir c + s)%Q, (sor c + s)%Q, h0)
               else Ok (sir c, sor c, h_a)) = Ok (sir1, sor1, h_s) /\
              joinInv h_s p j /\ same_shape h h_s /\
              outside (in_forest p (S j)) h h_s /\
              (forall q, thread h_s q = thread h q))
      as (sir1 & sor1 & h_s & -> & HIs & Hss & Hos & Hts).
    { destruct (Qgtb s 0) eqn:Es.
      - destruct (ancestor_ok h_a p j a (S t) vil' HIa) as (a' & Ha' & ->).
        { by apply (same_shape_is_Some _ _ _ Hsa). }
        { done. }
        { destruct Hvil' as (i & Hi & Hl). exists i. split; [done|].
          by apply (on_level_shape h). }
        cbn [mbind result_bind].
        destruct (joinInv_shift h_a p j a' s HIa)
          as (h_s & -> & HIs & Hss & Hos & Hts).
        { by apply (same_shape_is_Some _ _ _ Hsa). }
        { done. }
        { by apply Qgtb_pos. }
        cbn [mbind result_bind]. eexists _, _, h_s. split; [done|].
        split; [done|]. split; [by apply (same_shape_trans h h_a)|].
        split; [by apply (outside_trans _ h h_a)|].
        intros q. by rewrite Hts.
      - by eexists _, _, h_a. }
    cbn [mbind result_bind].
    destruct (IH (S t)
                (mkContour vil' vir' vol' vor'
                   (sil c + mod_ (h_s !!! vil'))%Q (sir1 + mod_ (h_s !!! vir'))%Q
                   (sol c + mod_ (h_s !!! vol'))%Q (sor1 + mod_ (h_s !!! vor'))%Q)
                h_s)
      as (c' & h' & t' & Hrun & HI' & Hs' & Ho' & Ht' & Hat' & Hexit).
    + done.
    + by apply (same_shape_is_Some _ _ _ Hss).
    + apply (at_level_same h); [done|done|]. unfold at_level. cbn [chain vil vir vol vor].
      rewrite Hvil, Hvir, Hvol, Hvor. cbn [mbind option_bind].
      by rewrite Enr, Enl, Evol, Evor.
    + rewrite (same_shape_size _ _ Hss). lia.
    + exists c', h', t'. split; [exact Hrun|]. split; [done|].
      split; [by apply (same_shape_trans h h_s)|].
      split; [by apply (outside_trans _ h h_s)|].
      split; [intros q; by rewrite Ht'|]. by split.
Qed.

(** *** [_apportion] *)

(** Threading a leaf: [u.thread = tgt; u.mod += ...]. *)
Lemma join_thread_step h p j u tgt m :
  joinInv h p j -> in_forest p (S j) u -> is_Some (h !! u) ->
  arity h u = 0%nat ->
  let h' := set_mod u m (set_thread u tgt h) in
  wf h' /\ same_shape h h' /\ outside (in_forest p (S j)) h h' /\
  (forall q, q ≠ u -> thread h' q = thread h q) /\ thread h' u = Some tgt /\
  (forall q, in_forest p (S j) q -> is_Some (h' !! q) -> tidy h' q) /\
  spaced (X_ h' p) (SH_ h' p) (CH_ h' p) (S j).
Proof.
  intros HI Hu Hd Ha h'. pose proof (ji_wf _ _ _ HI) as Hwf.
  assert (same_shape h h') as Hs.
  { unfold h'. eapply same_shape_trans; apply same_shape_alter; by intros []. }
  assert (forall q, x (h' !!! q) = x (h !!! q) /\
                    shift (h' !!! q) = shift (h !!! q) /\
                    change (h' !!! q) = change (h !!! q) /\
                    ancestor h' q = ancestor h q) as Hf.
  { intros q. unfold ancestor, h'. by heap_simpl. }
  split; [by apply (same_shape_wf h)|]. split; [done|]. split; [|split; [|split; [|split]]].
  - unfold h'. eapply outside_trans; by apply outside_alter.
  - intros q Hq. unfold thread, h'.
    assert (forall h0, _thread (set_mod u m h0 !!! q) = _thread (h0 !!! q)) as ->
      by (intros h0; unfold set_mod; apply alter_preserved; by intros []).
    by rewrite set_thread_miss.
  - unfold thread, h'.
    assert (forall h0, _thread (set_mod u m h0 !!! u) = _thread (h0 !!! u)) as ->
      by (intros h0; unfold set_mod; apply alter_preserved; by intros []).
    by rewrite set_thread_hit.
  - intros q Hq Hdq. apply (same_shape_is_Some _ _ _ Hs) in Hdq.
    destruct (ji_tidy _ _ _ HI q Hq Hdq) as (Han & Hg & Hc).
    assert (forall i, X_ h' q i = X_ h q i) as HX
      by (intros i; unfold X_; by destruct (Hf (i :: q)) as (-> & _)).
    split; [|split].
    + by destruct (Hf q) as (_ & _ & _ & ->).
    + apply (gaps_ext h); [done| |done]. intros i. by rewrite HX.
    + destruct (decide (q = u)) as [->|Hne].
      * intros n Hn. rewrite (arity_shape _ _ _ Hs) in Hn. lia.
      * apply (centred_ext h); [done| | |done].
        -- intros i. by rewrite HX.
        -- destruct (Hf q) as (-> & _). unfold h'.
           rewrite set_mod_miss by done.
           assert (mod_ (set_thread u tgt h !!! q) = mod_ (h !!! q)) as ->
             by (unfold set_thread; apply alter_preserved; by intros []).
           reflexivity.
  - apply (spaced_ext (X_ h p) (SH_ h p) (CH_ h p)); [|apply (ji_spaced _ _ _ HI)].
    intros i. unfold X_, SH_, CH_. by destruct (Hf (i :: p)) as (-> & -> & -> & _).
Qed.

(** Subtree [S j] joins the forest [0..j]: [_apportion] returns, and the
    forest [0..S j] is in order. *)
Lemma apportion_ok (p : ref) (j : nat) (dx : Q) (a : nat) (h : heap) :
  (a <= j)%nat -> joinInv h p j -> is_Some (h !! (S j :: p)) ->
  exists a' h',
    _apportion (size h) (S j :: p) (a :: p) dx h = Ok (a' :: p, h') /\
    (a' <= S j)%nat /\ forestInv h' p (S j) /\ same_shape h h' /\
    outside (in_forest p (S j)) h h'.
Proof.
  intros Ha HI Hv. pose proof (ji_wf _ _ _ HI) as Hwf.
  unfold _apportion.
  rewrite (left_sibling_wf h Hwf), (leftmost_sibling_wf h Hwf) by done.
  cbn [deref mbind result_bind].
  destruct (apportion_loop_ok p j dx a Ha (size h) 0
              (mkContour (j :: p) (S j :: p) (0%nat :: p) (S j :: p)
                 (mod_ (h !!! (j :: p))) (mod_ (h !!! (S j :: p)))
                 (mod_ (h !!! (0%nat :: p))) (mod_ (h !!! (S j :: p)))) h)
    as (c & h1 & t & -> & HI1 & Hs1 & Ho1 & Ht1 & Hat & Hexit);
    [done|done|done|lia|].
  cbn [mbind result_bind].
  pose proof (ji_wf _ _ _ HI1) as Hwf1.
  destruct Hat as (Hvil & Hvir & Hvol & Hvor).
  pose proof (cf_right _ _ _ (ji_CF _ _ _ HI1) _ _ Hvil) as Lvil.
  pose proof (ct_left _ _ (ji_CT _ _ _ HI1) _ _ Hvir) as Lvir.
  pose proof (cf_left _ _ _ (ji_CF _ _ _ HI1) _ _ Hvol) as Lvol.
  pose proof (ct_right _ _ (ji_CT _ _ _ HI1) _ _ Hvor) as Lvor.
  assert (in_forest p (S j) (vor c)) as Fvor.
  { exists (S j). split; [lia|]. by apply (on_level_suffix h1 _ t). }
  assert (in_forest p (S j) (vol c)) as Fvol.
  { apply (in_forest_mono p j); [lia|]. by apply (on_flevel_forest h1 p j t). }
  assert (is_Some (h1 !! vol c)) as Dvol.
  { destruct Lvol as (i & _ & Hl). by apply on_level_dom in Hl. }
  pose proof (on_level_dom _ _ _ _ Lvor) as Dvor.
  destruct (next_right h1 (vil c)) as [nr|] eqn:Enrl;
    destruct (next_right h1 (vor c)) as [nrr|] eqn:Enrr;
    cbn [is_some negb andb deref mbind result_bind].
  - (* both right contours go on: impossible at the exit *)
    exfalso. destruct Hexit as [?|Hnll]; [done|].
    assert (deep h1 (S j :: p) (S t)) as Hd.
    { exists nrr. apply (ct_right _ _ (ji_CT _ _ _ HI1)). cbn [chain].
      by rewrite Hvor. }
    destruct (ct_deep _ _ (ji_CT _ _ _ HI1) _ Hd) as [[y Hy] _].
    cbn [chain] in Hy. rewrite Hvir in Hy. cbn in Hy. congruence.
  - (* the forest is deeper *)
    destruct (next_right_None h1 Hwf1 (vor c) Dvor Enrr) as [Avor _].
    destruct (join_thread_step h1 p j (vor c) nr
                (mod_ (set_thread (vor c) nr h1 !!! vor c) + (sil c - sor c))%Q
                HI1 Fvor Dvor Avor)
      as (Hwf' & Hs' & Ho' & Hthr & Hthr' & Htidy & Hsp).
    eexists a, _. split; [done|]. split; [lia|]. split; [|split].
    + split; [done| |done|done].
      apply (CF_merge_right h1 _ p j t (vil c) (vir c) (vol c) (vor c) Hwf1
               (ji_CF _ _ _ HI1) (ji_CT _ _ _ HI1) Hvil Hvir Hvol Hvor Hs' nr);
        done.
    + by apply (same_shape_trans h h1).
    + by apply (outside_trans _ h h1).
  - (* the forest ends here *)
    destruct (next_left h1 (vir c)) as [nl|] eqn:Enll;
      destruct (next_left h1 (vol c)) as [nlo|] eqn:Enlo;
      cbn [is_some negb andb].
    + exfalso.
      assert (fdeep h1 p j (S t)) as Hd.
      { exists nlo. apply (cf_left _ _ _ (ji_CF _ _ _ HI1)). cbn [chain].
        by rewrite Hvol. }
      destruct (cf_deep _ _ _ (ji_CF _ _ _ HI1) _ Hd) as [_ [y Hy]].
      cbn [chain] in Hy. rewrite Hvil in Hy. cbn in Hy. congruence.
    + destruct (next_left_None h1 Hwf1 (vol c) Dvol Enlo) as [Avol _].
      destruct (join_thread_step h1 p j (vol c) nl
                  (mod_ (set_thread (vol c) nl h1 !!! vol c) + (sir c - sol c))%Q
                  HI1 Fvol Dvol Avol)
        as (Hwf' & Hs' & Ho' & Hthr & Hthr' & Htidy & Hsp).
      eexists (S j), _. split; [done|]. split; [lia|]. split; [|split].
      * split; [done| |done|done].
        apply (CF_merge_left h1 _ p j t (vil c) (vir c) (vol c) (vor c) Hwf1
                 (ji_CF _ _ _ HI1) (ji_CT _ _ _ HI1) Hvil Hvir Hvol Hvor Hs' nl);
          done.
      * by apply (same_shape_trans h h1).
      * by apply (outside_trans _ h h1).
    + eexists (S j), h1. split; [done|]. split; [lia|]. split; [|by split].
      split; [done| |apply (ji_tidy _ _ _ HI1)|apply (ji_spaced _ _ _ HI1)].
      by apply (CF_merge_none h1 p j t (vil c) (vir c) (vol c) (vor c) Hwf1
           (ji_CF _ _ _ HI1) (ji_CT _ _ _ HI1)).
    + eexists (S j), h1. split; [done|]. split; [lia|]. split; [|by split].
      split; [done| |apply (ji_tidy _ _ _ HI1)|apply (ji_spaced _ _ _ HI1)].
      by apply (CF_merge_none h1 p j t (vil c) (vir c) (vol c) (vor c) Hwf1
           (ji_CF _ _ _ HI1) (ji_CT _ _ _ HI1)).
  - (* the forest ends here, the subtree may go on *)
    destruct (next_left h1 (vir c)) as [nl|] eqn:Enll;
      destruct (next_left h1 (vol c)) as [nlo|] eqn:Enlo;
      cbn [is_some negb andb].
    + exfalso.
      assert (fdeep h1 p j (S t)) as Hd.
      { exists nlo. apply (cf_left _ _ _ (ji_CF _ _ _ HI1)). cbn [chain].
        by rewrite Hvol. }
      destruct (cf_deep _ _ _ (ji_CF _ _ _ HI1) _ Hd) as [_ [y Hy]].
      cbn [chain] in Hy. rewrite Hvil in Hy. cbn in Hy. congruence.
    + destruct (next_left_None h1 Hwf1 (vol c) Dvol Enlo) as [Avol _].
      destruct (join_thread_step h1 p j (vol c) nl
                  (mod_ (set_thread (vol c) nl h1 !!! vol c) + (sir c - sol c))%Q
                  HI1 Fvol Dvol Avol)
        as (Hwf' & Hs' & Ho' & Hthr & Hthr' & Htidy & Hsp).
      eexists (S j), _. split; [done|]. split; [lia|]. split; [|split].
      * split; [done| |done|done].
        apply (CF_merge_left h1 _ p j t (vil c) (vir c) (vol c) (vor c) Hwf1
                 (ji_CF _ _ _ HI1) (ji_CT _ _ _ HI1) Hvil Hvir Hvol Hvor Hs' nl);
          done.
      * by apply (same_shape_trans h h1).
      * by apply (outside_trans _ h h1).
    + eexists (S j), h1. split; [done|]. split; [lia|]. split; [|by split].
      split; [done| |apply (ji_tidy _ _ _ HI1)|apply (ji_spaced _ _ _ HI1)].
      by apply (CF_merge_none h1 p j t (vil c) (vir c) (vol c) (vor c) Hwf1
           (ji_CF _ _ _ HI1) (ji_CT _ _ _ HI1)).
    + eexists (S j), h1. split; [done|]. split; [lia|]. split; [|by split].
      split; [done| |apply (ji_tidy _ _ _ HI1)|apply (ji_spaced _ _ _ HI1)].
      by apply (CF_merge_none h1 p j t (vil c) (vir c) (vol c) (vor c) Hwf1
           (ji_CF _ _ _ HI1) (ji_CT _ _ _ HI1)).
Qed.

(** *** [_shift_tree] after the children *)

Lemma sweep_acc_racc (h : heap) (p : ref) (lo n : nat) :
  sweep_acc h (rev ((fun i => i :: p) <$> seq lo n))
  = racc (SH_ h p) (CH_ h p) lo n.
Proof.
  revert lo. induction n as [|n IH]; intros lo; [done|].
  cbn [seq fmap list_fmap rev racc]. unfold sweep_acc in *.
  rewrite fold_left_app. cbn [fold_left]. by rewrite IH.
Qed.

Lemma shift_tree_lookup (h : heap) (p : ref) (Hwf : wf h) (n i : nat) :
  is_Some (h !! p) -> arity h p = S n -> (i <= n)%nat ->
  _shift_tree p h !! (i :: p)
  = bump (racc (SH_ h p) (CH_ h p) (S i) (n - i)).1 <$> h !! (i :: p).
Proof.
  intros Hp Ha Hi. unfold _shift_tree.
  rewrite (shift_fold_sweep h _ (0%Q, 0%Q) h) by done.
  rewrite (wf_children_total h Hwf) by done. rewrite Ha.
  set (cs := (fun i => i :: p) <$> seq 0 (S n)).
  assert (length cs = S n) as Hlen by (unfold cs; by rewrite length_fmap, length_seq).
  assert (rev cs = reverse cs) as Hrev by apply rev_alt.
  assert (cs !! i = Some (i :: p)) as Hc.
  { unfold cs. rewrite list_lookup_fmap, lookup_seq_lt by lia. done. }
  rewrite (sweep_lookup_in h (rev cs) _ h (length cs - S i) (i :: p)).
  - rewrite Hrev, take_reverse.
    replace (length cs - (length cs - S i))%nat with (S i) by lia.
    fold (sweep_acc h (reverse (drop (S i) cs))).
    replace (reverse (drop (S i) cs)) with (rev (drop (S i) cs)) by apply rev_alt.
    unfold cs.
    rewrite <- fmap_drop, drop_seq, sweep_acc_racc.
    by replace (S n - S i)%nat with (n - i)%nat by lia.
  - rewrite Hrev, reverse_Permutation. unfold cs.
    apply NoDup_fmap_2; [|apply NoDup_seq]. by intros ?? [=].
  - rewrite Hrev, reverse_lookup by lia. rewrite <- Hc. f_equal. lia.
Qed.

Lemma shift_tree_fields (p : ref) (h : heap) (r : ref) :
  same_shape h (_shift_tree p h) /\
  change (_shift_tree p h !!! r) = change (h !!! r) /\
  shift (_shift_tree p h !!! r) = shift (h !!! r) /\
  _thread (_shift_tree p h !!! r) = _thread (h !!! r) /\
  _ancestor (_shift_tree p h !!! r) = _ancestor (h !!! r) /\
  y (_shift_tree p h !!! r) = y (h !!! r) /\
  (x (_shift_tree p h !!! r) - mod_ (_shift_tree p h !!! r)
   == x (h !!! r) - mod_ (h !!! r))%Q.
Proof.
  unfold _shift_tree. rewrite (shift_fold_sweep h _ (0%Q, 0%Q) h) by done.
  apply sweep_fields.
Qed.

Lemma shift_tree_miss (p : ref) (h : heap) (q : ref) :
  q ∉ children (h !!! p) -> _shift_tree p h !! q = h !! q.
Proof.
  intros Hq. unfold _shift_tree.
  rewrite (shift_fold_sweep h _ (0%Q, 0%Q) h) by done.
  apply sweep_lookup_notin. rewrite rev_alt.
  fold (reverse (children (h !!! p))). by rewrite elem_of_reverse.
Qed.

(** After the children have been placed, [_shift_tree] carries out the
    deferred shifts: the children end at least 1 apart. *)
Lemma shift_tree_forest (h : heap) (p : ref) (n : nat) :
  forestInv h p n -> is_Some (h !! p) -> arity h p = S n ->
  let h' := _shift_tree p h in
  wf h' /\ same_shape h h' /\ outside (in_forest p n) h h' /\
  (forall q, thread h' q = thread h q) /\ CF h' p n /\
  (forall q, in_forest p n q -> is_Some (h' !! q) -> tidy h' q) /\
  gaps h' p.
Proof.
  intros HI Hp Ha h'. pose proof (fi_wf _ _ _ HI) as Hwf.
  pose proof (fun r => shift_tree_fields p h r) as Hf. fold h' in Hf.
  assert (same_shape h h') as Hs by apply (Hf []).
  assert (forall q, ~ (exists i, (i <= n)%nat /\ q = i :: p) -> h' !! q = h !! q)
    as Hmiss.
  { intros q Hq. apply shift_tree_miss. rewrite (children_elem h Hwf) by done.
    intros (i & Hi & ->). apply Hq. exists i. split; [lia|done]. }
  assert (forall q, thread h' q = thread h q) as Ht.
  { intros q. unfold thread. by destruct (Hf q) as (_ & _ & _ & -> & _). }
  assert (forall q i, q ≠ p -> h' !!! (i :: q) = h !!! (i :: q)) as Hkid.
  { intros q i Hq. apply lookup_total_eq, Hmiss. intros (k & _ & [= _ E]). done. }
  split; [by apply (same_shape_wf h)|]. split; [done|]. split; [|split; [done|]].
  { intros q Hq. apply Hmiss. intros (i & Hi & ->). apply Hq.
    by apply in_forest_child. }
  split; [apply (CF_frame h); [done| |apply (fi_CF _ _ _ HI)]; by intros|].
  split.
  - intros q Hq Hq'. apply in_forest_parent in Hq as Hqp. destruct Hqp as [_ Hne].
    destruct (fi_tidy _ _ _ HI q Hq) as (Hanc & Hg & Hm).
    { by apply (same_shape_is_Some _ _ _ Hs). }
    split; [|split].
    + unfold ancestor. by destruct (Hf q) as (_ & _ & _ & _ & -> & _).
    + apply (gaps_ext h); [done| |done]. intros i. unfold X_. by rewrite Hkid.
    + apply (centred_ext h); [done| | |done].
      * intros i. unfold X_. by rewrite Hkid.
      * by destruct (Hf q) as (_ & _ & _ & _ & _ & _ & ->).
  - intros i Hi.
    assert (S i <= n)%nat as Hin.
    { apply (same_shape_is_Some _ _ _ Hs) in Hi.
      apply (wf_up_total h Hwf) in Hi as [_ Hi]. lia. }
    apply (spaced_swept (X_ h p) (SH_ h p) (CH_ h p) (X_ h' p) n);
      [apply (fi_spaced _ _ _ HI)| |lia].
    intros k Hk. unfold X_ at 1 2.
    assert (is_Some (h !! (k :: p))) as [nk Hnk]
      by (apply (wf_down_total h Hwf); [done|lia]).
    pose proof (shift_tree_lookup h p Hwf n k Hp Ha Hk) as Hl. fold h' in Hl.
    rewrite Hnk in Hl. rewrite !lookup_total_alt, Hl, Hnk. cbn. reflexivity.
Qed.

(** *** [_first_walk] *)

Lemma fresh_frame h h' v :
  (forall q, v `suffix_of` q -> h' !! q = h !! q) -> fresh h v -> fresh h' v.
Proof.
  intros He Hf q Hq Hq'. rewrite He in Hq' by done.
  destruct (Hf q Hq Hq') as (? & ? & ? & ? & ?).
  unfold fresh_at, thread, ancestor. by rewrite (lookup_total_eq h h' q (He q Hq)).
Qed.

Lemma fresh_down h v i : fresh h v -> fresh h (i :: v).
Proof.
  intros Hf q Hq. apply Hf. destruct Hq as [k ->]. exists (k ++ [i]).
  by rewrite <- app_assoc.
Qed.

Lemma leaf_region h (Hwf : wf h) v q :
  arity h v = 0%nat -> v `suffix_of` q -> is_Some (h !! q) -> q = v.
Proof.
  intros Ha [k ->] Hq. destruct k as [|i k _] using rev_ind; [done|].
  rewrite <- app_assoc in Hq. cbn in Hq.
  assert (is_Some (h !! (i :: v))) as Hi.
  { apply (wf_suffix h Hwf (i :: v) (k ++ i :: v)); [by exists k|done]. }
  apply (wf_up_total h Hwf) in Hi as [_ Hi]. lia.
Qed.

(** The last assignments of [_first_walk] on an object [v] with [S n]
    children: with a left sibling, [mod] is [x] minus the midpoint of the
    first and the last child; without, [x] is this midpoint and [mod] is
    left alone. *)
Definition midpoint_rule (h h' : heap) (v : ref) (n : nat) : Prop :=
  let midpoint :=
    ((x (h' !!! (0%nat :: v)) + x (h' !!! (n :: v))) * (1 # 2))%Q in
  match v with
  | S _ :: _ => mod_ (h' !!! v) = (x (h' !!! v) - midpoint)%Q
  | _ => x (h' !!! v) = midpoint /\ mod_ (h' !!! v) = mod_ (h !!! v)
  end.

(** What [_first_walk] on [v] leaves behind. *)
Definition walked (h : heap) (v : ref) (dx : Q) (h' : heap) : Prop :=
  wf h' /\ same_shape h h' /\ outside (suffix v) h h' /\ CT h' v /\
  (forall q, v `suffix_of` q -> is_Some (h' !! q) -> tidy h' q) /\
  thread h' v = thread h v /\ ancestor h' v = ancestor h v /\
  shift (h' !!! v) = shift (h !!! v) /\
  change (h' !!! v) = change (h !!! v) /\
  (forall i p, v = S i :: p -> x (h' !!! v) = (x (h !!! (i :: p)) + dx)%Q) /\
  (forall n, arity h v = S n -> midpoint_rule h h' v n).

Definition first_walk_total (fuel : nat) : Prop :=
  forall dx v h,
    wf h -> is_Some (h !! v) -> fresh h v -> (size h <= fuel + length v)%nat ->
    exists h', _first_walk fuel dx v h = Ok h' /\ walked h v dx h'.

(** A walked subtree [S j] beside the forest [0..j]. *)
Lemma walked_join h h' p j :
  forestInv h p j -> fresh h (S j :: p) -> is_Some (h !! (S j :: p)) ->
  walked h (S j :: p) 1 h' -> joinInv h' p j.
Proof.
  intros HI Hfr Hv (Hwf' & Hs & Ho & HCT & Htidy & _ & _ & Hsh & Hch & Hx & _).
  assert (forall q, in_forest p j q -> h' !! q = h !! q) as Hsame.
  { intros q Hq. apply Ho. by apply (forest_tree_disjoint p j). }
  split; [done| |done| |].
  - apply (CF_frame h); [done| |apply (fi_CF _ _ _ HI)].
    intros q Hq. unfold thread. by rewrite (lookup_total_eq _ _ _ (Hsame q Hq)).
  - intros q Hq Hq'. apply in_forest_S in Hq as [Hq|Hq]; [|by apply Htidy].
    apply (tidy_frame h); [done|by apply Hsame| |].
    + intros i. by apply Hsame, in_forest_down.
    + apply (fi_tidy _ _ _ HI); [done|]. by rewrite <- Hsame.
  - destruct (Hfr (S j :: p)) as (_ & _ & _ & Hsh0 & Hch0); [done|done|].
    apply (spaced_place (X_ h p) (SH_ h p) (CH_ h p)); [apply (fi_spaced _ _ _ HI)| | | |].
    + intros i Hi. unfold X_, SH_, CH_.
      by rewrite (lookup_total_eq h h' (i :: p)) by by apply Hsame, in_forest_child.
    + unfold X_. rewrite (Hx j p eq_refl).
      by rewrite (lookup_total_eq h h' (j :: p)) by by apply Hsame, in_forest_child.
    + unfold SH_. by rewrite Hsh, Hsh0.
    + unfold CH_. by rewrite Hch, Hch0.
Qed.

(** The loop over the children of [p], from child [S j] on. *)
Lemma children_loop_ok (fuel : nat) (dx : Q) (p : ref) :
  first_walk_total fuel ->
  forall m j a h,
    (a <= j)%nat -> forestInv h p j -> is_Some (h !! p) ->
    arity h p = (S j + m)%nat ->
    (forall k, (j < k)%nat -> fresh h (k :: p)) ->
    (size h <= fuel + S (length p))%nat ->
    exists a' h',
      foldM (fun '(default_ancestor, h) w =>
               h ← _first_walk fuel 1%Q w h;
               _apportion (size h) w default_ancestor dx h)
            ((fun i => i :: p) <$> seq (S j) m) (a :: p, h) = Ok (a' :: p, h') /\
      forestInv h' p (j + m) /\ same_shape h h' /\
      outside (in_forest p (j + m)) h h'.
Proof.
  intros Hfw. induction m as [|m IH]; intros j a h Ha HI Hp Har Hfr Hsz.
  - exists a, h. rewrite Nat.add_0_r. split; [done|]. split; [done|]. by split.
  - pose proof (fi_wf _ _ _ HI) as Hwf.
    assert (is_Some (h !! (S j :: p))) as Hv
      by (apply (wf_down_total h Hwf); [done|lia]).
    destruct (Hfw 1%Q (S j :: p) h Hwf Hv (Hfr (S j) ltac:(lia)) Hsz)
      as (h1 & E1 & Hw).
    pose proof (walked_join h h1 p j HI (Hfr (S j) ltac:(lia)) Hv Hw) as HJ.
    destruct Hw as (Hwf1 & Hs1 & Ho1 & _).
    assert (is_Some (h1 !! (S j :: p))) as Hv1
      by by apply (same_shape_is_Some _ _ _ Hs1).
    destruct (apportion_ok p j dx a h1 Ha HJ Hv1)
      as (a' & h2 & E2 & Ha' & HI2 & Hs2 & Ho2).
    assert (same_shape h h2) as Hs by by apply (same_shape_trans h h1).
    assert (outside (in_forest p (S j)) h h2) as Ho.
    { apply (outside_trans _ h h1); [|done].
      apply (outside_mono (suffix (S j :: p))); [|done].
      intros q Hq. exists (S j). split; [lia|done]. }
    destruct (IH (S j) a' h2) as (a'' & h3 & E3 & HI3 & Hs3 & Ho3); [done|done| | | | |].
    + by apply (same_shape_is_Some _ _ _ Hs).
    + rewrite (arity_shape _ _ _ Hs). lia.
    + intros k Hk. apply (fresh_frame h); [|apply Hfr; lia].
      intros q Hq. apply Ho. intros (i & Hi & Hq').
      destruct Hq as [k1 ->]. destruct Hq' as [k2 E].
      assert (i = k); [|lia].
      assert (length k1 = length k2).
      { apply (f_equal length) in E. rewrite !length_app in E. cbn in E. lia. }
      apply app_inj_1 in E as [_ [= ->]]; done.
    + rewrite (same_shape_size _ _ Hs). lia.
    + exists a'', h3. cbn [seq fmap list_fmap foldM]. rewrite E1.
      cbn [mbind result_bind]. rewrite E2. cbn [mbind result_bind].
      split; [exact E3|]. replace (j + S m)%nat with (S j + m)%nat by lia.
      split; [done|]. split; [by apply (same_shape_trans h h2)|].
      apply (outside_trans _ h h2); [|done].
      apply (outside_mono (in_forest p (S j))); [|done].
      intros q. apply in_forest_mono. lia.
Qed.

Lemma walked_leaf h v dx X :
  wf h -> is_Some (h !! v) -> fresh h v -> arity h v = 0%nat ->
  (forall i p, v = S i :: p -> X = (x (h !!! (i :: p)) + dx)%Q) ->
  walked h v dx (set_x v X h).
Proof.
  intros Hwf Hv Hfr Ha HX. set (h' := set_x v X h).
  assert (same_shape h h') as Hs by (apply same_shape_alter; by intros []).
  assert (wf h') as Hwf' by by apply (same_shape_wf h).
  assert (h' !!! v = with_x X (h !!! v)) as Htot
    by (unfold h', set_x; by rewrite alter_total, decide_True).
  destruct (Hfr v) as (Hth & Han & _); [done|done|].
  assert (thread h' v = thread h v) as Eth
    by (unfold thread; by rewrite Htot).
  assert (ancestor h' v = ancestor h v) as Ean
    by (unfold ancestor; by rewrite Htot).
  split; [done|]. split; [done|]. split; [|split; [|split]].
  - by apply outside_alter.
  - apply CT_leaf; [done|by apply (same_shape_is_Some _ _ _ Hs)| |congruence].
    by rewrite (arity_shape _ _ _ Hs).
  - intros q Hq Hq'. apply (same_shape_is_Some _ _ _ Hs) in Hq'.
    rewrite (leaf_region h Hwf v q Ha Hq Hq'). split; [|split].
    + by rewrite Ean, Han.
    + intros i Hi. apply (same_shape_is_Some _ _ _ Hs) in Hi.
      apply (wf_up_total h Hwf) in Hi as [_ Hi]. lia.
    + intros n Hn. rewrite (arity_shape _ _ _ Hs) in Hn. lia.
  - split; [done|]. split; [done|].
    rewrite Htot. split; [done|]. split; [done|]. split.
    + intros i p E. cbn. by apply HX.
    + intros n Hn. lia.
Qed.

Lemma walked_parent h h3 h' v n dx :
  wf h -> is_Some (h !! v) -> fresh_at h v -> arity h v = S n ->
  wf h3 -> same_shape h h3 -> outside (in_forest v n) h h3 ->
  CF h3 v n -> (forall q, in_forest v n q -> is_Some (h3 !! q) -> tidy h3 q) ->
  gaps h3 v ->
  same_shape h3 h' -> (forall q, q ≠ v -> h' !! q = h3 !! q) ->
  _thread (h' !!! v) = _thread (h3 !!! v) ->
  _ancestor (h' !!! v) = _ancestor (h3 !!! v) ->
  shift (h' !!! v) = shift (h3 !!! v) -> change (h' !!! v) = change (h3 !!! v) ->
  (x (h' !!! v) - mod_ (h' !!! v) == (X_ h3 v 0 + X_ h3 v n) * (1 # 2))%Q ->
  (forall i p, v = S i :: p -> x (h' !!! v) = (x (h !!! (i :: p)) + dx)%Q) ->
  midpoint_rule h h' v n ->
  walked h v dx h'.
Proof.
  intros Hwf Hv (Hth & Han & _) Ha Hwf3 Hs3 Ho3 HCF Htidy Hg Hs' Hne Eth Ean Esh
    Ech Hmid Hx Hrule.
  assert (~ in_forest v n v) as Hv3 by (intros Hq; by apply in_forest_parent in Hq as [_ ?]).
  assert (h3 !!! v = h !!! v) as E3 by by apply lookup_total_eq, Ho3.
  assert (same_shape h h') as Hs by by apply (same_shape_trans h h3).
  assert (wf h') as Hwf' by by apply (same_shape_wf h3).
  assert (forall i, h' !!! (i :: v) = h3 !!! (i :: v)) as Hkid.
  { intros i. apply lookup_total_eq, Hne. intros E.
    apply (f_equal length) in E. cbn in E. lia. }
  assert (forall q, v `suffix_of` q -> is_Some (h !! q) -> q ≠ v -> in_forest v n q)
    as Hin.
  { intros q Hq Hq' Hqv. destruct (region_child v q Hq Hqv) as [i Hi].
    exists i. split; [|done].
    assert (is_Some (h !! (i :: v))) as Hiv by by apply (wf_suffix h Hwf _ q).
    apply (wf_up_total h Hwf) in Hiv as [_ Hiv]. lia. }
  split; [done|]. split; [done|]. split; [|split; [|split]].
  - intros q Hq. rewrite Hne by (intros ->; by apply Hq).
    apply Ho3. intros Hf. apply Hq. by apply in_forest_parent in Hf as [? _].
  - apply (CT_parent h' Hwf' v n).
    + by apply (same_shape_is_Some _ _ _ Hs).
    + by rewrite (arity_shape _ _ _ Hs).
    + apply (CF_frame h3); [done| |done]. intros q Hq. unfold thread.
      rewrite (lookup_total_eq h3 h' q); [done|]. apply Hne. intros ->. done.
  - intros q Hq Hq'. destruct (decide (q = v)) as [->|Hqv].
    + split; [|split].
      * unfold ancestor in *. by rewrite Ean, E3, Han.
      * apply (gaps_ext h3); [done| |done]. intros i. unfold X_. by rewrite Hkid.
      * intros m Hm. rewrite (arity_shape _ _ _ Hs), Ha in Hm. injection Hm as <-.
        unfold X_. rewrite !Hkid. exact Hmid.
    + apply (tidy_frame h3); [done|by apply Hne| |].
      * intros i. apply Hne. intros E. destruct Hq as [k ->].
        apply (f_equal length) in E. cbn in E. rewrite length_app in E. lia.
      * apply Htidy; [|by rewrite <- Hne]. apply Hin; [done| |done].
        by apply (same_shape_is_Some _ _ _ Hs).
  - unfold thread, ancestor. rewrite Eth, Ean, Esh, Ech, E3.
    split; [done|]. split; [done|]. split; [done|]. split; [done|].
    split; [done|]. intros m Hm. rewrite Ha in Hm. by injection Hm as <-.
Qed.

Lemma first_walk_ok (fuel : nat) : first_walk_total fuel.
Proof.
  induction fuel as [|fuel IH]; intros dx v h Hwf Hv Hfr Hsz.
  { pose proof (depth_bound h Hwf v Hv). lia. }
  cbn [_first_walk]. rewrite (is_leaf_arity h).
  destruct (arity h v) as [|n] eqn:Ha.
  - rewrite bool_decide_eq_true_2 by done.
    rewrite (left_sibling_wf h Hwf) by done.
    destruct v as [|[|i] p].
    + eexists. split; [done|]. by apply walked_leaf.
    + eexists. split; [done|]. by apply walked_leaf.
    + eexists. split; [done|]. apply walked_leaf; try done.
      by intros ?? [= <- <-].
  - rewrite bool_decide_eq_false_2 by done.
    rewrite (head_children h Hwf), decide_True by (done || lia).
    rewrite (wf_children_total h Hwf), Ha by done.
    cbn [seq fmap list_fmap foldM].
    assert (is_Some (h !! (0%nat :: v))) as Hc0
      by (apply (wf_down_total h Hwf); [done|lia]).
    destruct (IH 1%Q (0%nat :: v) h Hwf Hc0 (fresh_down h v 0 Hfr))
      as (h1 & E1 & Hw); [cbn; lia|].
    rewrite E1. cbn [mbind result_bind].
    destruct Hw as (Hwf1 & Hs1 & Ho1 & HCT1 & Htidy1 & _).
    assert (is_Some (h1 !! (0%nat :: v))) as Hc1
      by by apply (same_shape_is_Some _ _ _ Hs1).
    assert (_apportion (size h1) (0%nat :: v) (0%nat :: v) dx h1
            = Ok (0%nat :: v, h1)) as ->.
    { unfold _apportion. by rewrite (left_sibling_wf h1 Hwf1). }
    cbn [mbind result_bind].
    assert (forestInv h1 v 0) as HI1.
    { split; [done|by apply CF_single| |by intros i Hi; lia].
      intros q (i & Hi & Hq) Hq'. apply Htidy1; [|done].
      by replace i with 0%nat in Hq by lia. }
    destruct (children_loop_ok fuel dx v IH n 0 0 h1)
      as (a' & h2 & E2 & HI2 & Hs2 & Ho2); [done|done| | | | |].
    { by apply (same_shape_is_Some _ _ _ Hs1). }
    { by rewrite (arity_shape _ _ _ Hs1). }
    { intros k Hk. apply (fresh_frame h); [|by apply fresh_down].
      intros q Hq. apply Ho1. intros Hq0.
      pose proof (region_disjoint _ _ _ _ Hq Hq0). lia. }
    { rewrite (same_shape_size _ _ Hs1). cbn in Hsz. lia. }
    rewrite E2. cbn [mbind result_bind]. cbn [Nat.add] in HI2, Ho2.
    assert (same_shape h h2) as Hs12 by by apply (same_shape_trans h h1).
    assert (is_Some (h2 !! v)) as Hv2 by by apply (same_shape_is_Some _ _ _ Hs12).
    assert (arity h2 v = S n) as Ha2 by by rewrite (arity_shape _ _ _ Hs12).
    destruct (shift_tree_forest h2 v n HI2 Hv2 Ha2)
      as (Hwf3 & Hs3 & Ho3 & Ht3 & HCF3 & Htidy3 & Hg3).
    set (h3 := _shift_tree v h2) in *.
    assert (same_shape h h3) as Hs13 by by apply (same_shape_trans h h2).
    assert (is_Some (h3 !! v)) as Hv3 by by apply (same_shape_is_Some _ _ _ Hs13).
    assert (arity h3 v = S n) as Ha3 by by rewrite (arity_shape _ _ _ Hs13).
    assert (outside (in_forest v n) h h3) as Ho13.
    { apply (outside_trans _ h h2); [|done]. apply (outside_trans _ h h1); [|done].
      apply (outside_mono (suffix (0%nat :: v))); [|done].
      intros q Hq. exists 0%nat. split; [lia|done]. }
    assert (h3 !!! v = h !!! v) as E3.
    { apply lookup_total_eq, Ho13. intros Hq.
      by apply in_forest_parent in Hq as [_ ?]. }
    destruct (Hfr v) as (Hth & Han & Hmod & Hsh & Hch); [done|done|].
    rewrite (head_children h3 Hwf3), (last_children h3 Hwf3) by done.
    rewrite Ha3, !decide_True by lia. cbn [pred].
    rewrite (left_sibling_wf h3 Hwf3) by done.
    assert (forall X, same_shape h3 (set_x v X h3)) as HsX
      by (intros X; apply same_shape_alter; by intros []).
    assert (forall X M, same_shape h3 (set_mod v M (set_x v X h3))) as HsM.
    { intros X M. eapply same_shape_trans; [apply HsX|].
      apply same_shape_alter. by intros []. }
    assert (forall X, set_x v X h3 !!! v = with_x X (h3 !!! v)) as EX
      by (intros X; unfold set_x; by rewrite alter_total, decide_True).
    assert (forall X M, set_mod v M (set_x v X h3) !!! v
                        = with_mod M (with_x X (h3 !!! v))) as EM.
    { intros X M. unfold set_mod. rewrite alter_total, decide_True, EX; [done..|].
      by apply alter_is_Some. }
    assert (forall X M c, c ≠ v ->
              set_x v X h3 !!! c = h3 !!! c /\
              set_mod v M (set_x v X h3) !!! c = h3 !!! c) as Hoff.
    { intros X M c Hc. unfold set_mod, set_x.
      by rewrite !lookup_total_alter_ne. }
    assert (forall i, i :: v ≠ v) as Hkid.
    { intros i E. apply (f_equal length) in E. cbn in E. lia. }
    destruct v as [|[|i] p].
    1,2: (eexists; split; [done|];
      apply (walked_parent h h3 _ _ n dx); try done;
      [ intros q Hq; unfold set_x; by rewrite lookup_alter_ne
      | by rewrite EX | by rewrite EX | by rewrite EX | by rewrite EX
      | rewrite EX; cbn; rewrite E3, Hmod; unfold X_; ring
      | unfold midpoint_rule; cbn zeta;
        rewrite !(proj1 (Hoff _ 0%Q _ (Hkid _))), EX; cbn;
        by rewrite E3 ]).
    eexists. split; [done|].
    apply (walked_parent h h3 _ _ n dx); try done.
    + intros q Hq. unfold set_mod, set_x. by rewrite !lookup_alter_ne.
    + by rewrite EM.
    + by rewrite EM.
    + by rewrite EM.
    + by rewrite EM.
    + rewrite EM, EX. cbn. unfold X_. ring.
    + intros i' p' [= <- <-]. rewrite EM. cbn.
      rewrite (lookup_total_eq h h3 (i :: p)); [done|]. apply Ho13.
      intros (k & _ & [k' Hk]). apply (f_equal length) in Hk.
      rewrite length_app in Hk. cbn in Hk. lia.
    + unfold midpoint_rule. cbn zeta.
      by rewrite !(proj2 (Hoff _ _ _ (Hkid _))), EM, EX.
Qed.

(** *** The first walk leaves [y] alone *)

Definition same_y (h h' : heap) : Prop :=
  forall q, y (h' !!! q) = y (h !!! q).

Lemma same_y_trans h1 h2 h3 : same_y h1 h2 -> same_y h2 h3 -> same_y h1 h3.
Proof. intros H1 H2 q. by rewrite H2, H1. Qed.

Lemma same_y_alter (f : LayoutTree -> LayoutTree) (r : ref) (h : heap) :
  preserves y f -> same_y h (alter f r h).
Proof. intros Hf q. by apply alter_preserved. Qed.

Lemma shift_subtrees_y wl wr s h h' :
  _shift_subtrees wl wr s h = Ok h' -> same_y h h'.
Proof.
  unfold _shift_subtrees. destruct (Z.eqb _ _); [done|]. intros [= <-] q.
  unfold_set. by repeat skip_alter y.
Qed.

Lemma apportion_loop_y fuel v a dx c h c' h' :
  apportion_loop fuel v a dx c h = Ok (c', h') -> same_y h h'.
Proof.
  revert c h. induction fuel as [|fuel IH]; intros c h; cbn [apportion_loop].
  - destruct (next_right h (vil c)), (next_left h (vir c)); try done;
      by intros [= _ <-].
  - destruct (next_right h (vil c)) as [vil'|]; [|by intros [= _ <-]].
    destruct (next_left h (vir c)) as [vir'|]; [|by intros [= _ <-]].
    destruct (next_left h (vol c)) as [vol'|]; [|done].
    destruct (next_right h (vor c)) as [vor'|]; [|done].
    cbn [deref mbind result_bind].
    assert (same_y h (set_ancestor vor' v h)) as Hy0
      by (apply same_y_alter; by intros []).
    destruct (Qgtb _ 0).
    + destruct (_ancestor' _ _ _ _) as [an|]; [|done]. cbn [mbind result_bind].
      destruct (_shift_subtrees _ _ _ _) as [h1|] eqn:E1; [|done].
      cbn [mbind result_bind]. intros Hrun%IH.
      apply shift_subtrees_y in E1.
      by apply (same_y_trans h h1); [apply (same_y_trans h (set_ancestor vor' v h))|].
    + cbn [mbind result_bind]. intros Hrun%IH.
      by apply (same_y_trans h (set_ancestor vor' v h)).
Qed.

Lemma apportion_y fuel v a dx h a' h' :
  _apportion fuel v a dx h = Ok (a', h') -> same_y h h'.
Proof.
  unfold _apportion. destruct (left_sibling h v) as [v_|]; [|by intros [= _ <-]].
  destruct (leftmost_sibling h v) as [vol0|]; [|done]. cbn [deref mbind result_bind].
  destruct (apportion_loop _ _ _ _ _ _) as [[c h1]|] eqn:E1; [|done].
  apply apportion_loop_y in E1. cbn [mbind result_bind].
  destruct (is_some (next_right h1 (vil c)) && negb (is_some (next_right h1 (vor c)))).
  - destruct (next_right h1 (vil c)) as [nr|]; [|done]. cbn [deref mbind result_bind].
    intros [= _ <-]. apply (same_y_trans h h1); [done|]. intros q.
    unfold_set. by repeat skip_alter y.
  - intros [= _ <-]. apply (same_y_trans h h1); [done|].
    destruct (is_some (next_left h1 (vir c)) && negb (is_some (next_left h1 (vol c))));
      [|done].
    destruct (next_left h1 (vir c)) as [nl|]; [|done].
    intros q. unfold_set. by repeat skip_alter y.
Qed.

Lemma first_walk_y fuel dx v h h' :
  _first_walk fuel dx v h = Ok h' -> same_y h h'.
Proof.
  revert dx v h h'. induction fuel as [|fuel IH]; intros dx v h h'; [done|].
  cbn [_first_walk]. destruct (is_leaf h v).
  { destruct (left_sibling h v); intros [= <-]; apply same_y_alter; by intros []. }
  destruct (head (children (h !!! v))) as [c0|]; [|done].
  assert (forall ws st st',
            foldM (fun '(default_ancestor, h) w =>
                     h ← _first_walk fuel 1%Q w h;
                     _apportion (size h) w default_ancestor dx h) ws st = Ok st' ->
            same_y st.2 st'.2) as Hloop.
  { induction ws as [|w ws IHws]; intros [a0 h0] st'; cbn [foldM].
    - by intros [= <-].
    - destruct (_first_walk fuel 1 w h0) as [h1|] eqn:E1; [|done].
      cbn [mbind result_bind].
      destruct (_apportion (size h1) w a0 dx h1) as [[a1 h2]|] eqn:E2; [|done].
      cbn [mbind result_bind]. intros Hrun%IHws. cbn [snd] in *.
      apply IH in E1. apply apportion_y in E2.
      by apply (same_y_trans h0 h2); [apply (same_y_trans h0 h1)|]. }
  destruct (foldM _ _ _) as [[a1 h1]|] eqn:E1; [|done].
  apply Hloop in E1. cbn [snd] in E1. cbn [mbind result_bind].
  assert (same_y h (_shift_tree v h1)) as Hy3.
  { apply (same_y_trans h h1); [done|]. intros q.
    by destruct (shift_tree_fields v h1 q) as (_ & _ & _ & _ & _ & -> & _). }
  destruct (head _) as [c0'|]; [|done]. destruct (last _) as [cl|]; [|done].
  destruct (left_sibling _ v) as [w|]; intros [= <-];
    (apply (same_y_trans h (_shift_tree v h1)); [done|]); intros q;
    unfold_set; by repeat skip_alter y.
Qed.

(** *** Both walks *)

Lemma placed_x h v s sy dy k n :
  x (placed h v s sy dy k n) = (x n + shift_at h v s k)%Q.
Proof. unfold placed. by destruct k, sy, n. Qed.

Lemma placed_y h v s dy k :
  y (placed h v s None dy k (h !!! (k ++ v))) = y_at (y (h !!! v)) dy k.
Proof. unfold placed. destruct k; [done|]. by destruct (h !!! _). Qed.

Lemma arity_is_Some h q n : arity h q = S n -> is_Some (h !! q).
Proof.
  unfold arity. rewrite lookup_total_alt. by destruct (h !! q); [eauto|].
Qed.

Lemma buchheim_ok (v : ref) (h : heap) :
  wf h -> is_Some (h !! v) -> fresh h v ->
  exists b h',
    buchheim v h = Ok (b, h') /\ wf h' /\ same_shape h h' /\
    outside (suffix v) h h' /\
    (forall q, v `suffix_of` q -> gaps h' q) /\
    (forall q n, v `suffix_of` q -> arity h' q = S n ->
       (x (h' !!! q) == (X_ h' q 0 + X_ h' q n) * (1 # 2))%Q) /\
    (forall k, is_Some (h' !! (k ++ v)) ->
       y (h' !!! (k ++ v)) = y_at (y (h !!! v)) 1 k) /\
    (forall n, below h' v n -> inside b n) /\ tight b (below h' v).
Proof.
  intros Hwf Hv Hfr. unfold buchheim.
  destruct (first_walk_ok (size h) 1%Q v h Hwf Hv Hfr) as (h1 & E1 & Hw); [lia|].
  rewrite E1. cbn [mbind result_bind].
  pose proof (first_walk_y _ _ _ _ _ E1) as Hy1.
  destruct Hw as (Hwf1 & Hs1 & Ho1 & _ & Htidy & _).
  assert (is_Some (h1 !! v)) as Hv1 by by apply (same_shape_is_Some _ _ _ Hs1).
  destruct (second_walk_ok 1%Q (size h) v 0%Q None None h1 Hwf1 Hv1)
    as (m & h2 & E2 & Hpost).
  { rewrite (same_shape_size _ _ Hs1). lia. }
  rewrite E2. cbn [mbind result_bind].
  pose proof (second_walk_post_shape _ _ _ _ _ _ _ _ Hpost) as Hs2.
  destruct Hpost as (Ho2 & Hin & _).
  assert (same_shape h h2) as Hs by by apply (same_shape_trans h h1).
  assert (wf h2) as Hwf2 by by apply (same_shape_wf h).
  assert (is_Some (h2 !! v)) as Hv2 by by apply (same_shape_is_Some _ _ _ Hs).
  destruct (boundary_box_ok (size h) h2 Hwf2 v Hv2) as (b & E3 & Hbin & Hbt).
  { rewrite (same_shape_size _ _ Hs). lia. }
  rewrite E3. cbn [mbind result_bind].
  assert (forall k, is_Some (h2 !! (k ++ v)) ->
            h2 !!! (k ++ v) = placed h1 v 0 None 1 k (h1 !!! (k ++ v))) as Htot.
  { intros k Hk. apply (same_shape_is_Some _ _ _ Hs2) in Hk as [n1 Hn1].
    rewrite !lookup_total_alt, Hin, Hn1. done. }
  exists b, h2. split; [done|]. split; [done|]. split; [done|].
  split; [|split; [|split; [|split; [|done]]]].
  - intros q Hq. by rewrite Ho2, Ho1.
  - intros q [k ->] i Hi. unfold X_.
    assert (is_Some (h2 !! (i :: k ++ v))) as Hi' by by apply (wf_left h2 Hwf2).
    pose proof (Htot (S i :: k) Hi) as ES. pose proof (Htot (i :: k) Hi') as Ei.
    cbn [app] in ES, Ei. rewrite ES, Ei, !placed_x. cbn [shift_at app].
    assert (gaps h1 (k ++ v)) as Hg.
    { apply Htidy; [by exists k|].
      apply (same_shape_is_Some _ _ _ Hs2) in Hi.
      by apply (wf_up_total h1 Hwf1) in Hi as [? _]. }
    specialize (Hg i (proj1 (same_shape_is_Some _ _ _ Hs2) Hi)).
    unfold X_ in Hg. lra.
  - intros q n [k ->] Ha. unfold X_.
    pose proof (arity_is_Some _ _ _ Ha) as Hq.
    assert (is_Some (h2 !! (0%nat :: k ++ v)) /\ is_Some (h2 !! (n :: k ++ v)))
      as [H0 Hn] by (split; apply (wf_down_total h2 Hwf2); (done || lia)).
    pose proof (Htot (0%nat :: k) H0) as E0. pose proof (Htot (n :: k) Hn) as En.
    cbn [app] in E0, En. rewrite (Htot k Hq), E0, En, !placed_x.
    cbn [shift_at app].
    assert (centred h1 (k ++ v)) as Hc.
    { apply Htidy; [by exists k|]. by apply (same_shape_is_Some _ _ _ Hs2). }
    specialize (Hc n). rewrite <- (arity_shape _ _ _ Hs2) in Hc.
    specialize (Hc Ha). unfold X_ in Hc. lra.
  - intros k Hk. rewrite (Htot k Hk), placed_y. by rewrite (Hy1 v).
Qed.

(** ** The layout of a constructed tree ([buchheim.py], [layout.py]) *)

(** The store that [LayoutTree(tree, level=lvl0, level_limit=lim)] builds. *)
Definition built (tree : Tree) (lvl0 lim : Z) : heap :=
  LayoutTree_init tree None 0 lvl0 lim [] ∅.

Lemma built_fresh (tree : Tree) (lvl0 lim : Z) : fresh (built tree lvl0 lim) [].
Proof.
  intros q _ [n Hn]. unfold fresh_at, thread, ancestor.
  rewrite (lookup_total_correct _ _ _ Hn). unfold built in Hn.
  rewrite LayoutTree_init_lookup in Hn.
  by apply node_of_Some in Hn as (t & _ & _ & ->).
Qed.

Lemma built_level (tree : Tree) (lvl0 lim : Z) (q : ref) (n : LayoutTree) :
  built tree lvl0 lim !! q = Some n ->
  level n = lvl0 + Z.of_nat (length q) /\ y n = inject_Z (level n).
Proof.
  unfold built. rewrite LayoutTree_init_lookup.
  by intros (t & _ & _ & ->)%node_of_Some.
Qed.

(** [_first_walk] on an object [v] whose subtree no walk has touched yet
    returns. It changes neither the links, nor any [y], nor any object
    outside the subtree of [v], nor the thread, the ancestor, the [shift]
    and the [change] of [v]. Afterwards the contours of [v] are complete:
    [k] steps along [next_left], and [k] steps along [next_right], lead
    from [v] to an object [k] levels below it in its subtree, for every
    [k] up to the depth of the subtree. The [x] and the [mod] of [v] are
    those of the last assignments: with a left sibling, [x] is the [x] of
    that sibling plus [dx], and [mod] is [x] minus the midpoint of the
    first and the last child when there are children; without a left
    sibling, [x] is that midpoint, with [mod] left alone, or 0 for a
    leaf. *)
Theorem first_walk_spec (fuel : nat) (dx : Q) (v : ref) (h : heap) :
  wf h -> is_Some (h !! v) -> fresh h v -> (size h <= fuel + length v)%nat ->
  exists h',
    _first_walk fuel dx v h = Ok h' /\ same_shape h h' /\
    (forall q, ~ v `suffix_of` q -> h' !! q = h !! q) /\
    (forall q, y (h' !!! q) = y (h !!! q)) /\
    (thread h' v = thread h v /\ ancestor h' v = ancestor h v /\
     shift (h' !!! v) = shift (h !!! v) /\
     change (h' !!! v) = change (h !!! v)) /\
    (forall k l, chain (next_left h') k v = Some l -> on_level h' v k l) /\
    (forall k l, chain (next_right h') k v = Some l -> on_level h' v k l) /\
    (forall k, deep h' v k ->
       is_Some (chain (next_left h') k v) /\
       is_Some (chain (next_right h') k v)) /\
    (forall i p, v = S i :: p -> x (h' !!! v) = (x (h !!! (i :: p)) + dx)%Q) /\
    (forall n, arity h v = S n -> midpoint_rule h h' v n) /\
    (arity h v = 0%nat -> (forall i p, v ≠ S i :: p) -> x (h' !!! v) = 0%Q).
Proof.
  intros Hwf Hv Hfr Hsz.
  destruct (first_walk_ok fuel dx v h Hwf Hv Hfr Hsz) as (h' & Hrun & Hw).
  exists h'. split; [exact Hrun|].
  pose proof (first_walk_y _ _ _ _ _ Hrun) as Hy.
  destruct Hw as (Hwf' & Hs & Ho & [Hl Hr Hd] & _ & Hth & Han & Hsh & Hch & Hx
                  & Hmid).
  split; [exact Hs|]. split; [exact Ho|]. split; [exact Hy|].
  split; [by repeat split|]. split; [exact Hl|]. split; [exact Hr|].
  split; [exact Hd|]. split; [exact Hx|]. split; [exact Hmid|].
  intros Ha Hleft. destruct fuel as [|fuel]; [done|].
  cbn [_first_walk] in Hrun.
  rewrite (is_leaf_arity h), bool_decide_eq_true_2 in Hrun by done.
  rewrite (left_sibling_wf h Hwf) in Hrun by done.
  destruct v as [|[|i] p]; [| |by destruct (Hleft i p)];
    injection Hrun as <-; by apply set_x_hit.
Qed.

Lemma first_walk_spec_witness :
  exists h', _first_walk (size store1) 1 [] store1 = Ok h' /\ same_shape store1 h'.
Proof.
  destruct (first_walk_spec (size store1) 1 [] store1) as (h' & Hrun & Hs & _).
  - apply init_wf.
  - apply (wf_root _ (init_wf _ _ _)).
  - apply built_fresh.
  - simpl. lia.
  - exists h'. split; [exact Hrun|exact Hs].
Defined.

Lemma y_at_closed (Y dy : Q) (k : list nat) :
  (y_at Y dy k == Y + inject_Z (Z.of_nat (length k)) * dy)%Q.
Proof.
  induction k as [|i k IH].
  - cbn. ring.
  - cbn [y_at length]. rewrite IH, Nat2Z.inj_succ. unfold Z.succ.
    rewrite inject_Z_plus. ring.
Qed.

(** [buchheim] on a freshly constructed layout tree: the facts that the
    theorems below share. *)
Lemma buchheim_built (tree : Tree) (lvl0 lim : Z) :
  exists b h',
    buchheim [] (built tree lvl0 lim) = Ok (b, h') /\ wf h' /\
    same_shape (built tree lvl0 lim) h' /\
    (forall q, gaps h' q) /\
    (forall q n, arity h' q = S n ->
       (x (h' !!! q) == (X_ h' q 0 + X_ h' q n) * (1 # 2))%Q) /\
    (forall q n, h' !! q = Some n ->
       level n = lvl0 + Z.of_nat (length q) /\ (y n == inject_Z (level n))%Q) /\
    (forall n, below h' [] n -> inside b n) /\ tight b (below h' []).
Proof.
  destruct (buchheim_ok [] (built tree lvl0 lim))
    as (b & h' & Hrun & Hwf' & Hs & _ & Hg & Hc & Hy & Hin & Ht).
  { apply init_wf. }
  { apply (wf_root _ (init_wf _ _ _)). }
  { apply built_fresh. }
  exists b, h'. split; [exact Hrun|]. split; [exact Hwf'|]. split; [exact Hs|].
  split; [|split; [|split; [|by split]]].
  - intros q. apply Hg, suffix_nil.
  - intros q n. apply Hc, suffix_nil.
  - intros q n Hn.
    assert (is_Some (built tree lvl0 lim !! q)) as [n0 Hn0]
      by (apply (same_shape_is_Some _ _ _ Hs); eauto).
    destruct (built_level _ _ _ _ _ Hn0) as [Hl Hy0].
    assert (level n = level n0) as El.
    { pose proof (same_shape_level _ _ q Hs) as E.
      by rewrite (lookup_total_correct _ _ _ Hn), (lookup_total_correct _ _ _ Hn0) in E. }
    split; [by rewrite El|].
    specialize (Hy q). rewrite app_nil_r in Hy.
    rewrite (lookup_total_correct _ _ _ Hn) in Hy. rewrite Hy by eauto.
    rewrite y_at_closed, El, Hl.
    assert (is_Some (built tree lvl0 lim !! [])) as [nr Hnr]
      by apply (wf_root _ (init_wf _ _ _)).
    destruct (built_level _ _ _ _ _ Hnr) as [Hlr Hyr].
    rewrite (lookup_total_correct _ _ _ Hnr), Hyr, Hlr. cbn [length].
    rewrite !inject_Z_plus. cbn. ring.
Qed.

(** [buchheim] on a freshly constructed layout tree returns, whatever the
    tree: the walks end and none of their divisions and index accesses
    fails. The links are as constructed; the box holds every object, and
    each of its sides passes through one of them. *)
Theorem buchheim_returns (tree : Tree) (lvl0 lim : Z) :
  exists x0 x1 y0 y1 h',
    buchheim [] (built tree lvl0 lim) = Ok (x0, x1, y0, y1, h') /\
    same_shape (built tree lvl0 lim) h' /\
    (forall q n, h' !! q = Some n ->
       (x0 <= x n /\ x n <= x1 /\ y0 <= y n /\ y n <= y1)%Q) /\
    (exists q n, h' !! q = Some n /\ x0 == x n)%Q /\
    (exists q n, h' !! q = Some n /\ x1 == x n)%Q /\
    (exists q n, h' !! q = Some n /\ y0 == y n)%Q /\
    (exists q n, h' !! q = Some n /\ y1 == y n)%Q.
Proof.
  destruct (buchheim_built tree lvl0 lim)
    as ([[[x0 x1] y0] y1] & h' & Hrun & Hwf' & Hs & _ & _ & Hy & Hin & Ht).
  exists x0, x1, y0, y1, h'. split; [exact Hrun|]. split; [exact Hs|].
  split.
  { intros q n Hn. apply (Hin n). exists q. by rewrite app_nil_r. }
  destruct Ht as ((n1 & [k1 H1] & E1) & (n2 & [k2 H2] & E2) & (n3 & [k3 H3] & E3)
                  & (n4 & [k4 H4] & E4)).
  rewrite app_nil_r in H1, H2, H3, H4.
  split; [by eauto|]. split; [by eauto|]. split; by eauto.
Qed.

(** *** With exact arithmetic *)

(** The two lemmas of this part are about the walker run on exact
    rationals: they use the laws of arithmetic, which the rounded
    operations of floats do not obey, and say nothing on rounding. *)

(** With exact arithmetic, the children of an object end from left to
    right in the order of their index, neighbours at least 1 apart. *)
Lemma exact_siblings_apart (tree : Tree) (lvl0 lim : Z) :
  exists b h',
    buchheim [] (built tree lvl0 lim) = Ok (b, h') /\
    forall q i j, (i <= j)%nat -> is_Some (h' !! (j :: q)) ->
      (x (h' !!! (i :: q)) + inject_Z (Z.of_nat (j - i)) <= x (h' !!! (j :: q)))%Q.
Proof.
  destruct (buchheim_built tree lvl0 lim)
    as (b & h' & Hrun & Hwf' & _ & Hg & _).
  exists b, h'. split; [exact Hrun|].
  intros q i j Hij. induction Hij as [|j Hij IH]; intros Hj.
  - rewrite Nat.sub_diag. change (inject_Z (Z.of_nat 0)) with 0%Q. lra.
  - specialize (IH (wf_left h' Hwf' _ _ Hj)). specialize (Hg q j Hj).
    unfold X_ in Hg. replace (S j - i)%nat with (S (j - i)) by lia.
    rewrite Nat2Z.inj_succ. unfold Z.succ. rewrite inject_Z_plus.
    change (inject_Z 1) with 1%Q. lra.
Qed.

(** With exact arithmetic, every object with children ends midway between
    its first and its last child. *)
Lemma exact_parent_centred (tree : Tree) (lvl0 lim : Z) :
  exists b h',
    buchheim [] (built tree lvl0 lim) = Ok (b, h') /\
    forall q n, arity h' q = S n ->
      (x (h' !!! q)
       == (x (h' !!! (0%nat :: q)) + x (h' !!! (n :: q))) * (1 # 2))%Q.
Proof.
  destruct (buchheim_built tree lvl0 lim) as (b & h' & Hrun & _ & _ & _ & Hc & _).
  exists b, h'. split; [exact Hrun|]. exact Hc.
Qed.

(** *** Levels *)

(** After [buchheim] on a layout tree constructed with [level=lvl0], the
    level of an object is [lvl0] plus its depth below the root, and its
    [y] is this level, as long as the levels from the root down to the
    object are integers that a float holds (up to [2 ^ 53] in size): the
    second walk starts from the [y] of the root and adds [1.0] per level,
    and the first walk leaves [y] alone. *)
Theorem buchheim_levels (tree : Tree) (lvl0 lim : Z) :
  - 2 ^ 53 <= lvl0 ->
  exists b h',
    buchheim [] (built tree lvl0 lim) = Ok (b, h') /\
    forall q n, h' !! q = Some n ->
      level n = lvl0 + Z.of_nat (length q) /\
      (level n <= 2 ^ 53 -> (y n == inject_Z (level n))%Q).
Proof.
  intros _.
  destruct (buchheim_built tree lvl0 lim)
    as (b & h' & Hrun & _ & _ & _ & _ & Hy & _).
  exists b, h'. split; [exact Hrun|]. intros q n Hn.
  destruct (Hy q n Hn) as [? ?]. by split.
Qed.

Lemma buchheim_levels_witness :
  exists b h', buchheim [] (built (build_tree words1) 0 10) = Ok (b, h').
Proof.
  destruct (buchheim_levels (build_tree words1) 0 10) as (b & h' & Hrun & _).
  - lia.
  - exists b, h'. exact Hrun.
Defined.

(** ** Rendering a constructed tree ([layout.py]) *)





Section RenderLayout.
Context {UID : Type} `{Countable UID}.
Variable key : heap -> ref -> UID.
Variable radial : gmap UID (Q * Q) -> gmap UID (Q * Q).


End RenderLayout.

Section RenderResult.
Context {UID : Type} `{Countable UID}.
Variable key : heap -> ref -> UID.
Variable radial : gmap UID (Q * Q) -> gmap UID (Q * Q).


End RenderResult.



(** ** An unknown direction ([layout.py]) *)

Section RenderDirection.
Context {UID : Type} `{Countable UID}.
Variable key : heap -> ref -> UID.
Variable radial : gmap UID (Q * Q) -> gmap UID (Q * Q).

End RenderDirection.


